(** * Fleiss' Kappa agreement analysis

    A shallow embedding of [Validation/analyze_fleiss_kappa_agreement.py]:
    the kappa engine [calculate_fleiss_kappa], the interpreter
    [interpret_fleiss_kappa], the aggregator
    [prepare_data_for_fleiss_kappa] and the per-question loop of
    [analyze_agreement_by_question].

    Numbers.  The script computes on NumPy [float64] scalars and arrays.
    They are modelled by the type [float] below: the IEEE-754 special
    values (signed zero, the two infinities, not-a-number) are kept, with
    the IEEE rules for each operation, and every other finite value is a
    rational.  The operations of [Float] are the exact ones: they are
    those of [float64] wherever the exact result is a [float64] number,
    as it is on the 0 and 1 entries and the counts of the pipeline.  The
    operations of [Binary64], further down, round every result as
    [float64] does; the engine is run on them where rounding matters.
    On NumPy scalars a division by zero yields an infinity or not-a-number
    (with a warning), it does not raise. *)

From Stdlib Require Import String Bool ZArith QArith Qcanon Lia Lqa Field.
From Stdlib Require Import List Permutation Sorted.
From Stdlib Require PrimFloat FloatOps SpecFloat.
Import ListNotations.

Local Open Scope string_scope.
Local Open Scope list_scope.
Local Open Scope Qc_scope.

(** ** Idealised [float64] *)

Module Float.

Inductive float : Type :=
| FFin (q : Qc)        (* a finite value; [FFin 0] is +0.0 *)
| FNegZero             (* -0.0 *)
| FInf (neg : bool)    (* +inf ([false]) and -inf ([true]) *)
| FNaN.

Definition Qc_eqb (x y : Qc) : bool :=
  match x ?= y with Eq => true | _ => false end.

Definition Qc_ltb (x y : Qc) : bool :=
  match x ?= y with Lt => true | _ => false end.

Definition of_Z (z : Z) : float := FFin (Q2Qc (inject_Z z)).

Definition fzero (neg : bool) : float :=
  if neg then FNegZero else FFin 0.

Definition is_nan (x : float) : bool :=
  match x with FNaN => true | _ => false end.

(** The sign bit. *)
Definition fsign (x : float) : bool :=
  match x with
  | FFin q => Qc_ltb q 0
  | FNegZero => true
  | FInf s => s
  | FNaN => false
  end.

(** The rational value of a finite float (0 for the others). *)
Definition qval (x : float) : Qc :=
  match x with
  | FFin q => q
  | _ => 0
  end.

Definition is_zero (x : float) : bool :=
  match x with
  | FFin q => Qc_eqb q 0
  | FNegZero => true
  | _ => false
  end.

Definition fadd (x y : float) : float :=
  match x, y with
  | FNaN, _ | _, FNaN => FNaN
  | FInf s, FInf t => if Bool.eqb s t then FInf s else FNaN
  | FInf s, _ | _, FInf s => FInf s
  | FNegZero, FNegZero => FNegZero
  | FNegZero, FFin q | FFin q, FNegZero => FFin q
  | FFin a, FFin b => FFin (a + b)
  end.

Definition fneg (x : float) : float :=
  match x with
  | FFin q => if Qc_eqb q 0 then FNegZero else FFin (- q)
  | FNegZero => FFin 0
  | FInf s => FInf (negb s)
  | FNaN => FNaN
  end.

Definition fsub (x y : float) : float := fadd x (fneg y).

Definition fmul (x y : float) : float :=
  match x, y with
  | FNaN, _ | _, FNaN => FNaN
  | FInf s, FInf t => FInf (xorb s t)
  | FInf s, z | z, FInf s =>
      if is_zero z then FNaN else FInf (xorb s (fsign z))
  | _, _ =>
      let q := qval x * qval y in
      if Qc_eqb q 0 then fzero (xorb (fsign x) (fsign y)) else FFin q
  end.

Definition fdiv (x y : float) : float :=
  match x, y with
  | FNaN, _ | _, FNaN => FNaN
  | FInf _, FInf _ => FNaN
  | FInf s, _ => FInf (xorb s (fsign y))
  | _, FInf t => fzero (xorb (fsign x) t)
  | _, _ =>
      let s := xorb (fsign x) (fsign y) in
      if is_zero y then
        if is_zero x then FNaN else FInf s
      else
        if is_zero x then fzero s else FFin (qval x / qval y)
  end.

(** [x ** 2] *)
Definition fpow2 (x : float) : float := fmul x x.

(** Comparison; [None] when an operand is not-a-number. *)
Definition fcompare (x y : float) : option comparison :=
  match x, y with
  | FNaN, _ | _, FNaN => None
  | FInf s, FInf t =>
      Some (if Bool.eqb s t then Eq else if s then Lt else Gt)
  | FInf s, _ => Some (if s then Lt else Gt)
  | _, FInf t => Some (if t then Gt else Lt)
  | _, _ => Some (qval x ?= qval y)
  end.

(** [x == y] *)
Definition feqb (x y : float) : bool :=
  match fcompare x y with Some Eq => true | _ => false end.

(** [x >= y] *)
Definition fgeb (x y : float) : bool :=
  match fcompare x y with Some Eq | Some Gt => true | _ => false end.

(** A number in the everyday sense: finite, and not negative. *)
Definition nonneg (x : float) : Prop :=
  exists q, x = FFin q /\ 0 <= q.

End Float.
Export Float.

(** ** Exceptions *)

Inductive exn : Type :=
| IndexError
| ValueError.

Inductive result (A : Type) : Type :=
| Ok (a : A)
| Raise (e : exn).
Arguments Ok {A} a.
Arguments Raise {A} e.

Definition bind {A B : Type} (m : result A) (f : A -> result B) : result B :=
  match m with
  | Ok a => f a
  | Raise e => Raise e
  end.

Notation "x <- m ;; k" := (bind m (fun x => k))
  (at level 61, m at next level, right associativity).
Notation "' pat <- m ;; k" := (bind m (fun x => match x with pat => k end))
  (at level 61, pat pattern, m at next level, right associativity).

(** [for _ in range(n): body], the loop state threaded through. *)
Fixpoint for_range {S : Type} (n : nat) (body : S -> result S) (st : S)
  : result S :=
  match n with
  | O => Ok st
  | Datatypes.S n' => st' <- body st ;; for_range n' body st'
  end.

(** [for x in xs: out.append(f x)] *)
Fixpoint for_each {A B : Type} (f : A -> result B) (xs : list A)
  : result (list B) :=
  match xs with
  | [] => Ok []
  | x :: xs' => y <- f x ;; ys <- for_each f xs' ;; Ok (y :: ys)
  end.

(** ** Two-dimensional arrays *)

Module NDArray.

(** A NumPy array of dimension two: its shape and its rows. *)
Record ndarray : Type := mk_ndarray {
  shape0 : nat;
  shape1 : nat;
  rows : list (list float)
}.

(** Every array NumPy builds is rectangular. *)
Definition well_shaped (m : ndarray) : Prop :=
  length (rows m) = shape0 m /\
  Forall (fun r => length r = shape1 m) (rows m).

(** Sum of a vector, [v.sum()]. *)
Definition vec_sum (v : list float) : float :=
  fold_left fadd v (FFin 0).

(** [v ** 2] *)
Definition vec_pow2 (v : list float) : list float := map fpow2 v.

(** Entry-wise sum of two rows. *)
Fixpoint vec_add (u v : list float) : list float :=
  match u, v with
  | x :: u', y :: v' => fadd x y :: vec_add u' v'
  | _, _ => []
  end.

(** [m.sum()]: the sum of all the entries. *)
Definition nd_sum (m : ndarray) : float :=
  vec_sum (concat (rows m)).

(** [m ** 2] *)
Definition nd_pow2 (m : ndarray) : ndarray :=
  mk_ndarray (shape0 m) (shape1 m) (map vec_pow2 (rows m)).

(** [m.sum(axis=0)]: the sums of the columns. *)
Definition nd_sum_axis0 (m : ndarray) : list float :=
  fold_left vec_add (rows m) (repeat (FFin 0) (shape1 m)).

(** [.sum()] on a scalar (the second [.sum()] of [m.sum().sum()]). *)
Definition scalar_sum (x : float) : float := x.

(** [np.zeros((r, c))] *)
Definition np_zeros (r : Z) (c : nat) : result ndarray :=
  if (r <? 0)%Z then Raise ValueError
  else Ok (mk_ndarray (Z.to_nat r) c
             (repeat (repeat (FFin 0) c) (Z.to_nat r))).

Fixpoint list_set {A : Type} (l : list A) (i : nat) (v : A) : list A :=
  match l, i with
  | [], _ => []
  | _ :: l', O => v :: l'
  | x :: l', S i' => x :: list_set l' i' v
  end.

(** [m[i, j] = v] for indices that are not negative. *)
Definition nd_setitem (m : ndarray) (i j : nat) (v : float)
  : result ndarray :=
  if (i <? shape0 m)%nat && (j <? shape1 m)%nat then
    Ok (mk_ndarray (shape0 m) (shape1 m)
          (list_set (rows m) i (list_set (nth i (rows m) []) j v)))
  else Raise IndexError.

(** [m[i, j]] read as a value of the model (none out of range). *)
Definition nd_get (m : ndarray) (i j : nat) : option float :=
  match nth_error (rows m) i with
  | Some r => nth_error r j
  | None => None
  end.

End NDArray.
Export NDArray.

(** ** The kappa engine *)

(** The value bound to [N] at line 21. *)
Definition total_ratings (data_matrix : ndarray) : float :=
  scalar_sum (nd_sum data_matrix).

(** The value bound to [P] at line 28. *)
Definition observed_agreement (data_matrix : ndarray) : float :=
  let n := shape0 data_matrix in
  let N := total_ratings data_matrix in
  fdiv (scalar_sum (nd_sum (nd_pow2 data_matrix)))
       (fmul N (of_Z (Z.of_nat n - 1))).

(** The value bound to [Pe] at line 33. *)
Definition expected_agreement (data_matrix : ndarray) : float :=
  let N := total_ratings data_matrix in
  let col_sums := nd_sum_axis0 data_matrix in
  fdiv (vec_sum (vec_pow2 col_sums)) (fpow2 N).

Definition calculate_fleiss_kappa (data_matrix : ndarray) : float :=
  if (shape0 data_matrix =? 0)%nat || (shape1 data_matrix =? 0)%nat then FNaN
  else
    let N := total_ratings data_matrix in
    if feqb N (of_Z 0) then FNaN
    else
      let P := observed_agreement data_matrix in
      let Pe := expected_agreement data_matrix in
      if feqb Pe (of_Z 1) then FNaN
      else fdiv (fsub P Pe) (fsub (of_Z 1) Pe).

(** ** The interpreter *)

Definition dec (num : Z) (den : positive) : float :=
  FFin (Q2Qc (Qmake num den)).

(** The literals [0.81], [0.61], [0.41], [0.21] and [0.01] of the script
    are [float64] numbers: the binary64 values nearest to the decimals.
    The first and the last lie just above their decimal, the other three
    just below. *)
Definition f64_0_81 : Qc := Q2Qc (1823957849085051 # 2251799813685248).
Definition f64_0_61 : Qc := Q2Qc (5494391545392005 # 9007199254740992).
Definition f64_0_41 : Qc := Q2Qc (7385903388887613 # 18014398509481984).
Definition f64_0_21 : Qc := Q2Qc (7566047373982433 # 36028797018963968).
Definition f64_0_01 : Qc := Q2Qc (5764607523034235 # 576460752303423488).

Definition interpret_fleiss_kappa (kappa : float) : string :=
  if is_nan kappa then "No data"
  else if fgeb kappa (FFin f64_0_81) then "Almost perfect agreement"
  else if fgeb kappa (FFin f64_0_61) then "Substantial agreement"
  else if fgeb kappa (FFin f64_0_41) then "Moderate agreement"
  else if fgeb kappa (FFin f64_0_21) then "Fair agreement"
  else if fgeb kappa (FFin f64_0_01) then "Slight agreement"
  else "Poor agreement".

(** ** The per-question analysis *)

(** A row of the frame built by [prepare_data_for_fleiss_kappa]. *)
Record QuestionSummary : Type := mk_summary {
  qs_Question : string;
  Category_A : Z;
  Category_B : Z;
  Category_C : Z;
  Total_Responses : Z
}.

(** A row of the frame built by [analyze_agreement_by_question]. *)
Record KappaResult : Type := mk_kappa_result {
  kr_Question : string;
  Fleiss_Kappa : float;
  N_Responses : Z;
  Answer_A_Count : Z;
  Answer_B_Count : Z;
  Answer_C_Count : Z;
  Agreement_Level : string
}.

(** One pass of a fill loop: [data_matrix[current_row, col] = 1;
    current_row += 1]. *)
Definition fill_step (col : nat) (st : ndarray * nat)
  : result (ndarray * nat) :=
  let '(data_matrix, current_row) := st in
  data_matrix' <- nd_setitem data_matrix current_row col (of_Z 1) ;;
  Ok (data_matrix', S current_row).

(** Lines 115 to 133: the matrix of one question. *)
Definition build_data_matrix (total_responses a_count b_count c_count : Z)
  : result ndarray :=
  data_matrix <- np_zeros total_responses 3 ;;
  st <- for_range (Z.to_nat a_count) (fill_step 0) (data_matrix, O) ;;
  st <- for_range (Z.to_nat b_count) (fill_step 1) st ;;
  st <- for_range (Z.to_nat c_count) (fill_step 2) st ;;
  Ok (fst st).

(** The body of the loop of [analyze_agreement_by_question]. *)
Definition analyze_row (row : QuestionSummary) : result KappaResult :=
  let question := qs_Question row in
  let total_responses := Total_Responses row in
  let a_count := Category_A row in
  let b_count := Category_B row in
  let c_count := Category_C row in
  data_matrix <- build_data_matrix total_responses a_count b_count c_count ;;
  let kappa := calculate_fleiss_kappa data_matrix in
  Ok (mk_kappa_result question kappa total_responses a_count b_count c_count
        (interpret_fleiss_kappa kappa)).

Definition analyze_agreement_by_question (fleiss_df : list QuestionSummary)
  : result (list KappaResult) :=
  for_each analyze_row fleiss_df.

(** ** The aggregator *)

(** A row of the input table. *)
Record ResponseRecord : Type := mk_record {
  Question : string;
  Categorical_Answers : string;
  Total : Z
}.

(** [s.unique()]: the distinct values, in order of first appearance. *)
Fixpoint unique (l : list string) : list string :=
  match l with
  | [] => []
  | x :: l' => x :: filter (fun y => negb (String.eqb y x)) (unique l')
  end.

(** [s.iloc[0]] *)
Definition iloc0 {A : Type} (s : list A) : result A :=
  match s with
  | [] => Raise IndexError
  | x :: _ => Ok x
  end.

(** [df[df[col] == v]] for the two text columns. *)
Definition where_Question (df : list ResponseRecord) (v : string) :=
  filter (fun r => String.eqb (Question r) v) df.

Definition where_Category (df : list ResponseRecord) (v : string) :=
  filter (fun r => String.eqb (Categorical_Answers r) v) df.

(** Lines 79 to 81: the count of one category. *)
Definition category_count (question_data : list ResponseRecord)
  (label : string) : result Z :=
  if (0 <? length (where_Category question_data label))%nat
  then iloc0 (map Total (where_Category question_data label))
  else Ok 0%Z.

(** The totals of the table are [np.int64] numbers, and so are the
    counts: their sum wraps around, with a warning only. *)
Definition int64_wrap (z : Z) : Z :=
  ((z + 2 ^ 63) mod 2 ^ 64 - 2 ^ 63)%Z.

Definition int64_add (x y : Z) : Z := int64_wrap (x + y).

Definition summarize (df : list ResponseRecord) (question : string)
  : result QuestionSummary :=
  let question_data := where_Question df question in
  a_count <- category_count question_data "A" ;;
  b_count <- category_count question_data "B" ;;
  c_count <- category_count question_data "C" ;;
  Ok (mk_summary question a_count b_count c_count
        (int64_add (int64_add a_count b_count) c_count)).

Definition prepare_data_for_fleiss_kappa (df : list ResponseRecord)
  : result (list QuestionSummary) :=
  for_each (summarize df) (unique (map Question df)).

(** * The quantities of the specification

    Written from the words of the specification, over exact rationals,
    to be compared with what the code computes. *)

Module Spec.

(** The entries of a matrix of finite numbers, as rationals. *)
Definition entries (M : ndarray) : list (list Qc) :=
  map (map qval) (rows M).

Definition Qc_sum (l : list Qc) : Qc := fold_right Qcplus 0 l.

Definition sq (x : Qc) : Qc := x * x.

(** [N]: the sum of all the entries. *)
Definition N (M : ndarray) : Qc :=
  Qc_sum (map Qc_sum (entries M)).

(** The sum over all the entries of the entry squared. *)
Definition sum_squares (M : ndarray) : Qc :=
  Qc_sum (map (fun r => Qc_sum (map sq r)) (entries M)).

(** [colSum_j]: the sum over the rows of the entry in column [j]. *)
Definition col_sum (M : ndarray) (j : nat) : Qc :=
  Qc_sum (map (fun r => nth j r 0) (entries M)).

Definition col_sums (M : ndarray) : list Qc :=
  map (col_sum M) (seq 0 (shape1 M)).

(** The number of rows, as a rational. *)
Definition n (M : ndarray) : Qc :=
  Q2Qc (inject_Z (Z.of_nat (length (rows M)))).

Definition P (M : ndarray) : Qc :=
  sum_squares M / (N M * (n M - 1)).

Definition Pe (M : ndarray) : Qc :=
  Qc_sum (map sq (col_sums M)) / (N M * N M).

(** [vec_add] on rationals. *)
Fixpoint qvec_add (u v : list Qc) : list Qc :=
  match u, v with
  | x :: u', y :: v' => (x + y) :: qvec_add u' v'
  | _, _ => []
  end.

(** The data model's invariant of a question summary. *)
Definition summary_ok (s : QuestionSummary) : Prop :=
  (0 <= Category_A s)%Z /\ (0 <= Category_B s)%Z /\ (0 <= Category_C s)%Z /\
  Total_Responses s = (Category_A s + Category_B s + Category_C s)%Z.

(** The column holding the 1 in row [i] of the matrix of counts
    [a], [b], [c]: the A block, then the B block, then the C block. *)
Definition block_column (a b : nat) (i : nat) : nat :=
  if (i <? a)%nat then 0%nat
  else if (i <? a + b)%nat then 1%nat
  else 2%nat.

(** The position at which a question first appears. *)
Fixpoint first_index (l : list string) (q : string) : nat :=
  match l with
  | [] => O
  | x :: l' => if String.eqb x q then O else S (first_index l' q)
  end.

(** A row of the table answers question [q] with category [label]. *)
Definition keyed (q label : string) (r : ResponseRecord) : Prop :=
  Question r = q /\ Categorical_Answers r = label.

(** The [Total] of the first row of the table that answers question
    [q] with category [label], and 0 when there is none. *)
Definition first_total (df : list ResponseRecord) (q label : string) : Z :=
  match
    find (fun r => String.eqb (Question r) q
                   && String.eqb (Categorical_Answers r) label) df
  with
  | Some r => Total r
  | None => 0%Z
  end.

(** The summary of question [q]. *)
Definition summary_of (df : list ResponseRecord) (q : string)
  : QuestionSummary :=
  mk_summary q (first_total df q "A") (first_total df q "B")
    (first_total df q "C")
    (int64_add (int64_add (first_total df q "A") (first_total df q "B"))
       (first_total df q "C")).

(** The thresholds of the table, in hundredths. *)
Definition hundredths (z : Z) : Qc := Q2Qc (z # 100).

(** Row [j] of the identity: the row of a respondent who chose
    category [j]. *)
Definition one_hot (j : nat) : list float :=
  list_set (repeat (FFin 0) 3) j (of_Z 1).

(** The matrix the specification describes for counts [a], [b], [c]. *)
Definition rating_rows (a b c : nat) : list (list float) :=
  repeat (one_hot 0) a ++ repeat (one_hot 1) b ++ repeat (one_hot 2) c.

End Spec.

(** ** Sample inputs *)

(** A matrix of one row whose two entries are 1. *)
Definition one_row_two_ones : ndarray :=
  mk_ndarray 1 2 [[of_Z 1; of_Z 1]].

(** Two subjects, two categories, counts that are not one-hot. *)
Definition sample_counts : ndarray :=
  mk_ndarray 2 2 [[of_Z 2; of_Z 1]; [of_Z 1; of_Z 3]].


(** A table in which question Q1 has two rows for category A and none
    for category B, and question Q2 comes first. *)
Definition sample_table : list ResponseRecord :=
  [mk_record "Q2" "C" 3; mk_record "Q1" "A" 4; mk_record "Q2" "A" 5;
   mk_record "Q1" "A" 7; mk_record "Q1" "C" 1].


(** * The summary statistics of [main]

    Lines 198 to 228 of [main], from the loaded table on.  What the
    script prints is returned as a value; the formatting of the numbers
    is left out. *)

Module Report.

(** [x < y] *)
Definition fltb (x y : float) : bool :=
  match fcompare x y with Some Lt => true | _ => false end.

(** What stops [main]: a missing column, or an exception of the
    pipeline that nothing catches. *)
Inductive error : Type :=
| KeyError (column : string)
| Uncaught (e : exn).

Record Statistics : Type := mk_statistics {
  total_questions : nat;
  average_kappa : float;
  n_almost_perfect : nat;
  n_substantial : nat;
  n_moderate : nat;
  n_fair : nat;
  n_slight : nat;
  n_poor : nat
}.

(** [results['Fleiss_Kappa']].  [results] is [pd.DataFrame(records)]: a
    frame made from an empty list of records has no column at all. *)
Definition Fleiss_Kappa_column (results : list KappaResult)
  : error + list float :=
  match results with
  | [] => inl (KeyError "Fleiss_Kappa")
  | _ :: _ => inr (map Fleiss_Kappa results)
  end.

(** [s.mean()]: not-a-number values are skipped; the mean of nothing is
    not-a-number. *)
Definition series_mean (s : list float) : float :=
  let values := filter (fun x => negb (is_nan x)) s in
  fdiv (vec_sum values) (of_Z (Z.of_nat (length values))).

(** [len(results[mask])] for a mask computed from the kappa column. *)
Definition len_where (mask : float -> bool) (kappa : list float) : nat :=
  length (filter mask kappa).

(** Lines 221 to 228. *)
Definition summary_statistics (results : list KappaResult)
  : error + Statistics :=
  match Fleiss_Kappa_column results with
  | inl e => inl e
  | inr kappa =>
      inr (mk_statistics
             (length results)
             (series_mean kappa)
             (len_where (fun x => fgeb x (FFin f64_0_81)) kappa)
             (len_where (fun x => fgeb x (FFin f64_0_61) && fltb x (FFin f64_0_81))
                kappa)
             (len_where (fun x => fgeb x (FFin f64_0_41) && fltb x (FFin f64_0_61))
                kappa)
             (len_where (fun x => fgeb x (FFin f64_0_21) && fltb x (FFin f64_0_41))
                kappa)
             (len_where (fun x => fgeb x (FFin f64_0_01) && fltb x (FFin f64_0_21))
                kappa)
             (len_where (fun x => fltb x (FFin f64_0_01)) kappa))
  end.

(** [main] once [df] is loaded: aggregate, analyse, summarise. *)
Definition main_report (df : list ResponseRecord)
  : error + (list KappaResult * Statistics) :=
  match prepare_data_for_fleiss_kappa df with
  | Raise e => inl (Uncaught e)
  | Ok fleiss_df =>
      match analyze_agreement_by_question fleiss_df with
      | Raise e => inl (Uncaught e)
      | Ok results =>
          match summary_statistics results with
          | inl e => inl e
          | inr stats => inr (results, stats)
          end
      end
  end.

End Report.
Export Report.

(** * Quantities computed from the counts

    The kappa of a question computed from its three counts alone,
    without the matrix: [N] and the sum of the squared entries are both
    the number of responses, the column sums are the counts. *)

Module Counts.

Definition qz (z : Z) : Qc := Q2Qc (inject_Z z).

Definition counts_P (a b c : Z) : Qc :=
  let N := qz (a + b + c) in
  N / (N * (N - 1)).

Definition counts_Pe (a b c : Z) : Qc :=
  let N := qz (a + b + c) in
  (Spec.sq (qz a) + Spec.sq (qz b) + Spec.sq (qz c)) / (N * N).

Definition counts_kappa (a b c : Z) : float :=
  if (a + b + c =? 0)%Z then FNaN
  else if Qc_eqb (counts_Pe a b c) 1 then FNaN
  else FFin ((counts_P a b c - counts_Pe a b c) / (1 - counts_Pe a b c)).

(** All the responses, if any, are in one category. *)
Definition unanimous (a b c : Z) : Prop :=
  (a = 0 /\ b = 0)%Z \/ (a = 0 /\ c = 0)%Z \/ (b = 0 /\ c = 0)%Z.

Definition unanimousb (a b c : Z) : bool :=
  ((a =? 0) && (b =? 0) || (a =? 0) && (c =? 0) || (b =? 0) && (c =? 0))%Z.

(** The label of a question, read off its counts. *)
Definition counts_label (a b c : Z) : string :=
  if unanimousb a b c then "No data"
  else if (a + b + c =? 2)%Z then "Almost perfect agreement"
  else if ((a =? 1) && (b =? 1) && (c =? 1))%Z then "Fair agreement"
  else "Poor agreement".

(** The place of a label on the scale of agreement. *)
Definition label_rank (label : string) : option nat :=
  if String.eqb label "Poor agreement" then Some 0%nat
  else if String.eqb label "Slight agreement" then Some 1%nat
  else if String.eqb label "Fair agreement" then Some 2%nat
  else if String.eqb label "Moderate agreement" then Some 3%nat
  else if String.eqb label "Substantial agreement" then Some 4%nat
  else if String.eqb label "Almost perfect agreement" then Some 5%nat
  else None.

(** [x <= y] on floats that are numbers or infinities. *)
Definition fle (x y : float) : Prop :=
  match fcompare x y with
  | Some Lt | Some Eq => True
  | _ => False
  end.

(** How many of the five thresholds a kappa reaches. *)
Definition bands_reached (x : float) : nat :=
  length (filter (fun c => fgeb x (FFin c))
            [f64_0_01; f64_0_21; f64_0_41; f64_0_61; f64_0_81]).

Definition indicator (b : bool) : nat := if b then 1%nat else 0%nat.

(** The number of results that carry a label. *)
Definition count_label (label : string) (results : list KappaResult) : nat :=
  length (filter (fun r => String.eqb (Agreement_Level r) label) results).

(** One of the three labels the aggregator reads. *)
Definition abc_label (label : string) : bool :=
  String.eqb label "A" || String.eqb label "B" || String.eqb label "C".

(** What identifies a count in the table: the question and the label. *)
Definition key (r : ResponseRecord) : string * string :=
  (Question r, Categorical_Answers r).

End Counts.

(** ** More sample inputs *)

(** A question with two answers A and three answers C. *)
Definition sample_summary : QuestionSummary := mk_summary "Q1" 2 0 3 5.

(** A summary whose total is less than its counts. *)
Definition short_summary : QuestionSummary := mk_summary "Q1" 2 1 0 2.

(** A summary whose responses are all in category A. *)
Definition unanimous_summary : QuestionSummary := mk_summary "Q1" 4 0 0 4.

(** The results and the statistics of [sample_summary] alone. *)
Definition sample_results : list KappaResult :=
  match analyze_agreement_by_question [sample_summary] with
  | Ok results => results
  | Raise _ => []
  end.

Definition sample_statistics : Statistics :=
  match summary_statistics sample_results with
  | inr stats => stats
  | inl _ => mk_statistics 0 FNaN 0 0 0 0 0 0
  end.

(** A table with a row labelled "D". *)
Definition table_with_D : list ResponseRecord :=
  [mk_record "Q1" "D" 9; mk_record "Q2" "A" 1].

(** * Binary64 arithmetic

    The numbers of the script are [float64] numbers, and each operation
    on them returns the exact result rounded to the nearest binary64
    number, ties to the even significand; a result too large becomes an
    infinity, a result under half the smallest subnormal a signed zero.
    This module rounds the operations of [Float] that way and runs the
    kappa engine on them.  A value [FFin q] stands for a [float64]
    number when [q] is one ([representable]). *)

Module Binary64.

(** The number of bits of the significand. *)
Definition prec : Z := 53.

(** The exponent of the smallest subnormal, [2 ^ -1074]. *)
Definition emin : Z := (-1074)%Z.

(** The first power of two that is too large. *)
Definition huge : Z := (2 ^ 1024)%Z.

(** [2 ^ e <= a / b], for [a] and [b] positive. *)
Definition pow2_le (e a b : Z) : bool :=
  if (0 <=? e)%Z then (b * 2 ^ e <=? a)%Z else (b <=? a * 2 ^ (- e))%Z.

(** The integer part of the binary logarithm of [a / b]. *)
Definition ilog2 (a b : Z) : Z :=
  let d := (Z.log2 a - Z.log2 b)%Z in
  if pow2_le d a b then d else (d - 1)%Z.

(** The integer nearest to [a / b], the even one of the two when
    [a / b] lies half way. *)
Definition nearest_even (a b : Z) : Z :=
  let f := (a / b)%Z in
  match (2 * (a mod b) ?= b)%Z with
  | Lt => f
  | Gt => (f + 1)%Z
  | Eq => if Z.even f then f else (f + 1)%Z
  end.

(** [m * 2 ^ e] *)
Definition scale (m e : Z) : Qc :=
  if (0 <=? e)%Z then Q2Qc (inject_Z (m * 2 ^ e))
  else Q2Qc (Qmake m (Z.to_pos (2 ^ (- e)))).

(** The exponent of the last bit of the significand of [a / b]. *)
Definition last_bit (a b : Z) : Z :=
  Z.max (ilog2 a b - (prec - 1)) emin.

(** The significand of [a / b] rounded. *)
Definition significand (a b : Z) : Z :=
  let e := last_bit a b in
  if (0 <=? e)%Z then nearest_even a (b * 2 ^ e)
  else nearest_even (a * 2 ^ (- e)) b.

(** [a / b] rounded, for [a] and [b] positive. *)
Definition round_pos (a b : Z) : float :=
  let e := last_bit a b in
  let m := significand a b in
  if (0 <=? e)%Z && (huge <=? m * 2 ^ e)%Z then FInf false
  else FFin (scale m e).

(** A rational rounded to binary64. *)
Definition rnd (q : Qc) : float :=
  match q ?= 0 with
  | Eq => FFin 0
  | Gt => round_pos (Qnum q) (Zpos (Qden q))
  | Lt => fneg (round_pos (- Qnum q) (Zpos (Qden q)))
  end.

(** The result of an operation: a number is rounded, a signed zero, an
    infinity or not-a-number is kept. *)
Definition round (x : float) : float :=
  match x with
  | FFin q => rnd q
  | _ => x
  end.

(** The values that are [float64] numbers. *)
Definition representable (x : float) : Prop := round x = x.

(** [x + y], [x - y], [x * y] and [x / y] *)
Definition add (x y : float) : float := round (fadd x y).

Definition sub (x y : float) : float := round (fsub x y).

Definition mul (x y : float) : float := round (fmul x y).

Definition div (x y : float) : float := round (fdiv x y).

(** [x ** 2] *)
Definition pow2 (x : float) : float := mul x x.

(** [v.sum()]: the numbers are added from left to right, starting from
    0.  That is the order of NumPy for fewer than eight numbers; it adds
    longer vectors by blocks, which gives the same sum whenever no
    addition is rounded, as in the theorems on matrices of counts. *)
Definition vec_sum (v : list float) : float :=
  fold_left add v (FFin 0).

(** [v ** 2] *)
Definition vec_pow2 (v : list float) : list float := map pow2 v.

(** Entry-wise sum of two rows. *)
Fixpoint vec_add (u v : list float) : list float :=
  match u, v with
  | x :: u', y :: v' => add x y :: vec_add u' v'
  | _, _ => []
  end.

(** [m.sum()]: the sum of all the entries, row after row. *)
Definition nd_sum (m : ndarray) : float :=
  vec_sum (concat (rows m)).

(** [m ** 2] *)
Definition nd_pow2 (m : ndarray) : ndarray :=
  mk_ndarray (shape0 m) (shape1 m) (map vec_pow2 (rows m)).

(** [m.sum(axis=0)]: the rows are added to a row of zeros, one after
    the other. *)
Definition nd_sum_axis0 (m : ndarray) : list float :=
  fold_left vec_add (rows m) (repeat (FFin 0) (shape1 m)).

(** The value bound to [N] at line 21. *)
Definition total_ratings (data_matrix : ndarray) : float :=
  scalar_sum (nd_sum data_matrix).

(** The value bound to [P] at line 28. *)
Definition observed_agreement (data_matrix : ndarray) : float :=
  let n := shape0 data_matrix in
  let N := total_ratings data_matrix in
  div (scalar_sum (nd_sum (nd_pow2 data_matrix)))
      (mul N (of_Z (Z.of_nat n - 1))).

(** The value bound to [Pe] at line 33.  [N ** 2] is taken as the
    rounded square of [N]. *)
Definition expected_agreement (data_matrix : ndarray) : float :=
  let N := total_ratings data_matrix in
  let col_sums := nd_sum_axis0 data_matrix in
  div (vec_sum (vec_pow2 col_sums)) (pow2 N).

(** [calculate_fleiss_kappa] on an array of [float64], such as the
    arrays that [analyze_agreement_by_question] builds. *)
Definition calculate_fleiss_kappa (data_matrix : ndarray) : float :=
  if (shape0 data_matrix =? 0)%nat || (shape1 data_matrix =? 0)%nat then FNaN
  else
    let N := total_ratings data_matrix in
    if feqb N (of_Z 0) then FNaN
    else
      let P := observed_agreement data_matrix in
      let Pe := expected_agreement data_matrix in
      if feqb Pe (of_Z 1) then FNaN
      else div (sub P Pe) (sub (of_Z 1) Pe).

(** The body of the loop of [analyze_agreement_by_question]. *)
Definition analyze_row (row : QuestionSummary) : result KappaResult :=
  let question := qs_Question row in
  let total_responses := Total_Responses row in
  let a_count := Category_A row in
  let b_count := Category_B row in
  let c_count := Category_C row in
  data_matrix <- build_data_matrix total_responses a_count b_count c_count ;;
  let kappa := calculate_fleiss_kappa data_matrix in
  Ok (mk_kappa_result question kappa total_responses a_count b_count c_count
        (interpret_fleiss_kappa kappa)).

(** The kappa of a matrix of [n] rows computed from three whole
    numbers: the sum [T] of its entries, the sum [SS] of their squares
    and the sum [S] of the squared column sums. *)
Definition kappa_of_sums (n T SS S : Z) : float :=
  if (T =? 0)%Z then FNaN
  else
    let P := div (of_Z SS) (of_Z (T * (n - 1))) in
    let Pe := div (of_Z S) (of_Z (T * T)) in
    if feqb Pe (of_Z 1) then FNaN
    else div (sub P Pe) (sub (of_Z 1) Pe).

(** The kappa of a question computed from its three counts. *)
Definition counts_kappa (a b c : Z) : float :=
  let N := (a + b + c)%Z in
  kappa_of_sums N N N (a * a + b * b + c * c).

End Binary64.

(** ** The machine's [float64]

    Rocq's primitive floats are the binary64 numbers of the processor.
    [to_exact] reads one as a value of the model. *)

Module Machine.

Definition to_exact (x : PrimFloat.float) : float :=
  match FloatOps.Prim2SF x with
  | SpecFloat.S754_zero s => fzero s
  | SpecFloat.S754_infinity s => FInf s
  | SpecFloat.S754_nan => FNaN
  | SpecFloat.S754_finite s m e =>
      FFin (Binary64.scale (if s then Z.neg m else Z.pos m) e)
  end.

(** The same value of the model. *)
Definition same (x y : float) : bool :=
  match x, y with
  | FFin a, FFin b => Qc_eqb a b
  | FNegZero, FNegZero => true
  | FInf s, FInf t => Bool.eqb s t
  | FNaN, FNaN => true
  | _, _ => false
  end.

(** The sum, the difference, the product and the quotient of [x] and
    [y] on the machine are those of [Binary64]. *)
Definition agree (x y : PrimFloat.float) : bool :=
  same (to_exact (PrimFloat.add x y))
       (Binary64.add (to_exact x) (to_exact y)) &&
  same (to_exact (PrimFloat.sub x y))
       (Binary64.sub (to_exact x) (to_exact y)) &&
  same (to_exact (PrimFloat.mul x y))
       (Binary64.mul (to_exact x) (to_exact y)) &&
  same (to_exact (PrimFloat.div x y))
       (Binary64.div (to_exact x) (to_exact y)).

Import PrimFloat.

(** Numbers to try the operations on: zeros, small counts, [0.1],
    [0.7], [-0.3], [1e-20], the neighbours of 1, [2 ** 53] and its
    neighbour, the smallest and the largest numbers, the infinities and
    not-a-number. *)
Definition samples : list PrimFloat.float :=
  [PrimFloat.zero; PrimFloat.neg_zero; PrimFloat.one; 0x1.8p1%float;
   0x1.999999999999ap-4%float; 0x1.6666666666666p-1%float;
   (-0x1.3333333333333p-2)%float; 0x1.79ca10c924223p-67%float;
   0x1.fffffffffffffp-1%float; 0x1.0000000000001p0%float;
   0x1p-53%float; 0x1p53%float; 0x1.0000000000001p53%float;
   0x1p-1074%float; 0x1.fffffffffffffp1023%float;
   PrimFloat.infinity; PrimFloat.neg_infinity; PrimFloat.nan].

End Machine.

(** ** Matrices of counts *)

(** A whole number that is not negative, as a [float64]. *)
Definition count (x : float) : Prop :=
  exists z : Z, (0 <= z)%Z /\ x = of_Z z.

(** Sums of whole numbers, to compare the sums of the engine with. *)
Module Tally.

(** The whole number a count stands for. *)
Definition whole (x : float) : Z := Qnum (qval x).

Definition zsum (l : list Z) : Z := fold_right Z.add 0%Z l.

Definition zsq (z : Z) : Z := (z * z)%Z.

Fixpoint zvec_add (u v : list Z) : list Z :=
  match u, v with
  | x :: u', y :: v' => (x + y)%Z :: zvec_add u' v'
  | _, _ => []
  end.

(** The sum of all the entries. *)
Definition total (zr : list (list Z)) : Z := zsum (concat zr).

(** The sum of the squares of all the entries. *)
Definition squares (zr : list (list Z)) : Z := zsum (map zsq (concat zr)).

(** The column sums of a matrix of [k] columns. *)
Definition columns (k : nat) (zr : list (list Z)) : list Z :=
  fold_left zvec_add zr (repeat 0%Z k).

(** The largest whole number up to which every whole number is a
    [float64]. *)
Definition exact_max : Z := (2 ^ 53)%Z.

(** The [float64] just under 1, and the distance between the two. *)
Definition below_one : Qc := Binary64.scale (2 ^ 53 - 1) (-53).

Definition half_ulp : Qc := Binary64.scale 1 (-53).

End Tally.

(** ** Inputs on which rounding shows *)

(** The [float64] nearest to [1e-20]. *)
Definition f64_1e_20 : Qc := Binary64.scale 6646139978924579 (-119).

(** [np.array([[1, 1e-20], [1, 0]])] *)
Definition tiny_entry : ndarray :=
  mk_ndarray 2 2 [[of_Z 1; FFin f64_1e_20]; [of_Z 1; FFin 0]].

(** [np.array([[0, 1], [1, 0], [2 ** 53, 0]], dtype=float)] and the same
    with its last two rows exchanged. *)
Definition large_count_last : ndarray :=
  mk_ndarray 3 2
    [[of_Z 0; of_Z 1]; [of_Z 1; of_Z 0]; [of_Z (2 ^ 53); of_Z 0]].

Definition large_count_middle : ndarray :=
  mk_ndarray 3 2
    [[of_Z 0; of_Z 1]; [of_Z (2 ^ 53); of_Z 0]; [of_Z 1; of_Z 0]].

(** * Facts about the arithmetic *)

Section FloatFacts.

Lemma Qc_eqb_eq (x y : Qc) : Qc_eqb x y = true <-> x = y.
Proof.
  unfold Qc_eqb. rewrite Qceq_alt.
  destruct (x ?= y); split; intro H; congruence.
Qed.

Lemma Qc_eqb_neq (x y : Qc) : Qc_eqb x y = false <-> x <> y.
Proof.
  rewrite <- Qc_eqb_eq. destruct (Qc_eqb x y); split; congruence.
Qed.

Lemma Qc_ltb_lt (x y : Qc) : Qc_ltb x y = true <-> x < y.
Proof.
  unfold Qc_ltb. rewrite Qclt_alt.
  destruct (x ?= y); split; intro H; congruence.
Qed.

Lemma Qc_ltb_ge (x y : Qc) : Qc_ltb x y = false <-> y <= x.
Proof.
  split; intro H.
  - apply Qcnot_lt_le. intro L. apply Qc_ltb_lt in L. congruence.
  - destruct (Qc_ltb x y) eqn:E; [|reflexivity].
    apply Qc_ltb_lt in E. exfalso. exact (Qcle_not_lt _ _ H E).
Qed.

Lemma fadd_of_Z (x y : Z) : fadd (of_Z x) (of_Z y) = of_Z (x + y).
Proof.
  unfold of_Z, fadd, Qcplus. f_equal. apply Q2Qc_eq_iff.
  cbn [this Q2Qc]. rewrite !Qred_correct, inject_Z_plus. reflexivity.
Qed.

Lemma fadd_0_l (x : Qc) : fadd (FFin 0) (FFin x) = FFin x.
Proof. simpl. now rewrite Qcplus_0_l. Qed.

(** On numbers that are not negative the operations are the exact ones. *)

Lemma fmul_fin (a b : Qc) :
  0 <= a -> 0 <= b -> fmul (FFin a) (FFin b) = FFin (a * b).
Proof.
  intros Ha Hb. unfold fmul, qval, fsign.
  apply Qc_ltb_ge in Ha, Hb. rewrite Ha, Hb. simpl.
  destruct (Qc_eqb (a * b) 0) eqn:E; [|reflexivity].
  apply Qc_eqb_eq in E. now rewrite E.
Qed.

Lemma fsub_fin (a b : Qc) : fsub (FFin a) (FFin b) = FFin (a - b).
Proof.
  unfold fsub, fneg. destruct (Qc_eqb b 0) eqn:E; simpl.
  - apply Qc_eqb_eq in E. subst b. f_equal. ring.
  - reflexivity.
Qed.

Lemma Qcdiv_0_l (b : Qc) : 0 / b = 0.
Proof. unfold Qcdiv. apply Qcmult_0_l. Qed.

Lemma fdiv_fin (a b : Qc) :
  b <> 0 -> (a = 0 -> 0 < b) -> fdiv (FFin a) (FFin b) = FFin (a / b).
Proof.
  intros Hb Hs. unfold fdiv, is_zero, qval, fsign.
  apply Qc_eqb_neq in Hb. rewrite Hb.
  destruct (Qc_eqb a 0) eqn:E; [|reflexivity].
  apply Qc_eqb_eq in E. subst a. rewrite Qcdiv_0_l.
  specialize (Hs eq_refl). apply Qclt_le_weak, Qc_ltb_ge in Hs.
  rewrite Hs. reflexivity.
Qed.

Lemma feqb_fin (a b : Qc) : feqb (FFin a) (FFin b) = Qc_eqb a b.
Proof. reflexivity. Qed.

Lemma feqb_of_Z_1 (x : float) : feqb x (of_Z 1) = true <-> x = of_Z 1.
Proof.
  destruct x as [a| |s|]; unfold feqb; simpl.
  - fold (Qc_eqb a (Q2Qc (inject_Z 1))). rewrite Qc_eqb_eq.
    split; [intros ->; reflexivity | intros [= ->]; reflexivity].
  - split; discriminate.
  - destruct s; split; discriminate.
  - split; discriminate.
Qed.

End FloatFacts.

(** * The kappa engine on matrices of numbers that are not negative *)

Section Engine.

Import Spec.

Lemma Qc_sum_nonneg (l : list Qc) :
  Forall (fun x => 0 <= x) l -> 0 <= Qc_sum l.
Proof.
  induction 1 as [|x l Hx _ IH]; simpl.
  - apply Qcle_refl.
  - replace 0 with (0 + 0) by ring. now apply Qcplus_le_compat.
Qed.

Lemma sq_nonneg (x : Qc) : 0 <= sq x.
Proof.
  unfold sq. destruct (Qclt_le_dec x 0) as [H|H].
  - replace (x * x) with ((- x) * (- x)) by ring.
    assert (0 <= - x).
    { replace 0 with (- 0) by ring. apply Qcopp_le_compat.
      now apply Qclt_le_weak. }
    replace 0 with (0 * - x) by ring. now apply Qcmult_le_compat_r.
  - replace 0 with (0 * x) by ring. now apply Qcmult_le_compat_r.
Qed.

Lemma Qcmult_nonneg (x y : Qc) : 0 <= x -> 0 <= y -> 0 <= x * y.
Proof.
  intros Hx Hy. replace 0 with (0 * y) by ring.
  now apply Qcmult_le_compat_r.
Qed.

Lemma Qcmult_pos (x y : Qc) : 0 < x -> 0 < y -> 0 < x * y.
Proof.
  intros Hx Hy. replace 0 with (0 * y) by ring.
  now apply Qcmult_lt_compat_r.
Qed.

(** The sum of the squares is at most the square of the sum. *)
Lemma sum_sq_le_sq_sum (l : list Qc) :
  Forall (fun x => 0 <= x) l ->
  Qc_sum (map sq l) <= sq (Qc_sum l).
Proof.
  induction 1 as [|x l Hx Hl IH]; simpl.
  - unfold sq. replace (0 * 0) with 0 by ring. apply Qcle_refl.
  - pose proof (Qc_sum_nonneg l Hl) as Hs.
    assert (E1 : sq (x + Qc_sum l)
                 = (sq x + sq (Qc_sum l)) + (x * Qc_sum l + x * Qc_sum l))
      by (unfold sq; ring).
    assert (E2 : sq x + Qc_sum (map sq l)
                 = (sq x + Qc_sum (map sq l)) + 0) by ring.
    rewrite E1, E2.
    apply Qcplus_le_compat.
    + apply Qcplus_le_compat; [apply Qcle_refl | exact IH].
    + replace 0 with (0 + 0) by ring.
      apply Qcplus_le_compat; now apply Qcmult_nonneg.
Qed.

Lemma fold_fadd_fin (l : list float) (acc : Qc) :
  Forall nonneg l ->
  fold_left fadd l (FFin acc) = FFin (acc + Qc_sum (map qval l)).
Proof.
  intros H. revert acc. induction H as [|x l [q [-> Hq]] _ IH]; intros acc.
  - simpl. f_equal. ring.
  - simpl. rewrite IH. f_equal. ring.
Qed.

Lemma vec_sum_fin (l : list float) :
  Forall nonneg l -> vec_sum l = FFin (Qc_sum (map qval l)).
Proof.
  intros H. unfold vec_sum. rewrite fold_fadd_fin by exact H.
  f_equal. ring.
Qed.

Lemma nonneg_qval (x : float) : nonneg x -> x = FFin (qval x) /\ 0 <= qval x.
Proof. intros [q [-> Hq]]. simpl. auto. Qed.

Lemma Qc_sum_app (l1 l2 : list Qc) :
  Qc_sum (l1 ++ l2) = Qc_sum l1 + Qc_sum l2.
Proof.
  induction l1 as [|x l1 IH]; simpl.
  - ring.
  - rewrite IH. ring.
Qed.

Lemma Qc_sum_concat (rs : list (list float)) :
  Qc_sum (map qval (concat rs)) = Qc_sum (map Qc_sum (map (map qval) rs)).
Proof.
  induction rs as [|r rs IH]; simpl.
  - reflexivity.
  - rewrite map_app, Qc_sum_app, IH. reflexivity.
Qed.

Lemma Forall_concat_nonneg (rs : list (list float)) :
  Forall (Forall nonneg) rs -> Forall nonneg (concat rs).
Proof.
  induction 1; simpl.
  - constructor.
  - apply Forall_app. split; assumption.
Qed.

Lemma nd_sum_fin (M : ndarray) :
  Forall (Forall nonneg) (rows M) -> nd_sum M = FFin (N M).
Proof.
  intros H. unfold nd_sum, N, entries.
  rewrite vec_sum_fin by now apply Forall_concat_nonneg.
  now rewrite Qc_sum_concat.
Qed.

Lemma fpow2_fin (x : float) :
  nonneg x -> fpow2 x = FFin (sq (qval x)).
Proof.
  intros [q [-> Hq]]. unfold fpow2. now rewrite fmul_fin.
Qed.

Lemma fpow2_nonneg (x : float) : nonneg x -> nonneg (fpow2 x).
Proof.
  intros H. rewrite (fpow2_fin x H). eexists. split; [reflexivity|].
  apply sq_nonneg.
Qed.

Lemma vec_pow2_nonneg (r : list float) :
  Forall nonneg r -> Forall nonneg (vec_pow2 r).
Proof.
  unfold vec_pow2. intros H. apply Forall_map.
  eapply Forall_impl; [|exact H]. apply fpow2_nonneg.
Qed.

Lemma qval_vec_pow2 (r : list float) :
  Forall nonneg r -> map qval (vec_pow2 r) = map sq (map qval r).
Proof.
  unfold vec_pow2. induction 1 as [|x r Hx _ IH]; simpl.
  - reflexivity.
  - rewrite IH, (fpow2_fin x Hx). reflexivity.
Qed.

Lemma nd_sum_pow2_fin (M : ndarray) :
  Forall (Forall nonneg) (rows M) ->
  nd_sum (nd_pow2 M) = FFin (sum_squares M).
Proof.
  intros H. rewrite nd_sum_fin.
  - f_equal. unfold N, sum_squares, entries, nd_pow2. simpl.
    induction H as [|r rs Hr _ IH]; simpl.
    + reflexivity.
    + rewrite IH, (qval_vec_pow2 r Hr). reflexivity.
  - simpl. apply Forall_map. eapply Forall_impl; [|exact H].
    apply vec_pow2_nonneg.
Qed.

(** Column sums. *)

Lemma vec_add_fin (acc : list Qc) (r : list float) :
  Forall nonneg r ->
  vec_add (map FFin acc) r = map FFin (qvec_add acc (map qval r)).
Proof.
  intros H. revert acc. induction H as [|x r [q [-> Hq]] _ IH]; intros acc.
  - destruct acc; reflexivity.
  - destruct acc as [|a acc]; simpl; [reflexivity|]. now rewrite IH.
Qed.

Lemma fold_vec_add_fin (rs : list (list float)) (acc : list Qc) :
  Forall (Forall nonneg) rs ->
  fold_left vec_add rs (map FFin acc)
  = map FFin (fold_left qvec_add (map (map qval) rs) acc).
Proof.
  intros H. revert acc. induction H as [|r rs Hr _ IH]; intros acc; simpl.
  - reflexivity.
  - rewrite vec_add_fin by exact Hr. apply IH.
Qed.

Lemma qvec_add_length (u v : list Qc) :
  length u = length v -> length (qvec_add u v) = length u.
Proof.
  revert v. induction u as [|x u IH]; intros [|y v]; simpl; try easy.
  intros [= E]. now rewrite IH.
Qed.

Lemma qvec_add_nth (u v : list Qc) (j : nat) :
  length u = length v ->
  nth j (qvec_add u v) 0 = nth j u 0 + nth j v 0.
Proof.
  revert v j. induction u as [|x u IH]; intros [|y v] j; simpl; try easy.
  - intros _. destruct j; ring.
  - intros [= E]. destruct j; [reflexivity|]. now apply IH.
Qed.

Lemma map_nth_seq (l : list Qc) :
  map (fun j => nth j l 0) (seq 0 (length l)) = l.
Proof.
  induction l as [|x l IH]; simpl.
  - reflexivity.
  - f_equal. rewrite <- seq_shift, map_map. exact IH.
Qed.

Lemma fold_qvec_add (qrs : list (list Qc)) (acc : list Qc) :
  Forall (fun r => length r = length acc) qrs ->
  fold_left qvec_add qrs acc
  = map (fun j => nth j acc 0 + Qc_sum (map (fun r => nth j r 0) qrs))
        (seq 0 (length acc)).
Proof.
  revert acc. induction qrs as [|r qrs IH]; intros acc H; simpl.
  - rewrite <- (map_nth_seq acc) at 1. apply map_ext. intros j. ring.
  - inversion H as [|? ? Hr Hrs]; subst.
    rewrite IH.
    + rewrite qvec_add_length by now symmetry.
      apply map_ext. intros j.
      rewrite qvec_add_nth by now symmetry. ring.
    + rewrite qvec_add_length by now symmetry. exact Hrs.
Qed.

Lemma repeat_zero_fin (k : nat) :
  repeat (FFin 0) k = map FFin (repeat 0 k).
Proof. induction k; simpl; congruence. Qed.

Lemma nth_repeat_zero (k j : nat) : nth j (repeat 0 k) 0 = 0.
Proof.
  revert j. induction k; intros [|j]; simpl; auto.
Qed.

Lemma entries_length (M : ndarray) :
  well_shaped M ->
  Forall (fun r => length r = shape1 M) (entries M).
Proof.
  intros [_ H]. unfold entries. apply Forall_map.
  eapply Forall_impl; [|exact H]. intros r Hr. now rewrite length_map.
Qed.

Lemma nd_sum_axis0_fin (M : ndarray) :
  well_shaped M -> Forall (Forall nonneg) (rows M) ->
  nd_sum_axis0 M = map FFin (col_sums M).
Proof.
  intros Hw Hn. unfold nd_sum_axis0.
  rewrite repeat_zero_fin, fold_vec_add_fin by exact Hn.
  f_equal. fold (entries M). rewrite fold_qvec_add.
  - rewrite repeat_length. unfold col_sums, col_sum.
    apply map_ext. intros j. rewrite nth_repeat_zero. ring.
  - rewrite repeat_length. now apply entries_length.
Qed.

Lemma entries_nonneg (M : ndarray) :
  Forall (Forall nonneg) (rows M) ->
  Forall (Forall (fun x => 0 <= x)) (entries M).
Proof.
  intros H. unfold entries. apply Forall_map.
  eapply Forall_impl; [|exact H]. intros r Hr. apply Forall_map.
  eapply Forall_impl; [|exact Hr]. intros x Hx.
  now destruct (nonneg_qval x Hx).
Qed.

Lemma nth_nonneg (r : list Qc) (j : nat) :
  Forall (fun x => 0 <= x) r -> 0 <= nth j r 0.
Proof.
  intros H. revert j. induction H; intros [|j]; simpl; auto using Qcle_refl.
Qed.

Lemma col_sums_nonneg (M : ndarray) :
  Forall (Forall nonneg) (rows M) ->
  Forall (fun x => 0 <= x) (col_sums M).
Proof.
  intros H. apply entries_nonneg in H. unfold col_sums.
  apply Forall_map, Forall_forall. intros j _. unfold col_sum.
  apply Qc_sum_nonneg, Forall_map.
  eapply Forall_impl; [|exact H]. intros r Hr. now apply nth_nonneg.
Qed.

Lemma Qc_sum_map_plus (f g : nat -> Qc) (l : list nat) :
  Qc_sum (map (fun j => f j + g j) l)
  = Qc_sum (map f l) + Qc_sum (map g l).
Proof.
  induction l as [|x l IH]; simpl.
  - ring.
  - rewrite IH. ring.
Qed.

Lemma Qc_sum_map_zero (l : list nat) : Qc_sum (map (fun _ => 0) l) = 0.
Proof.
  induction l as [|x l IH]; simpl; [reflexivity|]. rewrite IH. ring.
Qed.

(** The column sums add up to the sum of all the entries. *)
Lemma col_sums_total (M : ndarray) :
  well_shaped M -> Qc_sum (col_sums M) = N M.
Proof.
  intros Hw. apply entries_length in Hw.
  unfold col_sums, col_sum, N.
  induction Hw as [|r qrs Hr _ IH]; simpl.
  - apply Qc_sum_map_zero.
  - rewrite Qc_sum_map_plus, IH. f_equal.
    rewrite <- Hr. now rewrite map_nth_seq.
Qed.

Lemma Pe_le_1 (M : ndarray) :
  well_shaped M -> Forall (Forall nonneg) (rows M) -> 0 < N M ->
  Pe M <= 1.
Proof.
  intros Hw Hn HN. unfold Pe.
  pose proof (sum_sq_le_sq_sum _ (col_sums_nonneg M Hn)) as H.
  rewrite (col_sums_total M Hw) in H. unfold sq at 2 in H.
  assert (HNN : 0 < N M * N M) by now apply Qcmult_pos.
  apply (Qcmult_lt_0_le_reg_r _ _ (N M * N M) HNN).
  rewrite Qcmult_1_l.
  replace (Qc_sum (map sq (col_sums M)) / (N M * N M) * (N M * N M))
    with (Qc_sum (map sq (col_sums M))); [exact H|].
  field. intro E. rewrite E in HNN. now apply Qclt_not_eq in HNN.
Qed.

Lemma Qc_of_Z_pred (z : Z) :
  Q2Qc (inject_Z (z - 1)) = Q2Qc (inject_Z z) - 1.
Proof.
  unfold Qcminus, Qcplus, Qcopp.
  apply Q2Qc_eq_iff. cbn [this Q2Qc]. rewrite !Qred_correct.
  unfold Z.sub. rewrite inject_Z_plus. reflexivity.
Qed.

Lemma Qc_of_Z_le (x y : Z) :
  (x <= y)%Z -> Q2Qc (inject_Z x) <= Q2Qc (inject_Z y).
Proof.
  intros H. unfold Qcle. cbn [this Q2Qc]. rewrite !Qred_correct.
  now rewrite <- Zle_Qle.
Qed.

Lemma Qc_of_Z_lt (x y : Z) :
  (x < y)%Z -> Q2Qc (inject_Z x) < Q2Qc (inject_Z y).
Proof.
  intros H. unfold Qclt. cbn [this Q2Qc]. rewrite !Qred_correct.
  now rewrite <- Zlt_Qlt.
Qed.

Lemma n_minus_1_pos (M : ndarray) :
  (1 < length (rows M))%nat -> 0 < n M - 1.
Proof.
  intros H. unfold n.
  rewrite <- Qc_of_Z_pred.
  change 0 with (Q2Qc (inject_Z 0)). apply Qc_of_Z_lt. lia.
Qed.

Lemma observed_agreement_fin (M : ndarray) :
  well_shaped M -> Forall (Forall nonneg) (rows M) ->
  (1 < shape0 M)%nat -> 0 < N M ->
  observed_agreement M = FFin (P M).
Proof.
  intros Hw Hn H1 HN. unfold observed_agreement, total_ratings, scalar_sum.
  rewrite nd_sum_pow2_fin, nd_sum_fin by exact Hn.
  destruct Hw as [Hlen _]. rewrite <- Hlen in *.
  pose proof (n_minus_1_pos M H1) as Hpos.
  unfold of_Z. rewrite Qc_of_Z_pred. fold (n M).
  rewrite fmul_fin by now apply Qclt_le_weak.
  pose proof (Qcmult_pos _ _ HN Hpos) as Hd.
  rewrite fdiv_fin; [reflexivity| |auto].
  intro E. rewrite E in Hd. now apply Qclt_not_eq in Hd.
Qed.

Lemma expected_agreement_fin (M : ndarray) :
  well_shaped M -> Forall (Forall nonneg) (rows M) -> 0 < N M ->
  expected_agreement M = FFin (Pe M).
Proof.
  intros Hw Hn HN. unfold expected_agreement, total_ratings, scalar_sum.
  rewrite nd_sum_axis0_fin, nd_sum_fin by assumption.
  assert (Hc : Forall nonneg (map FFin (col_sums M))).
  { apply Forall_map. eapply Forall_impl; [|apply (col_sums_nonneg M Hn)].
    intros q Hq. now exists q. }
  rewrite vec_sum_fin by now apply vec_pow2_nonneg.
  rewrite qval_vec_pow2 by exact Hc.
  replace (map qval (map FFin (col_sums M))) with (col_sums M)
    by (rewrite map_map; symmetry; apply map_id).
  unfold fpow2. rewrite fmul_fin by now apply Qclt_le_weak.
  pose proof (Qcmult_pos _ _ HN HN) as Hd.
  rewrite fdiv_fin; [reflexivity| |auto].
  intro E. rewrite E in Hd. now apply Qclt_not_eq in Hd.
Qed.

End Engine.

(** * Reordering the rows *)

Section RowOrder.

Lemma fold_left_permutation {A B : Type} (f : A -> B -> A) :
  (forall a x y, f (f a x) y = f (f a y) x) ->
  forall l l', Permutation l l' ->
  forall a, fold_left f l a = fold_left f l' a.
Proof.
  intros Hf l l' HP. induction HP as [|x l l' _ IH|x y l|l l' l'' _ IH1 _ IH2];
    intros a; simpl.
  - reflexivity.
  - apply IH.
  - now rewrite Hf.
  - now rewrite IH1.
Qed.

Lemma concat_permutation {A : Type} (l l' : list (list A)) :
  Permutation l l' -> Permutation (concat l) (concat l').
Proof.
  induction 1 as [|x l l' _ IH|x y l|l l' l'' _ IH1 _ IH2]; simpl.
  - constructor.
  - now apply Permutation_app_head.
  - rewrite !app_assoc. apply Permutation_app_tail, Permutation_app_comm.
  - now transitivity (concat l').
Qed.

End RowOrder.

(** * The guards *)

Section Guards.

(** C2.  On the single row [[1, 1]] the division by [N * (n - 1) = 0] is
    not guarded: [P] is infinite, [Pe] is 1/2, and the function returns
    plus infinity, not the not-a-number sentinel; the interpreter then
    labels it as almost perfect agreement. *)
Theorem calculate_fleiss_kappa_single_row_infinite :
  well_shaped one_row_two_ones /\
  Forall (Forall nonneg) (rows one_row_two_ones) /\
  shape0 one_row_two_ones = 1%nat /\
  observed_agreement one_row_two_ones = FInf false /\
  calculate_fleiss_kappa one_row_two_ones = FInf false /\
  interpret_fleiss_kappa (calculate_fleiss_kappa one_row_two_ones)
  = "Almost perfect agreement".
Proof.
  split; [split; [reflexivity | repeat constructor]|].
  split.
  { repeat constructor; eexists; (split; [reflexivity|]);
      vm_compute; discriminate. }
  repeat split; vm_compute; reflexivity.
Qed.

Lemma is_zero_feqb (x : float) : is_zero x = true -> feqb x (of_Z 0) = true.
Proof.
  destruct x as [q| |s|]; simpl; try discriminate.
  - intros H. apply Qc_eqb_eq in H. subst q. reflexivity.
  - reflexivity.
Qed.

Lemma calculate_fleiss_kappa_degenerate (M : ndarray) :
  shape0 M = 0%nat \/ shape1 M = 0%nat \/ is_zero (total_ratings M) = true ->
  calculate_fleiss_kappa M = FNaN.
Proof.
  unfold calculate_fleiss_kappa. intros [H|[H|H]].
  - now rewrite H.
  - rewrite H. now rewrite orb_true_r.
  - rewrite (is_zero_feqb _ H). now destruct (_ || _).
Qed.


End Guards.

(** * The matrix of one question *)

Section RatingMatrix.

Import Spec.

Lemma list_set_middle {A : Type} (pre rest : list A) (x v : A) :
  list_set (pre ++ x :: rest) (length pre) v = pre ++ v :: rest.
Proof.
  induction pre as [|p pre IH]; simpl; [reflexivity|]. now rewrite IH.
Qed.

Lemma fill_step_middle (n j : nat) (pre rest : list (list float)) :
  (j < 3)%nat ->
  n = (length pre + S (length rest))%nat ->
  fill_step j (mk_ndarray n 3 (pre ++ repeat (FFin 0) 3 :: rest), length pre)
  = Ok (mk_ndarray n 3 (pre ++ one_hot j :: rest), S (length pre)).
Proof.
  intros Hj Hn. unfold fill_step, nd_setitem. cbn [shape0 shape1 rows].
  assert (H1 : (length pre <? n)%nat = true) by (apply Nat.ltb_lt; lia).
  assert (H2 : (j <? 3)%nat = true) by now apply Nat.ltb_lt.
  rewrite H1, H2. cbn [andb bind].
  rewrite nth_middle, list_set_middle. reflexivity.
Qed.

Lemma fill_loop (k n j : nat) (pre rest : list (list float)) :
  (j < 3)%nat ->
  n = (length pre + k + length rest)%nat ->
  for_range k (fill_step j)
    (mk_ndarray n 3 (pre ++ repeat (repeat (FFin 0) 3) k ++ rest), length pre)
  = Ok (mk_ndarray n 3 (pre ++ repeat (one_hot j) k ++ rest),
        (length pre + k)%nat).
Proof.
  intros Hj. revert pre. induction k as [|k IH]; intros pre Hn.
  - simpl. now rewrite Nat.add_0_r.
  - cbn [for_range].
    change (repeat (repeat (FFin 0) 3) (S k))
      with (repeat (FFin 0) 3 :: repeat (repeat (FFin 0) 3) k).
    rewrite <- app_comm_cons.
    rewrite fill_step_middle; [|exact Hj|rewrite length_app, repeat_length; lia].
    cbn [bind].
    specialize (IH (pre ++ [one_hot j])).
    rewrite length_app in IH. cbn [length] in IH.
    rewrite <- !app_assoc in IH. cbn [app] in IH.
    replace (S (length pre)) with (length pre + 1)%nat by lia.
    rewrite IH by lia. f_equal. f_equal. lia.
Qed.

Lemma build_data_matrix_rows (a b c : Z) :
  (0 <= a)%Z -> (0 <= b)%Z -> (0 <= c)%Z ->
  build_data_matrix (a + b + c) a b c
  = Ok (mk_ndarray (Z.to_nat (a + b + c)) 3
          (rating_rows (Z.to_nat a) (Z.to_nat b) (Z.to_nat c))).
Proof.
  intros Ha Hb Hc. unfold build_data_matrix, np_zeros.
  assert (E : (a + b + c <? 0)%Z = false) by (apply Z.ltb_ge; lia).
  rewrite E. cbn [bind].
  replace (Z.to_nat (a + b + c))
    with (Z.to_nat a + Z.to_nat b + Z.to_nat c)%nat by lia.
  set (na := Z.to_nat a). set (nb := Z.to_nat b). set (nc := Z.to_nat c).
  rewrite <- (Nat.add_assoc na), !repeat_app.
  pose proof (fill_loop na (na + (nb + nc)) 0 []
                (repeat (repeat (FFin 0) 3) nb ++ repeat (repeat (FFin 0) 3) nc))
    as L0.
  cbn [app length] in L0. rewrite L0;
    [|lia|rewrite length_app, !repeat_length; lia].
  cbn [bind].
  pose proof (fill_loop nb (na + (nb + nc)) 1 (repeat (one_hot 0) na)
                (repeat (repeat (FFin 0) 3) nc)) as L1.
  rewrite repeat_length in L1. cbn [Nat.add] in L1 |- *. rewrite L1;
    [|lia|rewrite repeat_length; lia].
  cbn [bind].
  pose proof (fill_loop nc (na + (nb + nc)) 2
                (repeat (one_hot 0) na ++ repeat (one_hot 1) nb) []) as L2.
  rewrite length_app, !repeat_length, !app_nil_r, <- !app_assoc in L2.
  rewrite L2; [|lia|cbn [length]; lia].
  reflexivity.
Qed.

Lemma Forall_repeat_intro {A : Type} (Q : A -> Prop) (x : A) (k : nat) :
  Q x -> Forall Q (repeat x k).
Proof. intros H. induction k; simpl; constructor; assumption. Qed.

Lemma rating_rows_Forall (Q : list float -> Prop) (a b c : nat) :
  Q (one_hot 0) -> Q (one_hot 1) -> Q (one_hot 2) ->
  Forall Q (rating_rows a b c).
Proof.
  intros H0 H1 H2. unfold rating_rows.
  repeat (apply Forall_app; split); now apply Forall_repeat_intro.
Qed.

Lemma rating_rows_length (a b c : nat) :
  length (rating_rows a b c) = (a + b + c)%nat.
Proof.
  unfold rating_rows. rewrite !length_app, !repeat_length. lia.
Qed.

Lemma rating_rows_nth (a b c i : nat) :
  (i < a + b + c)%nat ->
  nth_error (rating_rows a b c) i = Some (one_hot (block_column a b i)).
Proof.
  intros Hi. unfold rating_rows, block_column.
  destruct (i <? a)%nat eqn:Ea.
  - apply Nat.ltb_lt in Ea.
    rewrite nth_error_app1 by now rewrite repeat_length.
    now apply nth_error_repeat.
  - apply Nat.ltb_ge in Ea.
    rewrite nth_error_app2 by now rewrite repeat_length.
    rewrite repeat_length.
    destruct (i <? a + b)%nat eqn:Eb.
    + apply Nat.ltb_lt in Eb.
      rewrite nth_error_app1 by (rewrite repeat_length; lia).
      apply nth_error_repeat. lia.
    + apply Nat.ltb_ge in Eb.
      rewrite nth_error_app2 by (rewrite repeat_length; lia).
      rewrite repeat_length. apply nth_error_repeat. lia.
Qed.

Lemma block_column_lt (a b i : nat) : (block_column a b i < 3)%nat.
Proof.
  unfold block_column.
  destruct (i <? a)%nat; [lia|]. destruct (i <? a + b)%nat; lia.
Qed.

Lemma one_hot_nth (col j : nat) :
  (col < 3)%nat -> (j < 3)%nat ->
  nth_error (one_hot col) j
  = Some (if (j =? col)%nat then of_Z 1 else of_Z 0).
Proof.
  intros Hc Hj.
  destruct col as [|[|[|col]]]; [| | |lia];
    (destruct j as [|[|[|j]]]; [| | |lia]); reflexivity.
Qed.

Ltac of_Z_list :=
  repeat match goal with
         | |- _ :: _ = _ :: _ => apply f_equal2
         | |- of_Z _ = of_Z _ => apply f_equal
         end;
  try reflexivity; try lia.

Lemma fold_vec_add_one_hot (j k : nat) (x y z : Z) :
  (j < 3)%nat ->
  fold_left vec_add (repeat (one_hot j) k) [of_Z x; of_Z y; of_Z z]
  = [of_Z (x + if (j =? 0)%nat then Z.of_nat k else 0);
     of_Z (y + if (j =? 1)%nat then Z.of_nat k else 0);
     of_Z (z + if (j =? 2)%nat then Z.of_nat k else 0)].
Proof.
  intros Hj. revert x y z.
  induction k as [|k IH]; intros x y z.
  - cbn [repeat fold_left]. destruct (j =? 0)%nat, (j =? 1)%nat, (j =? 2)%nat;
      now rewrite ?Z.add_0_r.
  - cbn [repeat fold_left].
    destruct j as [|[|[|j]]]; [| | |lia];
      cbn [one_hot list_set repeat vec_add];
      change (FFin 0) with (of_Z 0); rewrite !fadd_of_Z, IH;
      cbn [Nat.eqb]; of_Z_list.
Qed.

Lemma fold_fadd_one_hot (j k : nat) (x : Z) :
  (j < 3)%nat ->
  fold_left fadd (concat (repeat (one_hot j) k)) (of_Z x)
  = of_Z (x + Z.of_nat k).
Proof.
  intros Hj. revert x. induction k as [|k IH]; intros x.
  - cbn [repeat concat fold_left]. now rewrite Z.add_0_r.
  - cbn [repeat concat]. rewrite fold_left_app.
    assert (E : fold_left fadd (one_hot j) (of_Z x) = of_Z (x + 1)).
    { destruct j as [|[|[|j]]]; [| | |lia];
        cbn [one_hot list_set repeat fold_left];
        change (FFin 0) with (of_Z 0); rewrite !fadd_of_Z; f_equal; lia. }
    rewrite E, IH. f_equal. lia.
Qed.

Lemma one_hot_sum (j : nat) : (j < 3)%nat -> vec_sum (one_hot j) = of_Z 1.
Proof.
  intros Hj. unfold vec_sum.
  pose proof (fold_fadd_one_hot j 1 0 Hj) as H.
  cbn [repeat concat] in H. rewrite app_nil_r in H. exact H.
Qed.

(** C6.  For counts [a], [b], [c] that are not negative and
    [total = a + b + c], the matrix built has shape [(total, 3)]; row
    [i] holds a 1 in column 0 for the first [a] rows, in column 1 for
    the next [b] rows, in column 2 for the last [c] rows, and 0
    elsewhere; each row sums to 1, the column sums are [(a, b, c)] and
    the sum of all the entries is [total]. *)
Theorem build_data_matrix_one_hot (s : QuestionSummary) :
  summary_ok s ->
  exists M,
    build_data_matrix (Total_Responses s)
      (Category_A s) (Category_B s) (Category_C s) = Ok M /\
    well_shaped M /\
    Z.of_nat (shape0 M) = Total_Responses s /\
    shape1 M = 3%nat /\
    (forall i j, (i < shape0 M)%nat -> (j < 3)%nat ->
       nd_get M i j =
       Some (if (j =? block_column (Z.to_nat (Category_A s))
                        (Z.to_nat (Category_B s)) i)%nat
             then of_Z 1 else of_Z 0)) /\
    Forall (fun r => vec_sum r = of_Z 1) (rows M) /\
    nd_sum_axis0 M = [of_Z (Category_A s); of_Z (Category_B s);
                      of_Z (Category_C s)] /\
    total_ratings M = of_Z (Total_Responses s).
Proof.
  destruct s as [q a b c t]. unfold summary_ok. cbn.
  intros (Ha & Hb & Hc & ->).
  eexists. split; [now apply build_data_matrix_rows|].
  cbn [shape0 shape1 rows].
  set (na := Z.to_nat a). set (nb := Z.to_nat b). set (nc := Z.to_nat c).
  assert (Hlen : Z.to_nat (a + b + c) = (na + nb + nc)%nat) by lia.
  split; [|split; [lia|split; [reflexivity|split; [|split; [|split]]]]].
  - split; cbn [shape0 shape1 rows].
    + now rewrite rating_rows_length.
    + now apply rating_rows_Forall.
  - intros i j Hi Hj. unfold nd_get. cbn [rows].
    rewrite rating_rows_nth by lia.
    apply one_hot_nth; [apply block_column_lt | exact Hj].
  - apply rating_rows_Forall; apply one_hot_sum; lia.
  - unfold nd_sum_axis0, rating_rows. cbn [rows shape1 repeat].
    change (FFin 0) with (of_Z 0).
    rewrite !fold_left_app, !fold_vec_add_one_hot by lia.
    cbn [Nat.eqb]. of_Z_list.
  - unfold total_ratings, scalar_sum, nd_sum, vec_sum, rating_rows.
    cbn [rows]. change (FFin 0) with (of_Z 0).
    rewrite !concat_app, !fold_left_app, !fold_fadd_one_hot by lia.
    f_equal. lia.
Qed.

End RatingMatrix.

(** * The interpreter *)

Section Interpreter.

Import Spec.

Lemma fgeb_fin (q c : Qc) : fgeb (FFin q) (FFin c) = true <-> c <= q.
Proof.
  unfold fgeb, fcompare, qval. destruct (q ?= c) eqn:E.
  - apply Qceq_alt in E. subst. split; [intros _; apply Qcle_refl|reflexivity].
  - apply Qclt_alt in E. split; [discriminate|].
    intros H. exfalso. exact (Qcle_not_lt _ _ H E).
  - apply Qcgt_alt in E. split; [|reflexivity].
    intros _. now apply Qclt_le_weak.
Qed.

Lemma fgeb_fin_false (q c : Qc) : fgeb (FFin q) (FFin c) = false <-> q < c.
Proof.
  split; intros H.
  - apply Qcnot_le_lt. intros L. apply fgeb_fin in L. congruence.
  - destruct (fgeb (FFin q) (FFin c)) eqn:E; [|reflexivity].
    apply fgeb_fin in E. exfalso. exact (Qcle_not_lt _ _ E H).
Qed.

Ltac order_bands :=
  repeat match goal with H : _ /\ _ |- _ => destruct H end;
  unfold f64_0_81, f64_0_61, f64_0_41, f64_0_21, f64_0_01,
    hundredths, Qcle, Qclt in *;
  cbn [this Q2Qc] in *;
  repeat match goal with
         | H : context [Qred ?x] |- _ => rewrite (Qred_correct x) in H
         | |- context [Qred ?x] => rewrite (Qred_correct x)
         end;
  lra.

(** C5, as the specification states it, fails: the [float64] literal
    [0.61] lies below 61/100, so a kappa equal to it is in the band
    from 0.41 to 0.61 of the table and yet is labelled
    "Substantial agreement". *)
Lemma interpret_fleiss_kappa_decimal_bands_fail :
  ~ (forall q : Qc,
       hundredths 41 <= q /\ q < hundredths 61 ->
       interpret_fleiss_kappa (FFin q) = "Moderate agreement").
Proof.
  intros H. specialize (H f64_0_61).
  assert (E : interpret_fleiss_kappa (FFin f64_0_61)
              = "Substantial agreement") by (vm_compute; reflexivity).
  rewrite E in H. assert (F : "Substantial agreement" = "Moderate agreement").
  { apply H. split; order_bands. }
  discriminate F.
Qed.

(** C5, as the code has it.  Not-a-number is labelled "No data"; a
    finite kappa falls in exactly one of six bands, which are
    contiguous, do not overlap and cover the line.  The bounds of the
    bands are the [float64] values of the literals [0.81], [0.61],
    [0.41], [0.21], [0.01], which lie next to the decimals of the
    table: the first and the last above, the other three below. *)
Theorem interpret_fleiss_kappa_bands :
  interpret_fleiss_kappa FNaN = "No data" /\
  (hundredths 81 < f64_0_81 /\ f64_0_61 < hundredths 61 /\
   f64_0_41 < hundredths 41 /\ f64_0_21 < hundredths 21 /\
   hundredths 1 < f64_0_01) /\
  forall q : Qc,
    let label := interpret_fleiss_kappa (FFin q) in
    (f64_0_81 <= q <-> label = "Almost perfect agreement") /\
    (f64_0_61 <= q /\ q < f64_0_81 <-> label = "Substantial agreement") /\
    (f64_0_41 <= q /\ q < f64_0_61 <-> label = "Moderate agreement") /\
    (f64_0_21 <= q /\ q < f64_0_41 <-> label = "Fair agreement") /\
    (f64_0_01 <= q /\ q < f64_0_21 <-> label = "Slight agreement") /\
    (q < f64_0_01 <-> label = "Poor agreement") /\
    label <> "No data".
Proof.
  split; [reflexivity|]. split; [repeat split; order_bands|].
  intros q label. subst label.
  unfold interpret_fleiss_kappa. cbn [is_nan].
  destruct (fgeb (FFin q) (FFin f64_0_81)) eqn:E81;
    [apply fgeb_fin in E81 | apply fgeb_fin_false in E81;
  destruct (fgeb (FFin q) (FFin f64_0_61)) eqn:E61;
    [apply fgeb_fin in E61 | apply fgeb_fin_false in E61;
  destruct (fgeb (FFin q) (FFin f64_0_41)) eqn:E41;
    [apply fgeb_fin in E41 | apply fgeb_fin_false in E41;
  destruct (fgeb (FFin q) (FFin f64_0_21)) eqn:E21;
    [apply fgeb_fin in E21 | apply fgeb_fin_false in E21;
  destruct (fgeb (FFin q) (FFin f64_0_01)) eqn:E1;
    [apply fgeb_fin in E1 | apply fgeb_fin_false in E1]]]]];
  repeat split; try discriminate; try tauto;
    try (intros; exfalso; order_bands).
Qed.

End Interpreter.

(** * Degenerate questions *)

Section Degenerate.

Import Spec.

(** C3.  A matrix with no row, or no column, or whose entries sum to
    zero, has no kappa; hence a question with no response gets a matrix
    of shape [(0, 3)], an undefined kappa and the label "No data". *)
Theorem calculate_fleiss_kappa_no_data :
  (forall M : ndarray,
     shape0 M = 0%nat \/ shape1 M = 0%nat \/
     is_zero (total_ratings M) = true ->
     calculate_fleiss_kappa M = FNaN) /\
  (forall s : QuestionSummary,
     summary_ok s -> Total_Responses s = 0%Z ->
     exists M r,
       build_data_matrix (Total_Responses s)
         (Category_A s) (Category_B s) (Category_C s) = Ok M /\
       shape0 M = 0%nat /\ shape1 M = 3%nat /\
       analyze_row s = Ok r /\
       Fleiss_Kappa r = FNaN /\
       Agreement_Level r = "No data").
Proof.
  split; [exact calculate_fleiss_kappa_degenerate|].
  intros [q a b c t]. unfold summary_ok. cbn.
  intros (Ha & Hb & Hc & Ht) H0.
  assert (a = 0 /\ b = 0 /\ c = 0)%Z as (-> & -> & ->) by lia.
  subst t. unfold analyze_row. cbn.
  do 2 eexists. repeat split.
Qed.



(** C9.  A question with a single response has no kappa. *)
Theorem analyze_row_single_response (s : QuestionSummary) :
  summary_ok s -> Total_Responses s = 1%Z ->
  exists r, analyze_row s = Ok r /\ Fleiss_Kappa r = FNaN.
Proof.
  destruct s as [q a b c t]. unfold summary_ok. cbn.
  intros (Ha & Hb & Hc & Ht) H1. subst t.
  assert ((a = 1 /\ b = 0 /\ c = 0) \/ (a = 0 /\ b = 1 /\ c = 0) \/
          (a = 0 /\ b = 0 /\ c = 1))%Z
    as [(-> & -> & ->)|[(-> & -> & ->)|(-> & -> & ->)]] by lia;
    eexists; (split; [vm_compute; reflexivity|reflexivity]).
Qed.

End Degenerate.

(** * The aggregator *)

Section Aggregator.

Import Spec.

Lemma for_each_ok {A B : Type} (f : A -> result B) (g : A -> B)
  (xs : list A) :
  (forall x, In x xs -> f x = Ok (g x)) -> for_each f xs = Ok (map g xs).
Proof.
  induction xs as [|x xs IH]; intros H; simpl.
  - reflexivity.
  - rewrite (H x) by now left. cbn [bind].
    rewrite IH by (intros y Hy; apply H; now right). reflexivity.
Qed.

Lemma filter_filter {A : Type} (f g : A -> bool) (l : list A) :
  filter g (filter f l) = filter (fun x => f x && g x) l.
Proof.
  induction l as [|x l IH]; simpl; [reflexivity|].
  destruct (f x); simpl; [destruct (g x)|]; now rewrite IH.
Qed.

Lemma head_filter_find {A : Type} (f : A -> bool) (l : list A) :
  match filter f l with [] => None | x :: _ => Some x end = find f l.
Proof.
  induction l as [|x l IH]; simpl; [reflexivity|]. now destruct (f x).
Qed.

(** The count of a category never raises: it is the [Total] of the
    first row of that question and category, or 0. *)
Lemma category_count_first (df : list ResponseRecord) (q label : string) :
  category_count (where_Question df q) label = Ok (first_total df q label).
Proof.
  unfold category_count, where_Category, where_Question, first_total.
  rewrite filter_filter, <- head_filter_find.
  destruct (filter _ df); reflexivity.
Qed.

Lemma summarize_ok (df : list ResponseRecord) (q : string) :
  summarize df q = Ok (summary_of df q).
Proof.
  unfold summarize. rewrite !category_count_first. reflexivity.
Qed.

Lemma prepare_data_ok (df : list ResponseRecord) :
  prepare_data_for_fleiss_kappa df
  = Ok (map (summary_of df) (unique (map Question df))).
Proof.
  unfold prepare_data_for_fleiss_kappa. apply for_each_ok.
  intros q _. apply summarize_ok.
Qed.

Lemma unique_In (l : list string) (x : string) :
  In x (unique l) <-> In x l.
Proof.
  induction l as [|a l IH]; simpl; [tauto|].
  rewrite filter_In, IH. split.
  - intros [H|[H _]]; auto.
  - intros [H|H]; [now left|].
    destruct (String.eqb_spec x a) as [->|Hn]; [now left|].
    right. split; [exact H|reflexivity].
Qed.

Lemma unique_NoDup (l : list string) : NoDup (unique l).
Proof.
  induction l as [|a l IH]; simpl; constructor.
  - rewrite filter_In, String.eqb_refl. intros [_ H]. discriminate H.
  - now apply NoDup_filter.
Qed.

Lemma sorted_map_filter {A : Type} (f : A -> nat) (p : A -> bool)
  (u : list A) :
  StronglySorted lt (map f u) -> StronglySorted lt (map f (filter p u)).
Proof.
  induction u as [|x u IH]; simpl; intros H; [constructor|].
  inversion H as [|? ? Hs Hf]; subst.
  destruct (p x); [|now apply IH].
  simpl. constructor; [now apply IH|].
  rewrite Forall_map in *. rewrite Forall_forall in *.
  intros y Hy. apply Hf. apply filter_In in Hy. tauto.
Qed.

Lemma sorted_map_S (l : list nat) :
  StronglySorted lt l -> StronglySorted lt (map S l).
Proof.
  induction 1 as [|x l _ IH Hf]; simpl; constructor; [exact IH|].
  rewrite Forall_map. eapply Forall_impl; [|exact Hf].
  intros y Hy. cbn. lia.
Qed.

Lemma unique_first_index (l : list string) :
  StronglySorted lt (map (first_index l) (unique l)).
Proof.
  induction l as [|a l IH]; simpl; [constructor|].
  rewrite String.eqb_refl.
  assert (E : map (fun q => if String.eqb a q then O else S (first_index l q))
                (filter (fun y => negb (String.eqb y a)) (unique l))
              = map S (map (first_index l)
                  (filter (fun y => negb (String.eqb y a)) (unique l)))).
  { rewrite map_map. apply map_ext_in. intros y Hy.
    apply filter_In in Hy. destruct Hy as [_ Hy].
    rewrite String.eqb_sym. now destruct (String.eqb y a). }
  rewrite E. constructor.
  - apply sorted_map_S. now apply sorted_map_filter.
  - rewrite Forall_map, Forall_forall. intros y _. lia.
Qed.

Lemma first_total_absent (df : list ResponseRecord) (q label : string) :
  (forall r, In r df -> ~ keyed q label r) -> first_total df q label = 0%Z.
Proof.
  intros H. unfold first_total.
  destruct (find _ df) as [r|] eqn:E; [|reflexivity].
  apply find_some in E. destruct E as [Hin Hk].
  apply andb_true_iff in Hk. destruct Hk as [H1 H2].
  apply String.eqb_eq in H1, H2. exfalso. apply (H r Hin). now split.
Qed.

Lemma first_total_first (pre post : list ResponseRecord)
  (r : ResponseRecord) (q label : string) :
  keyed q label r ->
  (forall r', In r' pre -> ~ keyed q label r') ->
  first_total (pre ++ r :: post) q label = Total r.
Proof.
  intros [Hq Hl] Hpre. unfold first_total.
  induction pre as [|p pre IH]; simpl.
  - rewrite Hq, Hl, !String.eqb_refl. reflexivity.
  - destruct (String.eqb (Question p) q
              && String.eqb (Categorical_Answers p) label) eqn:E.
    + apply andb_true_iff in E. destruct E as [H1 H2].
      apply String.eqb_eq in H1, H2. exfalso.
      apply (Hpre p); [now left | now split].
    + apply IH. intros r' Hr'. apply Hpre. now right.
Qed.

Lemma first_total_only (df : list ResponseRecord) (r : ResponseRecord)
  (q label : string) :
  In r df -> keyed q label r ->
  (forall r', In r' df -> keyed q label r' -> r' = r) ->
  first_total df q label = Total r.
Proof.
  intros Hin Hk Hu. unfold first_total.
  destruct (find _ df) as [r'|] eqn:E.
  - apply find_some in E. destruct E as [Hin' Hk'].
    apply andb_true_iff in Hk'. destruct Hk' as [H1 H2].
    apply String.eqb_eq in H1, H2. now rewrite (Hu r' Hin' (conj H1 H2)).
  - apply find_none with (x := r) in E; [|exact Hin].
    destruct Hk as [H1 H2]. rewrite H1, H2, !String.eqb_refl in E.
    discriminate E.
Qed.

Lemma int64_add_exact (x y : Z) :
  (- 2 ^ 63 <= x + y < 2 ^ 63)%Z -> int64_add x y = (x + y)%Z.
Proof.
  intros H. unfold int64_add, int64_wrap.
  rewrite Z.mod_small by lia. lia.
Qed.

Lemma int64_sum_exact (a b c : Z) :
  (- 2 ^ 61 <= a < 2 ^ 61)%Z -> (- 2 ^ 61 <= b < 2 ^ 61)%Z ->
  (- 2 ^ 61 <= c < 2 ^ 61)%Z ->
  int64_add (int64_add a b) c = (a + b + c)%Z.
Proof.
  intros Ha Hb Hc. rewrite (int64_add_exact a b) by lia.
  apply int64_add_exact. lia.
Qed.

(** C8.  The aggregator never raises and yields one summary per
    distinct question, in the order in which the questions first
    appear; the counts of a summary are the [Total] of the rows of
    that question labelled "A", "B" and "C", 0 when there is no such
    row, wherever the rows stand in the table.  The total of a summary
    is the sum of its counts as long as the [int64] sum does not
    wrap. *)
Theorem prepare_data_for_fleiss_kappa_summaries (df : list ResponseRecord) :
  exists out,
    prepare_data_for_fleiss_kappa df = Ok out /\
    NoDup (map qs_Question out) /\
    (forall q, In q (map qs_Question out) <-> In q (map Question df)) /\
    StronglySorted lt
      (map (first_index (map Question df)) (map qs_Question out)) /\
    (forall s, In s out ->
       Category_A s = first_total df (qs_Question s) "A" /\
       Category_B s = first_total df (qs_Question s) "B" /\
       Category_C s = first_total df (qs_Question s) "C" /\
       ((- 2 ^ 61 <= Category_A s < 2 ^ 61)%Z ->
        (- 2 ^ 61 <= Category_B s < 2 ^ 61)%Z ->
        (- 2 ^ 61 <= Category_C s < 2 ^ 61)%Z ->
        Total_Responses s
        = (Category_A s + Category_B s + Category_C s)%Z)) /\
    (forall q label,
       (forall r, In r df -> ~ keyed q label r) ->
       first_total df q label = 0%Z) /\
    (forall q label r,
       In r df -> keyed q label r ->
       (forall r', In r' df -> keyed q label r' -> r' = r) ->
       first_total df q label = Total r).
Proof.
  eexists. split; [apply prepare_data_ok|].
  assert (E : map qs_Question (map (summary_of df) (unique (map Question df)))
              = unique (map Question df)).
  { rewrite map_map. cbn. apply map_id. }
  rewrite E.
  split; [apply unique_NoDup|].
  split; [intros q; apply unique_In|].
  split; [apply unique_first_index|].
  split; [|split; [apply first_total_absent
                  |intros q label r; apply first_total_only]].
  intros s Hs. apply in_map_iff in Hs. destruct Hs as (q & <- & _).
  cbn. repeat split. intros HA HB HC. now apply int64_sum_exact.
Qed.

(** C10.  When several rows share a question and a category, the
    count is the [Total] of the first of them: the rows after it are
    neither added nor reported. *)
Theorem prepare_data_first_duplicate_wins
  (pre post : list ResponseRecord) (r : ResponseRecord) :
  (forall r', In r' pre ->
     ~ keyed (Question r) (Categorical_Answers r) r') ->
  exists out s,
    prepare_data_for_fleiss_kappa (pre ++ r :: post) = Ok out /\
    In s out /\
    (forall s', In s' out -> qs_Question s' = Question r -> s' = s) /\
    (Categorical_Answers r = "A" -> Category_A s = Total r) /\
    (Categorical_Answers r = "B" -> Category_B s = Total r) /\
    (Categorical_Answers r = "C" -> Category_C s = Total r).
Proof.
  intros Hpre. set (df := pre ++ r :: post).
  exists (map (summary_of df) (unique (map Question df))).
  exists (summary_of df (Question r)).
  split; [apply prepare_data_ok|]. split.
  { apply in_map, unique_In, in_map. subst df.
    apply in_or_app. right. now left. }
  split.
  { intros s' Hs' Hq. apply in_map_iff in Hs'.
    destruct Hs' as (q & <- & _). cbn in Hq. now subst q. }
  repeat split; intros Hl; cbn; subst df;
    apply first_total_first; try (now split);
    rewrite <- Hl; exact Hpre.
Qed.

End Aggregator.

(** * The theorems at sample inputs *)

Section Samples.

Import Spec.

Example sample_table_summaries :
  prepare_data_for_fleiss_kappa sample_table
  = Ok [mk_summary "Q2" 5 0 3 8; mk_summary "Q1" 4 0 1 5].
Proof. reflexivity. Qed.

Lemma build_data_matrix_one_hot_witness :
  exists M,
    build_data_matrix 4 2 1 1 = Ok M /\
    well_shaped M /\
    Z.of_nat (shape0 M) = 4%Z /\
    shape1 M = 3%nat /\
    (forall i j, (i < shape0 M)%nat -> (j < 3)%nat ->
       nd_get M i j =
       Some (if (j =? block_column 2 1 i)%nat then of_Z 1 else of_Z 0)) /\
    Forall (fun r => vec_sum r = of_Z 1) (rows M) /\
    nd_sum_axis0 M = [of_Z 2; of_Z 1; of_Z 1] /\
    total_ratings M = of_Z 4.
Proof.
  apply (build_data_matrix_one_hot (mk_summary "Q1" 2 1 1 4)).
  unfold summary_ok. simpl. lia.
Defined.

Lemma calculate_fleiss_kappa_no_data_witness :
  calculate_fleiss_kappa (mk_ndarray 0 3 []) = FNaN /\
  exists M r,
    build_data_matrix 0 0 0 0 = Ok M /\
    shape0 M = 0%nat /\ shape1 M = 3%nat /\
    analyze_row (mk_summary "Q1" 0 0 0 0) = Ok r /\
    Fleiss_Kappa r = FNaN /\
    Agreement_Level r = "No data".
Proof.
  split.
  - apply (proj1 calculate_fleiss_kappa_no_data (mk_ndarray 0 3 [])).
    left. reflexivity.
  - apply (proj2 calculate_fleiss_kappa_no_data (mk_summary "Q1" 0 0 0 0)).
    + unfold summary_ok. simpl. lia.
    + reflexivity.
Defined.


Lemma interpret_fleiss_kappa_bands_witness :
  interpret_fleiss_kappa (FFin (hundredths 50)) = "Moderate agreement".
Proof.
  destruct (proj2 (proj2 interpret_fleiss_kappa_bands) (hundredths 50))
    as (_ & _ & [H _] & _).
  apply H. split; vm_compute; [discriminate | reflexivity].
Defined.

Lemma analyze_row_single_response_witness :
  exists r,
    analyze_row (mk_summary "Q1" 0 1 0 1) = Ok r /\ Fleiss_Kappa r = FNaN.
Proof.
  apply (analyze_row_single_response (mk_summary "Q1" 0 1 0 1)).
  - unfold summary_ok. simpl. lia.
  - reflexivity.
Defined.

Lemma prepare_data_for_fleiss_kappa_summaries_witness :
  exists out,
    prepare_data_for_fleiss_kappa sample_table = Ok out /\
    map qs_Question out = ["Q2"; "Q1"] /\
    Forall (fun s => qs_Question s = "Q1" -> Category_B s = 0%Z) out.
Proof.
  destruct (prepare_data_for_fleiss_kappa_summaries sample_table)
    as (out & Hout & _ & _ & _ & Hc & Habsent & _).
  exists out. split; [exact Hout|].
  assert (E : out = [mk_summary "Q2" 5 0 3 8; mk_summary "Q1" 4 0 1 5]).
  { rewrite sample_table_summaries in Hout. now injection Hout. }
  split; [now rewrite E|].
  apply Forall_forall. intros s Hs Hq.
  destruct (Hc s Hs) as (_ & -> & _). rewrite Hq.
  apply Habsent. intros r Hr [_ Hl].
  simpl in Hr.
  repeat (destruct Hr as [<-|Hr]; [discriminate Hl|]). exact Hr.
Defined.

Lemma prepare_data_first_duplicate_wins_witness :
  exists out s,
    prepare_data_for_fleiss_kappa
      ([mk_record "Q2" "C" 3] ++ mk_record "Q1" "A" 4
         :: [mk_record "Q2" "A" 5; mk_record "Q1" "A" 7;
             mk_record "Q1" "C" 1]) = Ok out /\
    In s out /\
    (forall s', In s' out -> qs_Question s' = "Q1" -> s' = s) /\
    Category_A s = 4%Z.
Proof.
  destruct (prepare_data_first_duplicate_wins
              [mk_record "Q2" "C" 3]
              [mk_record "Q2" "A" 5; mk_record "Q1" "A" 7;
               mk_record "Q1" "C" 1]
              (mk_record "Q1" "A" 4))
    as (out & s & Hout & Hin & Hu & HA & _ & _).
  - intros r' [<-|[]] [H _]. simpl in H. discriminate H.
  - exists out, s. repeat split; try assumption.
    apply HA. reflexivity.
Defined.

End Samples.

(** * The kappa engine, case by case *)

(** Inequalities between rationals in canonical form, read as
    inequalities between plain rationals. *)
Ltac Qc_order :=
  unfold Qcle, Qclt, Qcminus, Qcplus, Qcopp, Qcmult, Spec.sq in *;
  cbn [this Q2Qc] in *;
  repeat match goal with
         | H : context [Qred ?x] |- _ => rewrite (Qred_correct x) in H
         | |- context [Qred ?x] => rewrite (Qred_correct x)
         end.

Ltac literals :=
  unfold f64_0_81, f64_0_61, f64_0_41, f64_0_21, f64_0_01 in *.

Section EngineCases.

Import Spec.

Lemma Qcplus_pos_nonneg (x y : Qc) : 0 < x -> 0 <= y -> 0 < x + y.
Proof. intros. Qc_order. lra. Qed.

Lemma Qcplus_nonneg_pos (x y : Qc) : 0 <= x -> 0 < y -> 0 < x + y.
Proof. intros. Qc_order. lra. Qed.

Lemma Qcplus_pos_split (x y : Qc) :
  0 <= x -> 0 <= y -> 0 < x + y -> 0 < x \/ 0 < y.
Proof.
  intros Hx Hy H. destruct (Qclt_le_dec 0 x) as [L|L]; [now left|right].
  Qc_order. lra.
Qed.

Lemma sq_pos (x : Qc) : 0 < x -> 0 < sq x.
Proof. intros H. unfold sq. now apply Qcmult_pos. Qed.

Lemma Qc_sum_sq_pos (l : list Qc) :
  Forall (fun x => 0 <= x) l -> 0 < Qc_sum l -> 0 < Qc_sum (map sq l).
Proof.
  induction 1 as [|x l Hx Hl IH]; simpl; intros H.
  - exact H.
  - pose proof (Qc_sum_nonneg l Hl) as Hs.
    assert (Hq : 0 <= Qc_sum (map sq l)).
    { apply Qc_sum_nonneg, Forall_map, Forall_forall.
      intros y _. apply sq_nonneg. }
    destruct (Qcplus_pos_split _ _ Hx Hs H) as [L|L].
    + apply Qcplus_pos_nonneg; [now apply sq_pos | exact Hq].
    + apply Qcplus_nonneg_pos; [apply sq_nonneg | now apply IH].
Qed.

Lemma sum_squares_pos (M : ndarray) :
  Forall (Forall nonneg) (rows M) -> 0 < N M -> 0 < sum_squares M.
Proof.
  intros H. apply entries_nonneg in H. unfold N, sum_squares.
  induction H as [|r rs Hr Hrs IH]; simpl; intros HN.
  - exact HN.
  - assert (H1 : 0 <= Qc_sum r) by now apply Qc_sum_nonneg.
    assert (H2 : 0 <= Qc_sum (map Qc_sum rs)).
    { apply Qc_sum_nonneg, Forall_map.
      eapply Forall_impl; [|exact Hrs]. apply Qc_sum_nonneg. }
    assert (H3 : 0 <= Qc_sum (map sq r)).
    { apply Qc_sum_nonneg, Forall_map, Forall_forall.
      intros y _. apply sq_nonneg. }
    assert (H4 : 0 <= Qc_sum (map (fun r0 => Qc_sum (map sq r0)) rs)).
    { apply Qc_sum_nonneg, Forall_map, Forall_forall.
      intros r0 _. apply Qc_sum_nonneg, Forall_map, Forall_forall.
      intros y _. apply sq_nonneg. }
    destruct (Qcplus_pos_split _ _ H1 H2 HN) as [L|L].
    + apply Qcplus_pos_nonneg; [now apply Qc_sum_sq_pos | exact H4].
    + apply Qcplus_nonneg_pos; [exact H3 | now apply IH].
Qed.

Lemma fdiv_pos_zero (a : Qc) : 0 < a -> fdiv (FFin a) (FFin 0) = FInf false.
Proof.
  intros Ha. unfold fdiv, is_zero, fsign.
  assert (E1 : Qc_eqb a 0 = false).
  { apply Qc_eqb_neq. intros E. rewrite E in Ha.
    now apply Qclt_not_eq in Ha. }
  assert (E2 : Qc_ltb a 0 = false) by now apply Qc_ltb_ge, Qclt_le_weak.
  rewrite E1, E2. reflexivity.
Qed.

(** On a matrix of numbers that are not negative, with a row, a column
    and a positive sum: no kappa when [Pe = 1], plus infinity when
    there is a single row, the quotient otherwise. *)
Lemma calculate_fleiss_kappa_cases (M : ndarray) :
  well_shaped M -> Forall (Forall nonneg) (rows M) ->
  (0 < shape0 M)%nat -> (0 < shape1 M)%nat -> 0 < N M ->
  calculate_fleiss_kappa M =
  if Qc_eqb (Pe M) 1 then FNaN
  else if (shape0 M =? 1)%nat then FInf false
  else FFin ((P M - Pe M) / (1 - Pe M)).
Proof.
  intros Hw Hn Hrows Hcols HN. unfold calculate_fleiss_kappa.
  destruct (shape0 M) as [|n0] eqn:E0; [lia|].
  destruct (shape1 M) as [|k0] eqn:E1; [lia|]. cbn [Nat.eqb orb].
  unfold total_ratings at 1, scalar_sum. rewrite nd_sum_fin by exact Hn.
  assert (Hz : feqb (FFin (N M)) (of_Z 0) = false).
  { unfold of_Z. rewrite feqb_fin. apply Qc_eqb_neq.
    intro E. change (Q2Qc (inject_Z 0)) with 0 in E.
    rewrite E in HN. now apply Qclt_not_eq in HN. }
  rewrite Hz, expected_agreement_fin by assumption.
  change (of_Z 1) with (FFin 1). rewrite feqb_fin.
  destruct (Qc_eqb (Pe M) 1) eqn:EPe; [reflexivity|].
  apply Qc_eqb_neq in EPe.
  pose proof (Pe_le_1 M Hw Hn HN) as Hle.
  assert (Hlt : 0 < 1 - Pe M).
  { apply (proj1 (Qclt_minus_iff (Pe M) 1)).
    destruct (Qcle_lt_or_eq _ _ Hle) as [L|L]; [exact L|contradiction]. }
  destruct n0 as [|n1].
  - cbn [Nat.eqb].
    unfold observed_agreement, total_ratings, scalar_sum.
    rewrite nd_sum_pow2_fin, nd_sum_fin, E0 by exact Hn.
    change (of_Z (Z.of_nat 1 - 1)) with (FFin 0).
    rewrite fmul_fin; [|now apply Qclt_le_weak|apply Qcle_refl].
    rewrite Qcmult_0_r, fdiv_pos_zero by now apply sum_squares_pos.
    rewrite fsub_fin.
    assert (E : fsub (FInf false) (FFin (Pe M)) = FInf false).
    { unfold fsub, fneg. now destruct (Qc_eqb (Pe M) 0). }
    rewrite E. unfold fdiv, fsign.
    assert (E2 : Qc_ltb (1 - Pe M) 0 = false)
      by now apply Qc_ltb_ge, Qclt_le_weak.
    now rewrite E2.
  - cbn [Nat.eqb].
    rewrite observed_agreement_fin by (try assumption; lia).
    rewrite !fsub_fin. apply fdiv_fin; [|auto].
    intro Z0. rewrite Z0 in Hlt. now apply Qclt_not_eq in Hlt.
Qed.

Lemma N_nonneg (M : ndarray) :
  Forall (Forall nonneg) (rows M) -> 0 <= N M.
Proof.
  intros H. apply entries_nonneg in H. unfold N.
  apply Qc_sum_nonneg, Forall_map.
  eapply Forall_impl; [|exact H]. apply Qc_sum_nonneg.
Qed.

End EngineCases.

(** * The kappa of a question, from its counts *)

Ltac of_Z_entries :=
  repeat match goal with
         | |- _ :: _ = _ :: _ => apply f_equal2
         | |- of_Z _ = of_Z _ => apply f_equal
         end;
  try reflexivity; try lia.

Section FromCounts.

Import Spec Counts.

Lemma qz_add (x y : Z) : qz (x + y) = qz x + qz y.
Proof.
  unfold qz, Qcplus. apply Q2Qc_eq_iff. cbn [this Q2Qc].
  rewrite !Qred_correct, inject_Z_plus. reflexivity.
Qed.

Lemma qz_mul (x y : Z) : qz (x * y) = qz x * qz y.
Proof.
  unfold qz, Qcmult. apply Q2Qc_eq_iff. cbn [this Q2Qc].
  rewrite !Qred_correct, inject_Z_mult. reflexivity.
Qed.

Lemma qz_le (x y : Z) : (x <= y)%Z -> qz x <= qz y.
Proof. apply Qc_of_Z_le. Qed.

Lemma qz_lt (x y : Z) : (x < y)%Z -> qz x < qz y.
Proof. apply Qc_of_Z_lt. Qed.

Lemma qz_inj (x y : Z) : qz x = qz y -> x = y.
Proof.
  intros H. destruct (Z.lt_trichotomy x y) as [L|[E|L]]; [|exact E|];
    apply qz_lt in L; rewrite H in L; now apply Qclt_not_eq in L.
Qed.

Lemma qz_pred (x : Z) : qz (x - 1) = qz x - 1.
Proof. apply Qc_of_Z_pred. Qed.

Lemma qz_pos_neq (x : Z) : (0 < x)%Z -> qz x <> 0.
Proof.
  intros H E. apply qz_lt in H. change (qz 0) with 0 in H.
  rewrite E in H. now apply Qclt_not_eq in H.
Qed.

Lemma vec_pow2_one_hot (j : nat) :
  (j < 3)%nat -> vec_pow2 (one_hot j) = one_hot j.
Proof.
  intros Hj.
  assert (E0 : fpow2 (FFin 0) = FFin 0) by reflexivity.
  assert (E1 : fpow2 (of_Z 1) = of_Z 1).
  { change (of_Z 1) with (FFin 1). rewrite fpow2_fin.
    - cbn [qval]. unfold sq. now rewrite Qcmult_1_l.
    - exists 1. split; [reflexivity|]. now apply Qclt_le_weak. }
  destruct j as [|[|[|j]]]; [| | |lia];
    cbn [one_hot list_set repeat vec_pow2 map]; now rewrite E0, E1.
Qed.

Lemma map_repeat {A B : Type} (f : A -> B) (x : A) (k : nat) :
  map f (repeat x k) = repeat (f x) k.
Proof. induction k; simpl; congruence. Qed.

Lemma rating_pow2 (n a b c : nat) :
  nd_pow2 (mk_ndarray n 3 (rating_rows a b c))
  = mk_ndarray n 3 (rating_rows a b c).
Proof.
  unfold nd_pow2, rating_rows. cbn [shape0 shape1 rows]. f_equal.
  rewrite !map_app, !map_repeat, !vec_pow2_one_hot by lia. reflexivity.
Qed.

Lemma rating_total (n a b c : nat) :
  total_ratings (mk_ndarray n 3 (rating_rows a b c))
  = of_Z (Z.of_nat a + Z.of_nat b + Z.of_nat c).
Proof.
  unfold total_ratings, scalar_sum, nd_sum, vec_sum, rating_rows.
  cbn [rows]. change (FFin 0) with (of_Z 0).
  rewrite !concat_app, !fold_left_app, !fold_fadd_one_hot by lia.
  of_Z_entries.
Qed.

Lemma rating_col_sums (n a b c : nat) :
  nd_sum_axis0 (mk_ndarray n 3 (rating_rows a b c))
  = [of_Z (Z.of_nat a); of_Z (Z.of_nat b); of_Z (Z.of_nat c)].
Proof.
  unfold nd_sum_axis0, rating_rows. cbn [rows shape1 repeat].
  change (FFin 0) with (of_Z 0).
  rewrite !fold_left_app, !fold_vec_add_one_hot by lia.
  cbn [Nat.eqb]. of_Z_entries.
Qed.

Lemma rating_well_shaped (a b c : nat) :
  well_shaped (mk_ndarray (a + b + c) 3 (rating_rows a b c)).
Proof.
  split; cbn [shape0 shape1 rows].
  - apply rating_rows_length.
  - now apply rating_rows_Forall.
Qed.

Lemma one_hot_nonneg (j : nat) : (j < 3)%nat -> Forall nonneg (one_hot j).
Proof.
  intros Hj.
  assert (H0 : nonneg (FFin 0)) by (exists 0; split; [reflexivity|apply Qcle_refl]).
  assert (H1 : nonneg (of_Z 1)).
  { exists 1. split; [reflexivity|]. now apply Qclt_le_weak. }
  destruct j as [|[|[|j]]]; [| | |lia]; repeat constructor; assumption.
Qed.

Lemma rating_nonneg (a b c : nat) :
  Forall (Forall nonneg) (rating_rows a b c).
Proof. apply rating_rows_Forall; apply one_hot_nonneg; lia. Qed.

Section Rating.

Variables a b c : nat.
Let M := mk_ndarray (a + b + c) 3 (rating_rows a b c).
Let za := Z.of_nat a.
Let zb := Z.of_nat b.
Let zc := Z.of_nat c.

Lemma rating_N : N M = qz (za + zb + zc).
Proof.
  pose proof (nd_sum_fin M (rating_nonneg a b c)) as H.
  pose proof (rating_total (a + b + c) a b c) as T.
  unfold total_ratings, scalar_sum in T. fold M in T. rewrite H in T.
  exact (f_equal qval T).
Qed.

Lemma rating_sum_squares : sum_squares M = qz (za + zb + zc).
Proof.
  pose proof (nd_sum_pow2_fin M (rating_nonneg a b c)) as H.
  unfold M in H at 1. rewrite rating_pow2 in H. fold M in H.
  rewrite (nd_sum_fin M (rating_nonneg a b c)) in H.
  rewrite <- rating_N. symmetry. exact (f_equal qval H).
Qed.

Lemma rating_spec_col_sums : col_sums M = [qz za; qz zb; qz zc].
Proof.
  pose proof (nd_sum_axis0_fin M (rating_well_shaped a b c)
                (rating_nonneg a b c)) as H.
  unfold M in H at 1. rewrite rating_col_sums in H.
  apply (f_equal (map qval)) in H. rewrite map_map in H.
  cbn [qval map] in H. rewrite map_id in H. symmetry. exact H.
Qed.

Lemma rating_n : n M = qz (za + zb + zc).
Proof.
  unfold n, M. cbn [rows]. rewrite rating_rows_length.
  unfold qz, za, zb, zc. do 2 f_equal. lia.
Qed.

Lemma rating_P : P M = counts_P za zb zc.
Proof.
  unfold P, counts_P. now rewrite rating_sum_squares, rating_N, rating_n.
Qed.

Lemma rating_Pe : Pe M = counts_Pe za zb zc.
Proof.
  unfold Pe, counts_Pe. rewrite rating_spec_col_sums, rating_N.
  cbn [map Qc_sum fold_right]. f_equal. ring.
Qed.

End Rating.

Lemma counts_Pe_single (a b c : nat) :
  (a + b + c = 1)%nat ->
  counts_Pe (Z.of_nat a) (Z.of_nat b) (Z.of_nat c) = 1.
Proof.
  intros H.
  assert ((a = 1 /\ b = 0 /\ c = 0) \/ (a = 0 /\ b = 1 /\ c = 0) \/
          (a = 0 /\ b = 0 /\ c = 1))%nat
    as [(-> & -> & ->)|[(-> & -> & ->)|(-> & -> & ->)]] by lia;
    apply Qc_is_canon; vm_compute; reflexivity.
Qed.

(** The engine on the matrix of a question, and the computation from
    the counts, agree. *)
Lemma calculate_rating (a b c : nat) :
  calculate_fleiss_kappa (mk_ndarray (a + b + c) 3 (rating_rows a b c))
  = counts_kappa (Z.of_nat a) (Z.of_nat b) (Z.of_nat c).
Proof.
  unfold counts_kappa.
  destruct (Z.eqb_spec (Z.of_nat a + Z.of_nat b + Z.of_nat c) 0) as [E|E].
  - apply calculate_fleiss_kappa_degenerate. left. cbn [shape0]. lia.
  - rewrite calculate_fleiss_kappa_cases.
    + rewrite rating_Pe, rating_P. cbn [shape0].
      destruct (Qc_eqb _ 1) eqn:EPe; [reflexivity|].
      destruct (Nat.eqb_spec (a + b + c) 1) as [E1|E1]; [|reflexivity].
      rewrite (counts_Pe_single a b c E1) in EPe. discriminate EPe.
    + apply rating_well_shaped.
    + apply rating_nonneg.
    + cbn [shape0]. lia.
    + cbn [shape1]. lia.
    + rewrite rating_N. change 0 with (qz 0). apply qz_lt. lia.
Qed.

Lemma analyze_row_from_counts (s : QuestionSummary) :
  summary_ok s ->
  analyze_row s =
  Ok (mk_kappa_result (qs_Question s)
        (counts_kappa (Category_A s) (Category_B s) (Category_C s))
        (Total_Responses s) (Category_A s) (Category_B s) (Category_C s)
        (interpret_fleiss_kappa
           (counts_kappa (Category_A s) (Category_B s) (Category_C s)))).
Proof.
  destruct s as [q a b c t]. unfold summary_ok. cbn.
  intros (Ha & Hb & Hc & ->). unfold analyze_row. cbn.
  rewrite build_data_matrix_rows by assumption. cbn [bind].
  replace (Z.to_nat (a + b + c))
    with (Z.to_nat a + Z.to_nat b + Z.to_nat c)%nat by lia.
  rewrite calculate_rating, !Z2Nat.id by assumption. reflexivity.
Qed.

End FromCounts.

(** * Which labels the analysis can give *)

Section Labels.

Import Spec Counts.

Lemma Qcinv_pos (d : Qc) : 0 < d -> 0 < / d.
Proof.
  intros H. unfold Qcinv. Qc_order. now apply Qinv_lt_0_compat.
Qed.

Lemma Qcdiv_le_cross (x y d e : Qc) :
  0 < d -> 0 < e -> x * e <= y * d -> x / d <= y / e.
Proof.
  intros Hd He H.
  assert (Hd' : d <> 0) by (intros E; rewrite E in Hd; now apply Qclt_not_eq in Hd).
  assert (He' : e <> 0) by (intros E; rewrite E in He; now apply Qclt_not_eq in He).
  replace (x / d) with ((x * e) * / (d * e)) by (field; auto).
  replace (y / e) with ((y * d) * / (d * e)) by (field; auto).
  apply Qcmult_le_compat_r; [exact H|].
  apply Qclt_le_weak, Qcinv_pos. now apply Qcmult_pos.
Qed.

Lemma Qcdiv_lt_1 (x d : Qc) : 0 < d -> x < d -> x / d < 1.
Proof.
  intros Hd H.
  assert (Hd' : d <> 0) by (intros E; rewrite E in Hd; now apply Qclt_not_eq in Hd).
  replace 1 with (d * / d) by (field; auto).
  apply Qcmult_lt_compat_r; [now apply Qcinv_pos | exact H].
Qed.

Lemma Qcdiv_nonpos (x y : Qc) : x <= 0 -> 0 < y -> x / y <= 0.
Proof.
  intros Hx Hy. replace 0 with (0 * / y) by ring.
  apply Qcmult_le_compat_r; [exact Hx|].
  now apply Qclt_le_weak, Qcinv_pos.
Qed.

Lemma Qcminus_nonpos (x y : Qc) : x <= y -> x - y <= 0.
Proof. intros H. Qc_order. lra. Qed.

Lemma sum_sq_qz (a b c : Z) :
  sq (qz a) + sq (qz b) + sq (qz c) = qz (a * a + b * b + c * c).
Proof. unfold sq. now rewrite !qz_add, !qz_mul. Qed.

Lemma unanimous_iff (a b c : Z) :
  (0 <= a)%Z -> (0 <= b)%Z -> (0 <= c)%Z ->
  (unanimous a b c <->
   (a * a + b * b + c * c = (a + b + c) * (a + b + c))%Z).
Proof.
  intros Ha Hb Hc. unfold unanimous. split.
  - intros [[-> ->]|[[-> ->]|[-> ->]]]; ring.
  - intros H.
    assert (E : (a * b + b * c + a * c = 0)%Z) by lia.
    assert (H1 : (0 <= a * b)%Z) by now apply Z.mul_nonneg_nonneg.
    assert (H2 : (0 <= b * c)%Z) by now apply Z.mul_nonneg_nonneg.
    assert (H3 : (0 <= a * c)%Z) by now apply Z.mul_nonneg_nonneg.
    assert (E1 : (a * b = 0)%Z) by lia.
    assert (E2 : (b * c = 0)%Z) by lia.
    assert (E3 : (a * c = 0)%Z) by lia.
    apply Z.mul_eq_0 in E1, E2, E3. lia.
Qed.

Lemma counts_Pe_1_iff (a b c : Z) :
  (0 <= a)%Z -> (0 <= b)%Z -> (0 <= c)%Z -> (0 < a + b + c)%Z ->
  (counts_Pe a b c = 1 <-> unanimous a b c).
Proof.
  intros Ha Hb Hc Ht. rewrite unanimous_iff by assumption.
  unfold counts_Pe. rewrite sum_sq_qz.
  set (S := (a * a + b * b + c * c)%Z). set (t := (a + b + c)%Z) in *.
  pose proof (qz_pos_neq t Ht) as Hn.
  split; intros H.
  - apply qz_inj. rewrite qz_mul.
    transitivity (qz S / (qz t * qz t) * (qz t * qz t)); [field; auto|].
    rewrite H. ring.
  - rewrite H, qz_mul. field. auto.
Qed.

Lemma counts_kappa_unanimous (a b c : Z) :
  (0 <= a)%Z -> (0 <= b)%Z -> (0 <= c)%Z ->
  unanimous a b c -> counts_kappa a b c = FNaN.
Proof.
  intros Ha Hb Hc Hu. unfold counts_kappa.
  destruct (Z.eqb_spec (a + b + c) 0) as [E|E]; [reflexivity|].
  assert (H : counts_Pe a b c = 1) by (apply counts_Pe_1_iff; auto; lia).
  apply Qc_eqb_eq in H. now rewrite H.
Qed.

Lemma counts_kappa_finite (a b c : Z) :
  (0 <= a)%Z -> (0 <= b)%Z -> (0 <= c)%Z ->
  ~ unanimous a b c ->
  counts_kappa a b c
  = FFin ((counts_P a b c - counts_Pe a b c) / (1 - counts_Pe a b c)).
Proof.
  intros Ha Hb Hc Hu. unfold counts_kappa.
  destruct (Z.eqb_spec (a + b + c) 0) as [E|E].
  - exfalso. apply Hu. left. lia.
  - destruct (Qc_eqb (counts_Pe a b c) 1) eqn:EPe; [|reflexivity].
    apply Qc_eqb_eq, counts_Pe_1_iff in EPe; auto; [contradiction|lia].
Qed.

(** With four responses or more that are not unanimous, the observed
    agreement is at most the expected one. *)
Lemma counts_kappa_nonpos (a b c : Z) :
  (0 <= a)%Z -> (0 <= b)%Z -> (0 <= c)%Z -> (4 <= a + b + c)%Z ->
  ~ unanimous a b c ->
  (counts_P a b c - counts_Pe a b c) / (1 - counts_Pe a b c) <= 0.
Proof.
  intros Ha Hb Hc Ht Hu.
  rewrite unanimous_iff in Hu by assumption.
  unfold counts_P, counts_Pe. rewrite sum_sq_qz.
  set (S := (a * a + b * b + c * c)%Z) in *.
  set (t := (a + b + c)%Z) in *.
  assert (H1 : (0 <= a * b)%Z) by now apply Z.mul_nonneg_nonneg.
  assert (H2 : (0 <= b * c)%Z) by now apply Z.mul_nonneg_nonneg.
  assert (H3 : (0 <= a * c)%Z) by now apply Z.mul_nonneg_nonneg.
  assert (HS : (t * t <= 3 * S)%Z).
  { pose proof (Z.square_nonneg (a - b)).
    pose proof (Z.square_nonneg (b - c)).
    pose proof (Z.square_nonneg (a - c)). subst S t. lia. }
  assert (HS' : (S < t * t)%Z) by (subst S t; lia).
  assert (HS0 : (0 <= S)%Z).
  { pose proof (Z.square_nonneg a). pose proof (Z.square_nonneg b).
    pose proof (Z.square_nonneg c). subst S. lia. }
  assert (Hq : 0 < qz t) by (change 0 with (qz 0); apply qz_lt; lia).
  assert (Hq1 : 0 < qz t - 1).
  { rewrite <- qz_pred. change 0 with (qz 0). apply qz_lt. lia. }
  assert (Hqq : 0 < qz t * qz t) by now apply Qcmult_pos.
  assert (Hle : qz t / (qz t * (qz t - 1)) <= qz S / (qz t * qz t)).
  { apply Qcdiv_le_cross; [now apply Qcmult_pos | exact Hqq |].
    rewrite <- qz_pred, <- !qz_mul. apply qz_le. nia. }
  assert (Hlt : qz S / (qz t * qz t) < 1).
  { apply Qcdiv_lt_1; [exact Hqq|]. rewrite <- qz_mul. now apply qz_lt. }
  apply Qcdiv_nonpos.
  - now apply Qcminus_nonpos.
  - apply Qclt_minus_iff in Hlt. exact Hlt.
Qed.

Lemma interpret_below (k : Qc) :
  k < f64_0_01 -> interpret_fleiss_kappa (FFin k) = "Poor agreement".
Proof.
  intros H. unfold interpret_fleiss_kappa. cbn [is_nan].
  assert (E81 : fgeb (FFin k) (FFin f64_0_81) = false)
    by (apply fgeb_fin_false; literals; Qc_order; lra).
  assert (E61 : fgeb (FFin k) (FFin f64_0_61) = false)
    by (apply fgeb_fin_false; literals; Qc_order; lra).
  assert (E41 : fgeb (FFin k) (FFin f64_0_41) = false)
    by (apply fgeb_fin_false; literals; Qc_order; lra).
  assert (E21 : fgeb (FFin k) (FFin f64_0_21) = false)
    by (apply fgeb_fin_false; literals; Qc_order; lra).
  assert (E1 : fgeb (FFin k) (FFin f64_0_01) = false)
    by now apply fgeb_fin_false.
  now rewrite E81, E61, E41, E21, E1.
Qed.

Lemma interpret_nonpos (k : Qc) :
  k <= 0 -> interpret_fleiss_kappa (FFin k) = "Poor agreement".
Proof.
  intros H. apply interpret_below. unfold f64_0_01. Qc_order. lra.
Qed.

(** X5.  With four responses or more, the analysis gives a question
    either no kappa and the label "No data", when the responses are
    unanimous, or a kappa that is at most 0 and the label
    "Poor agreement". *)
Theorem analyze_row_four_or_more (s : QuestionSummary) :
  summary_ok s -> (4 <= Total_Responses s)%Z ->
  exists r,
    analyze_row s = Ok r /\
    (unanimous (Category_A s) (Category_B s) (Category_C s) ->
     Fleiss_Kappa r = FNaN /\ Agreement_Level r = "No data") /\
    (~ unanimous (Category_A s) (Category_B s) (Category_C s) ->
     exists k, Fleiss_Kappa r = FFin k /\ k <= 0 /\
               Agreement_Level r = "Poor agreement").
Proof.
  intros Hs Ht. rewrite (analyze_row_from_counts s Hs).
  eexists. split; [reflexivity|]. cbn [Fleiss_Kappa Agreement_Level].
  destruct s as [q a b c t]. unfold summary_ok in Hs. cbn in *.
  destruct Hs as (Ha & Hb & Hc & ->). split.
  - intros Hu. rewrite counts_kappa_unanimous by assumption. now split.
  - intros Hu. rewrite counts_kappa_finite by assumption.
    pose proof (counts_kappa_nonpos a b c Ha Hb Hc Ht Hu) as Hk.
    eexists. split; [reflexivity|]. split; [exact Hk|].
    now apply interpret_nonpos.
Qed.

Lemma unanimousb_spec (a b c : Z) :
  unanimousb a b c = true <-> unanimous a b c.
Proof.
  unfold unanimousb, unanimous.
  rewrite !orb_true_iff, !andb_true_iff, !Z.eqb_eq. tauto.
Qed.

(** X6.  The label of a question depends on its counts as follows:
    "No data" when the responses are unanimous (or there is none),
    "Almost perfect agreement" for two responses that differ,
    "Fair agreement" for one response in each category, and
    "Poor agreement" in every other case.  The labels "Slight",
    "Moderate" and "Substantial" never come out. *)
Theorem analyze_row_label (s : QuestionSummary) :
  summary_ok s ->
  exists r,
    analyze_row s = Ok r /\
    Agreement_Level r
    = counts_label (Category_A s) (Category_B s) (Category_C s).
Proof.
  intros Hs.
  destruct (Z_lt_le_dec (Total_Responses s) 4) as [Hsmall|Hbig].
  - destruct s as [q a b c t]. unfold summary_ok in Hs. cbn in *.
    destruct Hs as (Ha & Hb & Hc & ->).
    assert (Ea : (a = 0 \/ a = 1 \/ a = 2 \/ a = 3)%Z) by lia.
    assert (Eb : (b = 0 \/ b = 1 \/ b = 2 \/ b = 3)%Z) by lia.
    assert (Ec : (c = 0 \/ c = 1 \/ c = 2 \/ c = 3)%Z) by lia.
    destruct Ea as [ -> | [ -> | [ -> | -> ]]], Eb as [ -> | [ -> | [ -> | -> ]]],
             Ec as [ -> | [ -> | [ -> | -> ]]];
      try (exfalso; lia);
      (eexists; split; [vm_compute; reflexivity | reflexivity]).
  - rewrite (analyze_row_from_counts s Hs).
    eexists. split; [reflexivity|]. cbn [Agreement_Level].
    destruct s as [q a b c t]. unfold summary_ok in Hs. cbn in *.
    destruct Hs as (Ha & Hb & Hc & ->). unfold counts_label.
    destruct (unanimousb a b c) eqn:Eu.
    + apply unanimousb_spec in Eu.
      now rewrite counts_kappa_unanimous.
    + assert (Hu : ~ unanimous a b c).
      { intros H. apply unanimousb_spec in H. congruence. }
      rewrite counts_kappa_finite by assumption.
      rewrite interpret_nonpos by now apply counts_kappa_nonpos.
      destruct (Z.eqb_spec (a + b + c) 2) as [E|E]; [lia|].
      destruct (Z.eqb_spec a 1), (Z.eqb_spec b 1), (Z.eqb_spec c 1);
        cbn [andb]; try reflexivity. lia.
Qed.

End Labels.

(** * When the analysis raises *)

Section AnalysisErrors.

Import Spec.

Lemma fill_loop_step (j k : nat) (m : ndarray) (cur : nat) :
  (j < shape1 m)%nat ->
  for_range (S k) (fill_step j) (m, cur)
  = if (cur <? shape0 m)%nat
    then for_range k (fill_step j)
           (mk_ndarray (shape0 m) (shape1 m)
              (list_set (rows m) cur
                 (list_set (nth cur (rows m) []) j (of_Z 1))),
            S cur)
    else Raise IndexError.
Proof.
  intros Hj. cbn [for_range]. unfold fill_step at 1. unfold nd_setitem.
  apply Nat.ltb_lt in Hj. rewrite Hj, andb_true_r.
  now destruct (cur <? shape0 m)%nat.
Qed.

(** A fill loop goes through when the rows left are enough, and raises
    [IndexError] when they are not. *)
Lemma fill_loop_bounds (j k : nat) (m : ndarray) (cur : nat) :
  (j < shape1 m)%nat -> (cur <= shape0 m)%nat ->
  ((cur + k <= shape0 m)%nat ->
   exists m', for_range k (fill_step j) (m, cur) = Ok (m', (cur + k)%nat) /\
              shape0 m' = shape0 m /\ shape1 m' = shape1 m) /\
  ((shape0 m < cur + k)%nat ->
   for_range k (fill_step j) (m, cur) = Raise IndexError).
Proof.
  revert m cur. induction k as [|k IH]; intros m cur Hj Hcur.
  - split; [|lia]. intros _. exists m. rewrite Nat.add_0_r. auto.
  - rewrite fill_loop_step by exact Hj.
    destruct (cur <? shape0 m)%nat eqn:Ec.
    + apply Nat.ltb_lt in Ec.
      match goal with
      | |- context [for_range k _ (?m1, _)] => set (m' := m1)
      end.
      destruct (IH m' (S cur)) as [IH1 IH2]; [exact Hj | exact Ec |].
      split.
      * intros H. destruct IH1 as (m'' & E & H0 & H1); [cbn; lia|].
        exists m''. rewrite E. split; [do 2 f_equal; lia | auto].
      * intros H. apply IH2. cbn. lia.
    + apply Nat.ltb_ge in Ec. split; [lia | reflexivity].
Qed.

Lemma build_data_matrix_bounds (total a b c : Z) :
  (0 <= total)%Z -> (0 <= a)%Z -> (0 <= b)%Z -> (0 <= c)%Z ->
  ((a + b + c <= total)%Z ->
   exists m, build_data_matrix total a b c = Ok m) /\
  ((total < a + b + c)%Z ->
   build_data_matrix total a b c = Raise IndexError).
Proof.
  intros Ht Ha Hb Hc. unfold build_data_matrix, np_zeros.
  assert (E : (total <? 0)%Z = false) by (apply Z.ltb_ge; lia).
  rewrite E. cbn [bind].
  set (m0 := mk_ndarray _ _ _).
  destruct (fill_loop_bounds 0 (Z.to_nat a) m0 0) as [A1 A2];
    [cbn; lia | cbn; lia |].
  destruct (Nat.le_gt_cases (0 + Z.to_nat a) (shape0 m0)) as [La|La].
  2:{ split; [cbn in La; lia|]. intros _. now rewrite (A2 La). }
  destruct (A1 La) as (m1 & E1 & S1 & K1). rewrite E1. cbn [bind].
  destruct (fill_loop_bounds 1 (Z.to_nat b) m1 (0 + Z.to_nat a)) as [B1 B2];
    [rewrite K1; cbn; lia | rewrite S1; exact La |].
  destruct (Nat.le_gt_cases (0 + Z.to_nat a + Z.to_nat b) (shape0 m1))
    as [Lb|Lb].
  2:{ split; [rewrite S1 in Lb; cbn in Lb; lia|].
      intros _. now rewrite (B2 Lb). }
  destruct (B1 Lb) as (m2 & E2 & S2 & K2). rewrite E2. cbn [bind].
  destruct (fill_loop_bounds 2 (Z.to_nat c) m2
              (0 + Z.to_nat a + Z.to_nat b)) as [C1 C2];
    [rewrite K2, K1; cbn; lia | rewrite S2; exact Lb |].
  destruct (Nat.le_gt_cases (0 + Z.to_nat a + Z.to_nat b + Z.to_nat c)
              (shape0 m2)) as [Lc|Lc].
  2:{ split; [rewrite S2, S1 in Lc; cbn in Lc; lia|].
      intros _. now rewrite (C2 Lc). }
  destruct (C1 Lc) as (m3 & E3 & _). rewrite E3. cbn [bind fst].
  split; [intros _; now exists m3|].
  rewrite S2, S1 in Lc. cbn in Lc. lia.
Qed.

(** X7.  [analyze_row] on a summary whose counts are not negative:
    a negative total raises [ValueError]; a total smaller than the sum
    of the counts raises [IndexError], from the write past the last
    row; any other total goes through. *)
Theorem analyze_row_raises (s : QuestionSummary) :
  (0 <= Category_A s)%Z -> (0 <= Category_B s)%Z -> (0 <= Category_C s)%Z ->
  ((Total_Responses s < 0)%Z -> analyze_row s = Raise ValueError) /\
  ((0 <= Total_Responses s
    < Category_A s + Category_B s + Category_C s)%Z ->
   analyze_row s = Raise IndexError) /\
  ((Category_A s + Category_B s + Category_C s <= Total_Responses s)%Z ->
   exists r, analyze_row s = Ok r).
Proof.
  destruct s as [q a b c t]. cbn. intros Ha Hb Hc.
  unfold analyze_row. cbn. split; [|split].
  - intros Ht. unfold build_data_matrix, np_zeros.
    apply Z.ltb_lt in Ht. now rewrite Ht.
  - intros [Ht Hlt].
    destruct (build_data_matrix_bounds t a b c Ht Ha Hb Hc) as [_ H].
    now rewrite (H Hlt).
  - intros Hle.
    destruct (build_data_matrix_bounds t a b c) as [H _]; try lia.
    destruct (H Hle) as (m & E). rewrite E. cbn [bind]. eauto.
Qed.

End AnalysisErrors.

(** * From the table to the results *)

Section Pipeline.

Import Spec Counts.

Lemma first_total_bounds (df : list ResponseRecord) (q label : string)
  (bound : Z) :
  (0 < bound)%Z ->
  (forall r, In r df -> (0 <= Total r < bound)%Z) ->
  (0 <= first_total df q label < bound)%Z.
Proof.
  intros Hb H. unfold first_total.
  destruct (find _ df) as [r|] eqn:E; [|lia].
  apply find_some in E. apply H. tauto.
Qed.

Lemma summary_of_ok (df : list ResponseRecord) (q : string) :
  (forall r, In r df -> (0 <= Total r < 2 ^ 20)%Z) ->
  summary_ok (summary_of df q).
Proof.
  intros H. unfold summary_ok, summary_of. cbn.
  pose proof (first_total_bounds df q "A" (2 ^ 20) eq_refl H).
  pose proof (first_total_bounds df q "B" (2 ^ 20) eq_refl H).
  pose proof (first_total_bounds df q "C" (2 ^ 20) eq_refl H).
  repeat split; try lia. apply int64_sum_exact; lia.
Qed.

(** The result of a summary, computed from its counts. *)
Lemma analyze_all_from_counts (fleiss_df : list QuestionSummary) :
  Forall summary_ok fleiss_df ->
  exists results,
    analyze_agreement_by_question fleiss_df = Ok results /\
    Forall2 (fun s r => analyze_row s = Ok r) fleiss_df results.
Proof.
  unfold analyze_agreement_by_question.
  induction 1 as [|s l Hs _ (results & E & F)]; cbn [for_each].
  - exists []. split; [reflexivity | constructor].
  - rewrite (analyze_row_from_counts s Hs), E. cbn [bind].
    eexists. split; [reflexivity|]. constructor; [|exact F].
    now apply analyze_row_from_counts.
Qed.

Lemma analyze_row_copies (s : QuestionSummary) (r : KappaResult) :
  analyze_row s = Ok r ->
  kr_Question r = qs_Question s /\
  N_Responses r = Total_Responses s /\
  Answer_A_Count r = Category_A s /\
  Answer_B_Count r = Category_B s /\
  Answer_C_Count r = Category_C s /\
  Agreement_Level r = interpret_fleiss_kappa (Fleiss_Kappa r).
Proof.
  unfold analyze_row. destruct (build_data_matrix _ _ _ _); [|discriminate].
  cbn [bind]. intros [= <-]. cbn. auto 6.
Qed.

(** X8.  On a table whose totals are not negative and below 2^20 (the
    sum of three of them then does not wrap in [int64]) neither the
    aggregator nor the analysis raises: there is one result per
    distinct question, in the order of first appearance, which carries
    the counts of its summary, their sum as the number of responses,
    and the label of its kappa. *)
Theorem pipeline_never_raises (df : list ResponseRecord) :
  (forall r, In r df -> (0 <= Total r < 2 ^ 20)%Z) ->
  exists fleiss_df results,
    prepare_data_for_fleiss_kappa df = Ok fleiss_df /\
    Forall summary_ok fleiss_df /\
    analyze_agreement_by_question fleiss_df = Ok results /\
    map kr_Question results = unique (map Question df) /\
    Forall2 (fun s r =>
               N_Responses r
               = (Category_A s + Category_B s + Category_C s)%Z /\
               Answer_A_Count r = Category_A s /\
               Answer_B_Count r = Category_B s /\
               Answer_C_Count r = Category_C s /\
               Agreement_Level r = interpret_fleiss_kappa (Fleiss_Kappa r))
            fleiss_df results.
Proof.
  intros Hdf. rewrite prepare_data_ok.
  set (fleiss_df := map (summary_of df) (unique (map Question df))).
  assert (Hok : Forall summary_ok fleiss_df).
  { apply Forall_map, Forall_forall. intros q _. now apply summary_of_ok. }
  destruct (analyze_all_from_counts fleiss_df Hok) as (results & E & F).
  exists fleiss_df, results. repeat split; try assumption.
  - assert (Hq : map kr_Question results = map qs_Question fleiss_df).
    { clear E Hok. induction F as [|s r l l' H _ IH]; cbn; [reflexivity|].
      apply analyze_row_copies in H. f_equal; tauto. }
    rewrite Hq. unfold fleiss_df. rewrite map_map. cbn. apply map_id.
  - clear E. induction F as [|s r l l' H F IH]; constructor.
    + inversion Hok as [|? ? Hs _]; subst.
      apply analyze_row_copies in H. destruct Hs as (_ & _ & _ & Ht).
      rewrite <- Ht. tauto.
    + apply IH. now inversion Hok.
Qed.

(** X17.  The analysis is all or nothing: when the row of one question
    raises, the whole call raises the same exception, and the results
    of the questions before it are lost. *)
Theorem analyze_agreement_by_question_aborts
  (before after : list QuestionSummary) (s : QuestionSummary) (e : exn) :
  Forall (fun s' => exists r, analyze_row s' = Ok r) before ->
  analyze_row s = Raise e ->
  analyze_agreement_by_question (before ++ s :: after) = Raise e.
Proof.
  intros Hb Hs. unfold analyze_agreement_by_question.
  induction Hb as [|s' l [r Hr] _ IH]; cbn [app for_each].
  - now rewrite Hs.
  - rewrite Hr. cbn [bind]. now rewrite IH.
Qed.

End Pipeline.

(** * More on the aggregator *)

Section AggregatorMore.

Import Spec Counts.

Lemma find_skip {A : Type} (f : A -> bool) (l1 l2 : list A) (x : A) :
  f x = false -> find f (l1 ++ x :: l2) = find f (l1 ++ l2).
Proof.
  intros H. induction l1 as [|y l1 IH]; simpl.
  - now rewrite H.
  - now rewrite IH.
Qed.

Lemma first_total_skip (df1 df2 : list ResponseRecord) (r : ResponseRecord)
  (q label : string) :
  Categorical_Answers r <> label ->
  first_total (df1 ++ r :: df2) q label = first_total (df1 ++ df2) q label.
Proof.
  intros H. unfold first_total. rewrite find_skip; [reflexivity|].
  apply String.eqb_neq in H. rewrite H. apply andb_false_r.
Qed.

Lemma filter_neq_comm (a b : string) (l : list string) :
  filter (fun y => negb (String.eqb y a))
    (filter (fun y => negb (String.eqb y b)) l)
  = filter (fun y => negb (String.eqb y b))
      (filter (fun y => negb (String.eqb y a)) l).
Proof.
  rewrite !filter_filter. apply filter_ext. intros y. apply andb_comm.
Qed.

Lemma filter_neq_idem (a : string) (l : list string) :
  filter (fun y => negb (String.eqb y a))
    (filter (fun y => negb (String.eqb y a)) l)
  = filter (fun y => negb (String.eqb y a)) l.
Proof.
  rewrite filter_filter. apply filter_ext. intros y.
  now destruct (String.eqb y a).
Qed.

Lemma unique_filter_skip (a : string) (l1 l2 : list string) :
  filter (fun y => negb (String.eqb y a)) (unique (l1 ++ a :: l2))
  = filter (fun y => negb (String.eqb y a)) (unique (l1 ++ l2)).
Proof.
  induction l1 as [|b l1 IH]; cbn [app unique filter].
  - rewrite String.eqb_refl. cbn [negb]. apply filter_neq_idem.
  - destruct (negb (String.eqb b a)).
    + f_equal. now rewrite filter_neq_comm, IH, filter_neq_comm.
    + now rewrite filter_neq_comm, IH, filter_neq_comm.
Qed.

(** A question seen before adds nothing to the list of questions. *)
Lemma unique_skip (x : string) (l1 l2 : list string) :
  In x l1 -> unique (l1 ++ x :: l2) = unique (l1 ++ l2).
Proof.
  induction l1 as [|b l1 IH]; intros H; [destruct H|].
  cbn [app unique]. f_equal.
  destruct (String.eqb_spec x b) as [->|Hn].
  - apply unique_filter_skip.
  - destruct H as [H|H]; [congruence|]. now rewrite IH.
Qed.

Lemma abc_label_false (label : string) :
  abc_label label = false -> label <> "A" /\ label <> "B" /\ label <> "C".
Proof.
  unfold abc_label. rewrite !orb_false_iff, !String.eqb_neq. tauto.
Qed.

(** X9.  A row whose label is none of "A", "B", "C", for a question
    that appears earlier in the table, changes nothing to the
    summaries. *)
Theorem prepare_data_ignores_other_labels
  (df1 df2 : list ResponseRecord) (r : ResponseRecord) :
  abc_label (Categorical_Answers r) = false ->
  In (Question r) (map Question df1) ->
  prepare_data_for_fleiss_kappa (df1 ++ r :: df2)
  = prepare_data_for_fleiss_kappa (df1 ++ df2).
Proof.
  intros Hl Hq. apply abc_label_false in Hl. destruct Hl as (HA & HB & HC).
  rewrite !prepare_data_ok. f_equal.
  rewrite !map_app. cbn [map]. rewrite unique_skip by exact Hq.
  apply map_ext. intros q. unfold summary_of.
  now rewrite !first_total_skip by assumption.
Qed.

(** X10.  A question none of whose rows is labelled "A", "B" or "C"
    still gets a summary: all its counts are 0, and its analysis is
    "No data". *)
Theorem prepare_data_question_without_counts
  (df : list ResponseRecord) (q : string) :
  In q (map Question df) ->
  (forall r, In r df -> Question r = q ->
             abc_label (Categorical_Answers r) = false) ->
  exists fleiss_df,
    prepare_data_for_fleiss_kappa df = Ok fleiss_df /\
    In (mk_summary q 0 0 0 0) fleiss_df /\
    analyze_row (mk_summary q 0 0 0 0)
    = Ok (mk_kappa_result q FNaN 0 0 0 0 "No data").
Proof.
  intros Hq Hrows. rewrite prepare_data_ok. eexists.
  split; [reflexivity|]. split; [|reflexivity].
  apply in_map_iff. exists q. split; [|now apply unique_In].
  assert (H0 : forall label, abc_label label = true ->
                             first_total df q label = 0%Z).
  { intros label Hl. apply first_total_absent. intros r Hr [H1 H2].
    specialize (Hrows r Hr H1). rewrite H2 in Hrows. congruence. }
  unfold summary_of. now rewrite !H0 by reflexivity.
Qed.

Lemma key_unique (df : list ResponseRecord) (r r' : ResponseRecord) :
  NoDup (map key df) -> In r df -> In r' df -> key r = key r' -> r = r'.
Proof.
  induction df as [|x df IH]; intros Hnd Hr Hr' Hk; [destruct Hr|].
  cbn [map] in Hnd. inversion Hnd as [|? ? Hx Hnd']; subst.
  destruct Hr as [->|Hr], Hr' as [->|Hr'].
  - reflexivity.
  - exfalso. apply Hx. rewrite Hk. now apply in_map.
  - exfalso. apply Hx. rewrite <- Hk. now apply in_map.
  - now apply IH.
Qed.

Lemma first_total_permutation (df df' : list ResponseRecord)
  (q label : string) :
  NoDup (map key df) -> Permutation df df' ->
  first_total df q label = first_total df' q label.
Proof.
  intros Hnd HP.
  assert (Hnd' : NoDup (map key df')).
  { eapply Permutation_NoDup; [|exact Hnd]. now apply Permutation_map. }
  destruct (find (fun r => String.eqb (Question r) q
                           && String.eqb (Categorical_Answers r) label) df)
    as [r|] eqn:E.
  - pose proof E as E'. apply find_some in E'. destruct E' as [Hin Hk].
    apply andb_true_iff in Hk. destruct Hk as [H1 H2].
    apply String.eqb_eq in H1, H2.
    transitivity (Total r).
    + unfold first_total. now rewrite E.
    + symmetry. apply first_total_only.
      * now apply (Permutation_in _ HP).
      * now split.
      * intros r' Hr' [K1 K2]. apply (key_unique df'); auto.
        -- now apply (Permutation_in _ HP).
        -- unfold key. congruence.
  - transitivity 0%Z.
    + unfold first_total. now rewrite E.
    + symmetry. apply first_total_absent. intros r Hr [K1 K2].
      apply (Permutation_in _ (Permutation_sym HP)) in Hr.
      apply (find_none _ _ E) in Hr.
      rewrite K1, K2, !String.eqb_refl in Hr. discriminate Hr.
Qed.

(** X11.  When no two rows of the table share a question and a label,
    the order of the rows does not matter: a reordered table gives the
    same summaries, up to their order. *)
Theorem prepare_data_row_order (df df' : list ResponseRecord) :
  NoDup (map key df) -> Permutation df df' ->
  exists out out',
    prepare_data_for_fleiss_kappa df = Ok out /\
    prepare_data_for_fleiss_kappa df' = Ok out' /\
    Permutation out out'.
Proof.
  intros Hnd HP. rewrite !prepare_data_ok. do 2 eexists.
  split; [reflexivity|]. split; [reflexivity|].
  assert (E : map (summary_of df') (unique (map Question df'))
              = map (summary_of df) (unique (map Question df'))).
  { apply map_ext. intros q. unfold summary_of.
    now rewrite !(first_total_permutation df df' q) by assumption. }
  rewrite E. apply Permutation_map.
  apply NoDup_Permutation; try apply unique_NoDup.
  intros q. rewrite !unique_In.
  split; apply Permutation_in; [|apply Permutation_sym];
    now apply Permutation_map.
Qed.

End AggregatorMore.

(** * The scale of the labels *)

(** Turns every comparison of two rationals in sight into the order
    fact it stands for. *)
Ltac compare_cases :=
  repeat match goal with
         | |- context [Qccompare ?a ?b] =>
             let E := fresh "E" in
             destruct (Qccompare a b) eqn:E;
             [apply Qceq_alt in E | apply Qclt_alt in E | apply Qcgt_alt in E]
         | H : context [Qccompare ?a ?b] |- _ =>
             let E := fresh "E" in
             destruct (Qccompare a b) eqn:E;
             [apply Qceq_alt in E | apply Qclt_alt in E | apply Qcgt_alt in E]
         end.

Ltac bands_absurd :=
  exfalso; literals; Qc_order; lra.

Section Scale.

Import Spec Counts.

Lemma fgeb_mono (x y : float) (c : Qc) :
  fle x y -> fgeb x (FFin c) = true -> fgeb y (FFin c) = true.
Proof.
  unfold fle, fgeb, fcompare.
  destruct x as [p| |s|], y as [q| |t|]; cbn [qval];
    try (destruct s); try (destruct t); cbn [Bool.eqb];
    try tauto; try discriminate; try reflexivity;
    compare_cases; intros; subst;
    try tauto; try discriminate; try reflexivity;
    exfalso; Qc_order; lra.
Qed.

Lemma filter_length_le {A : Type} (p p' : A -> bool) (l : list A) :
  (forall z, p z = true -> p' z = true) ->
  (length (filter p l) <= length (filter p' l))%nat.
Proof.
  intros H. induction l as [|z l IH]; cbn; [lia|].
  destruct (p z) eqn:E.
  - rewrite (H z E). cbn. lia.
  - destruct (p' z); cbn; lia.
Qed.

Lemma bands_reached_mono (x y : float) :
  fle x y -> (bands_reached x <= bands_reached y)%nat.
Proof.
  intros H. unfold bands_reached. apply filter_length_le.
  intros z. unfold dec. now apply fgeb_mono.
Qed.

Lemma interpret_rank_fin (q : Qc) :
  label_rank (interpret_fleiss_kappa (FFin q))
  = Some (bands_reached (FFin q)).
Proof.
  unfold bands_reached, interpret_fleiss_kappa.
  cbn [is_nan filter].
  destruct (fgeb (FFin q) (FFin f64_0_81)) eqn:E81;
    [apply fgeb_fin in E81 | apply fgeb_fin_false in E81];
  (destruct (fgeb (FFin q) (FFin f64_0_61)) eqn:E61;
    [apply fgeb_fin in E61 | apply fgeb_fin_false in E61]);
  (destruct (fgeb (FFin q) (FFin f64_0_41)) eqn:E41;
    [apply fgeb_fin in E41 | apply fgeb_fin_false in E41]);
  (destruct (fgeb (FFin q) (FFin f64_0_21)) eqn:E21;
    [apply fgeb_fin in E21 | apply fgeb_fin_false in E21]);
  (destruct (fgeb (FFin q) (FFin f64_0_01)) eqn:E1;
    [apply fgeb_fin in E1 | apply fgeb_fin_false in E1]);
  first [reflexivity | bands_absurd].
Qed.

Lemma interpret_rank (x : float) :
  is_nan x = false ->
  label_rank (interpret_fleiss_kappa x) = Some (bands_reached x).
Proof.
  destruct x as [q| |s|]; intros H.
  - apply interpret_rank_fin.
  - reflexivity.
  - destruct s; reflexivity.
  - discriminate H.
Qed.

Lemma fle_not_nan (x y : float) :
  fle x y -> is_nan x = false /\ is_nan y = false.
Proof.
  unfold fle, fcompare.
  destruct x as [p| |s|], y as [q| |t|]; cbn; tauto.
Qed.

(** X12.  The interpreter is monotone: of two kappas, finite or
    infinite, the greater never gets a label lower on the scale from
    "Poor" to "Almost perfect agreement". *)
Theorem interpret_fleiss_kappa_monotone (x y : float) :
  fle x y ->
  exists i j,
    label_rank (interpret_fleiss_kappa x) = Some i /\
    label_rank (interpret_fleiss_kappa y) = Some j /\
    (i <= j)%nat.
Proof.
  intros H. destruct (fle_not_nan x y H) as [Hx Hy].
  exists (bands_reached x), (bands_reached y).
  split; [now apply interpret_rank|].
  split; [now apply interpret_rank|]. now apply bands_reached_mono.
Qed.

End Scale.

(** * The summary statistics *)

Section Statistics.

Import Spec Counts.

Lemma fltb_fin (q c : Qc) :
  fltb (FFin q) (FFin c) = negb (fgeb (FFin q) (FFin c)).
Proof.
  unfold fltb, fgeb, fcompare, qval. now destruct (q ?= c).
Qed.

(** What the masks of [main] test, on a finite kappa. *)
Lemma masks_fin (q : Qc) :
  let x := FFin q in
  let label := interpret_fleiss_kappa x in
  fgeb x (FFin f64_0_81) = String.eqb label "Almost perfect agreement" /\
  fgeb x (FFin f64_0_61) && fltb x (FFin f64_0_81)
  = String.eqb label "Substantial agreement" /\
  fgeb x (FFin f64_0_41) && fltb x (FFin f64_0_61)
  = String.eqb label "Moderate agreement" /\
  fgeb x (FFin f64_0_21) && fltb x (FFin f64_0_41)
  = String.eqb label "Fair agreement" /\
  fgeb x (FFin f64_0_01) && fltb x (FFin f64_0_21)
  = String.eqb label "Slight agreement" /\
  fltb x (FFin f64_0_01) = String.eqb label "Poor agreement" /\
  is_nan x = String.eqb label "No data".
Proof.
  intros x label. subst x label.
  unfold interpret_fleiss_kappa. rewrite !fltb_fin. cbn [is_nan].
  destruct (fgeb (FFin q) (FFin f64_0_81)) eqn:E81;
    [apply fgeb_fin in E81 | apply fgeb_fin_false in E81];
  (destruct (fgeb (FFin q) (FFin f64_0_61)) eqn:E61;
    [apply fgeb_fin in E61 | apply fgeb_fin_false in E61]);
  (destruct (fgeb (FFin q) (FFin f64_0_41)) eqn:E41;
    [apply fgeb_fin in E41 | apply fgeb_fin_false in E41]);
  (destruct (fgeb (FFin q) (FFin f64_0_21)) eqn:E21;
    [apply fgeb_fin in E21 | apply fgeb_fin_false in E21]);
  (destruct (fgeb (FFin q) (FFin f64_0_01)) eqn:E1;
    [apply fgeb_fin in E1 | apply fgeb_fin_false in E1]);
  first [ repeat split; reflexivity | bands_absurd ].
Qed.

(** The same on every float: infinities, zeros and not-a-number. *)
Lemma masks_label (x : float) :
  let label := interpret_fleiss_kappa x in
  fgeb x (FFin f64_0_81) = String.eqb label "Almost perfect agreement" /\
  fgeb x (FFin f64_0_61) && fltb x (FFin f64_0_81)
  = String.eqb label "Substantial agreement" /\
  fgeb x (FFin f64_0_41) && fltb x (FFin f64_0_61)
  = String.eqb label "Moderate agreement" /\
  fgeb x (FFin f64_0_21) && fltb x (FFin f64_0_41)
  = String.eqb label "Fair agreement" /\
  fgeb x (FFin f64_0_01) && fltb x (FFin f64_0_21)
  = String.eqb label "Slight agreement" /\
  fltb x (FFin f64_0_01) = String.eqb label "Poor agreement" /\
  is_nan x = String.eqb label "No data".
Proof.
  destruct x as [q| |s|].
  - apply masks_fin.
  - repeat split; reflexivity.
  - destruct s; repeat split; reflexivity.
  - repeat split; reflexivity.
Qed.

Lemma analyze_labels (fleiss_df : list QuestionSummary)
  (results : list KappaResult) :
  analyze_agreement_by_question fleiss_df = Ok results ->
  Forall (fun r => Agreement_Level r
                   = interpret_fleiss_kappa (Fleiss_Kappa r)) results.
Proof.
  unfold analyze_agreement_by_question. revert results.
  induction fleiss_df as [|s l IH]; intros results; cbn [for_each].
  - intros [= <-]. constructor.
  - destruct (analyze_row s) as [r|] eqn:E; [|discriminate]. cbn [bind].
    destruct (for_each analyze_row l) as [rs|]; [|discriminate].
    cbn [bind]. intros [= <-]. constructor.
    + now apply analyze_row_copies in E.
    + now apply IH.
Qed.

Lemma len_where_label (mask : float -> bool) (label : string)
  (results : list KappaResult) :
  (forall x, mask x = String.eqb (interpret_fleiss_kappa x) label) ->
  Forall (fun r => Agreement_Level r
                   = interpret_fleiss_kappa (Fleiss_Kappa r)) results ->
  len_where mask (map Fleiss_Kappa results) = count_label label results.
Proof.
  intros Hm. unfold len_where, count_label.
  induction 1 as [|r l Hr _ IH]; cbn [map filter]; [reflexivity|].
  rewrite Hm, <- Hr. destruct (String.eqb _ _); cbn [length]; now rewrite IH.
Qed.

(** X13.  The six counts that [main] prints agree with the labels of
    the results: the count of each band is the number of results that
    carry the label of that band. *)
Theorem summary_statistics_counts_labels
  (fleiss_df : list QuestionSummary) (results : list KappaResult)
  (stats : Statistics) :
  analyze_agreement_by_question fleiss_df = Ok results ->
  summary_statistics results = inr stats ->
  n_almost_perfect stats = count_label "Almost perfect agreement" results /\
  n_substantial stats = count_label "Substantial agreement" results /\
  n_moderate stats = count_label "Moderate agreement" results /\
  n_fair stats = count_label "Fair agreement" results /\
  n_slight stats = count_label "Slight agreement" results /\
  n_poor stats = count_label "Poor agreement" results.
Proof.
  intros Ha Hs. apply analyze_labels in Ha.
  unfold summary_statistics, Fleiss_Kappa_column in Hs.
  destruct results as [|r0 rs]; [discriminate|].
  injection Hs as <-. cbn [n_almost_perfect n_substantial n_moderate n_fair
                           n_slight n_poor].
  change (Fleiss_Kappa r0 :: map Fleiss_Kappa rs)
    with (map Fleiss_Kappa (r0 :: rs)).
  repeat split; apply len_where_label; try exact Ha; intros x;
    apply (masks_label x).
Qed.

Lemma interpret_label_cases (x : float) :
  In (interpret_fleiss_kappa x)
     ["No data"; "Almost perfect agreement"; "Substantial agreement";
      "Moderate agreement"; "Fair agreement"; "Slight agreement";
      "Poor agreement"].
Proof.
  unfold interpret_fleiss_kappa.
  destruct (is_nan x), (fgeb x (FFin f64_0_81)), (fgeb x (FFin f64_0_61)),
    (fgeb x (FFin f64_0_41)), (fgeb x (FFin f64_0_21)), (fgeb x (FFin f64_0_01));
    cbn; tauto.
Qed.

(** Every kappa passes exactly one of the six masks or is
    not-a-number. *)
Lemma masks_partition (x : float) :
  (indicator (fgeb x (FFin f64_0_81))
   + indicator (fgeb x (FFin f64_0_61) && fltb x (FFin f64_0_81))
   + indicator (fgeb x (FFin f64_0_41) && fltb x (FFin f64_0_61))
   + indicator (fgeb x (FFin f64_0_21) && fltb x (FFin f64_0_41))
   + indicator (fgeb x (FFin f64_0_01) && fltb x (FFin f64_0_21))
   + indicator (fltb x (FFin f64_0_01))
   + indicator (is_nan x) = 1)%nat.
Proof.
  destruct (masks_label x) as (-> & -> & -> & -> & -> & -> & ->).
  pose proof (interpret_label_cases x) as H. cbn [In] in H.
  destruct H as [<-|[<-|[<-|[<-|[<-|[<-|[<-|[]]]]]]]]; reflexivity.
Qed.

Lemma len_where_cons (mask : float -> bool) (x : float) (l : list float) :
  len_where mask (x :: l) = (indicator (mask x) + len_where mask l)%nat.
Proof. unfold len_where. cbn [filter]. now destruct (mask x). Qed.

Lemma len_where_partition (kappa : list float) :
  (len_where (fun x => fgeb x (FFin f64_0_81)) kappa
   + len_where (fun x => fgeb x (FFin f64_0_61) && fltb x (FFin f64_0_81)) kappa
   + len_where (fun x => fgeb x (FFin f64_0_41) && fltb x (FFin f64_0_61)) kappa
   + len_where (fun x => fgeb x (FFin f64_0_21) && fltb x (FFin f64_0_41)) kappa
   + len_where (fun x => fgeb x (FFin f64_0_01) && fltb x (FFin f64_0_21)) kappa
   + len_where (fun x => fltb x (FFin f64_0_01)) kappa
   + len_where is_nan kappa
   = length kappa)%nat.
Proof.
  induction kappa as [|x l IH]; [reflexivity|].
  cbn [length]. rewrite !len_where_cons.
  pose proof (masks_partition x) as H. lia.
Qed.

(** X14.  The six counts that [main] prints and the number of
    questions without a kappa add up to the number of questions: no
    question is counted twice and none is left out. *)
Theorem summary_statistics_partition
  (results : list KappaResult) (stats : Statistics) :
  summary_statistics results = inr stats ->
  (n_almost_perfect stats + n_substantial stats + n_moderate stats
   + n_fair stats + n_slight stats + n_poor stats
   + len_where is_nan (map Fleiss_Kappa results)
   = total_questions stats)%nat.
Proof.
  unfold summary_statistics, Fleiss_Kappa_column.
  destruct results as [|r0 rs] eqn:E; [discriminate|]. rewrite <- E.
  intros [= <-]. cbn [n_almost_perfect n_substantial n_moderate n_fair
                      n_slight n_poor total_questions].
  rewrite len_where_partition. apply length_map.
Qed.

End Statistics.

(** * [main], from the table on *)

Section Main.

Import Spec Counts.

Lemma unique_nil_iff (l : list string) : unique l = [] <-> l = [].
Proof. destruct l; cbn; split; congruence. Qed.

Lemma Forall2_length_eq {A B : Type} (R : A -> B -> Prop)
  (l : list A) (l' : list B) :
  Forall2 R l l' -> length l = length l'.
Proof. induction 1; cbn; congruence. Qed.

(** X15.  On a table whose totals are not negative and below 2^20,
    [main] stops with [KeyError] on the kappa column exactly when the
    table has no row; otherwise it reports as many questions as the
    table has distinct ones. *)
Theorem main_report_key_error (df : list ResponseRecord) :
  (forall r, In r df -> (0 <= Total r < 2 ^ 20)%Z) ->
  (df = [] -> main_report df = inl (KeyError "Fleiss_Kappa")) /\
  (df <> [] ->
   exists results stats,
     main_report df = inr (results, stats) /\
     total_questions stats = length (unique (map Question df)) /\
     (0 < total_questions stats)%nat).
Proof.
  intros Hdf. split.
  - intros ->. reflexivity.
  - intros Hne. unfold main_report. rewrite prepare_data_ok.
    set (fleiss_df := map (summary_of df) (unique (map Question df))).
    assert (Hok : Forall summary_ok fleiss_df).
    { apply Forall_map, Forall_forall. intros q _. now apply summary_of_ok. }
    destruct (analyze_all_from_counts fleiss_df Hok) as (results & E & F).
    rewrite E. apply Forall2_length_eq in F.
    unfold fleiss_df in F. rewrite length_map in F.
    assert (Hpos : (0 < length (unique (map Question df)))%nat).
    { destruct (unique (map Question df)) eqn:Eu; [|cbn; lia].
      apply unique_nil_iff, map_eq_nil in Eu. contradiction. }
    unfold summary_statistics, Fleiss_Kappa_column.
    destruct results as [|r0 rs] eqn:Er; [cbn in F; lia|].
    rewrite <- Er in *.
    do 2 eexists. split; [reflexivity|]. cbn [total_questions].
    split; lia.
Qed.

Lemma series_mean_all_nan (kappa : list float) :
  Forall (fun x => x = FNaN) kappa -> series_mean kappa = FNaN.
Proof.
  intros H. unfold series_mean.
  assert (E : filter (fun x => negb (is_nan x)) kappa = []).
  { induction H as [|x l -> _ IH]; [reflexivity|]. cbn. exact IH. }
  rewrite E. reflexivity.
Qed.

Lemma len_where_all_nan (mask : float -> bool) (kappa : list float) :
  mask FNaN = false ->
  Forall (fun x => x = FNaN) kappa -> len_where mask kappa = 0%nat.
Proof.
  intros Hm. unfold len_where.
  induction 1 as [|x l -> _ IH]; [reflexivity|]. cbn [filter].
  now rewrite Hm.
Qed.

(** X16.  When the responses to every question are unanimous (or there
    is none), there is no average: the analysis goes through, the
    average kappa is not-a-number and the six counts are 0. *)
Theorem summary_statistics_all_unanimous (fleiss_df : list QuestionSummary) :
  fleiss_df <> [] ->
  Forall (fun s => summary_ok s /\
                   unanimous (Category_A s) (Category_B s) (Category_C s))
         fleiss_df ->
  exists results stats,
    analyze_agreement_by_question fleiss_df = Ok results /\
    summary_statistics results = inr stats /\
    average_kappa stats = FNaN /\
    n_almost_perfect stats = 0%nat /\ n_substantial stats = 0%nat /\
    n_moderate stats = 0%nat /\ n_fair stats = 0%nat /\
    n_slight stats = 0%nat /\ n_poor stats = 0%nat.
Proof.
  intros Hne Hall.
  assert (Hok : Forall summary_ok fleiss_df).
  { eapply Forall_impl; [|exact Hall]. cbn. tauto. }
  destruct (analyze_all_from_counts fleiss_df Hok) as (results & E & F).
  assert (Hnan : Forall (fun x => x = FNaN) (map Fleiss_Kappa results)).
  { clear E Hok Hne. induction F as [|s r l l' H _ IH]; [constructor|].
    inversion Hall as [|? ? [Hs Hu] Hall']; subst. cbn [map]. constructor.
    - rewrite (analyze_row_from_counts s Hs) in H. injection H as <-.
      cbn [Fleiss_Kappa]. destruct Hs as (Ha & Hb & Hc & _).
      now apply counts_kappa_unanimous.
    - now apply IH. }
  exists results. unfold summary_statistics, Fleiss_Kappa_column.
  destruct results as [|r0 rs] eqn:Er.
  { apply Forall2_length_eq in F. destruct fleiss_df; [congruence|].
    discriminate F. }
  rewrite <- Er in *. eexists. split; [exact E|]. split; [reflexivity|].
  cbn [average_kappa n_almost_perfect n_substantial n_moderate n_fair
       n_slight n_poor].
  split; [now apply series_mean_all_nan|].
  repeat split; now apply len_where_all_nan.
Qed.

End Main.
(** * Rounding to binary64 *)

Section Rounding.

Import Spec Counts Binary64.

Lemma Qred_inject_Z (z : Z) : Qred (inject_Z z) = inject_Z z.
Proof.
  unfold inject_Z, Qred.
  pose proof (Z.ggcd_gcd z 1) as Hg.
  pose proof (Z.ggcd_correct_divisors z 1) as Hd.
  destruct (Z.ggcd z 1) as [g [r1 r2]]. cbn [fst snd] in *.
  rewrite Z.gcd_1_r in Hg. subst g. destruct Hd as [H1 H2].
  rewrite Z.mul_1_l in H1, H2. subst. reflexivity.
Qed.

Lemma Qnum_qz (z : Z) : Qnum (qz z) = z.
Proof. unfold qz. cbn [this Q2Qc]. now rewrite Qred_inject_Z. Qed.

Lemma Qden_qz (z : Z) : Qden (qz z) = 1%positive.
Proof. unfold qz. cbn [this Q2Qc]. now rewrite Qred_inject_Z. Qed.

Lemma qz_compare (x y : Z) : (qz x ?= qz y) = (x ?= y)%Z.
Proof.
  unfold Qccompare, Qcompare. rewrite !Qnum_qz, !Qden_qz.
  now rewrite !Z.mul_1_r.
Qed.

(** ** The nearest integer *)

Lemma nearest_even_exact (m b : Z) :
  (0 < b)%Z -> nearest_even (m * b) b = m.
Proof.
  intros Hb. unfold nearest_even.
  rewrite Z.mod_mul, Z.div_mul by lia.
  change (2 * 0)%Z with 0%Z.
  now replace (0 ?= b)%Z with Lt by (symmetry; now apply Z.compare_lt_iff).
Qed.

Lemma nearest_even_floor (a b : Z) :
  (0 < b)%Z -> (a / b <= nearest_even a b <= a / b + 1)%Z.
Proof.
  intros Hb. unfold nearest_even.
  destruct (2 * (a mod b) ?= b)%Z; [destruct (Z.even (a / b))| |]; lia.
Qed.

(** Rounding does not cross a whole number. *)
Lemma nearest_even_le (a b k : Z) :
  (0 < b)%Z -> (a <= k * b)%Z -> (nearest_even a b <= k)%Z.
Proof.
  intros Hb H.
  assert (Hf : (a / b <= k)%Z).
  { apply Z.div_le_upper_bound; lia. }
  destruct (Z.eq_dec (a / b) k) as [E|E].
  - assert (Hm : (a mod b = 0)%Z).
    { pose proof (Z.div_mod a b ltac:(lia)) as D.
      pose proof (Z.mod_pos_bound a b Hb). nia. }
    unfold nearest_even. rewrite Hm. change (2 * 0)%Z with 0%Z.
    replace (0 ?= b)%Z with Lt by (symmetry; now apply Z.compare_lt_iff).
    lia.
  - pose proof (nearest_even_floor a b Hb). lia.
Qed.

Lemma nearest_even_ge (a b k : Z) :
  (0 < b)%Z -> (k * b <= a)%Z -> (k <= nearest_even a b)%Z.
Proof.
  intros Hb H.
  assert (Hf : (k <= a / b)%Z) by (apply Z.div_le_lower_bound; lia).
  pose proof (nearest_even_floor a b Hb). lia.
Qed.

(** ** The binary logarithm *)

Lemma pow2_le_spec (e a b : Z) :
  pow2_le e a b = true <->
  ((0 <= e /\ b * 2 ^ e <= a) \/ (e < 0 /\ b <= a * 2 ^ (- e)))%Z.
Proof.
  unfold pow2_le. destruct (Z.leb_spec 0 e).
  - rewrite Z.leb_le. intuition lia.
  - rewrite Z.leb_le. intuition lia.
Qed.

(** [2 ^ ilog2 <= a / b] *)
Lemma ilog2_le (a b : Z) :
  (0 < a)%Z -> (0 < b)%Z -> pow2_le (ilog2 a b) a b = true.
Proof.
  intros Ha Hb. unfold ilog2.
  destruct (pow2_le (Z.log2 a - Z.log2 b) a b) eqn:E; [exact E|].
  pose proof (Z.log2_spec a Ha) as [La Ua].
  pose proof (Z.log2_spec b Hb) as [Lb Ub].
  pose proof (Z.log2_nonneg a). pose proof (Z.log2_nonneg b).
  set (la := Z.log2 a) in *. set (lb := Z.log2 b) in *.
  apply pow2_le_spec.
  destruct (Z.le_gt_cases 0 (la - lb - 1)) as [D|D].
  - left. split; [lia|].
    assert (E2 : (2 ^ la = 2 ^ (lb + 1) * 2 ^ (la - lb - 1))%Z).
    { rewrite <- Z.pow_add_r by lia. f_equal. lia. }
    assert (0 < 2 ^ (la - lb - 1))%Z by (apply Z.pow_pos_nonneg; lia).
    nia.
  - right. split; [lia|].
    replace (- (la - lb - 1))%Z with (lb + 1 - la)%Z by lia.
    assert (E2 : (2 ^ (lb + 1) = 2 ^ la * 2 ^ (lb + 1 - la))%Z).
    { rewrite <- Z.pow_add_r by lia. f_equal. lia. }
    assert (0 < 2 ^ (lb + 1 - la))%Z by (apply Z.pow_pos_nonneg; lia).
    nia.
Qed.

(** A ratio under 1 has a negative logarithm. *)
Lemma ilog2_neg (a b : Z) :
  (0 < a)%Z -> (a < b)%Z -> (ilog2 a b <= -1)%Z.
Proof.
  intros Ha Hab. unfold ilog2.
  assert (D : (Z.log2 a - Z.log2 b <= 0)%Z).
  { pose proof (Z.log2_le_mono a b). lia. }
  destruct (pow2_le (Z.log2 a - Z.log2 b) a b) eqn:E; [|lia].
  apply pow2_le_spec in E. destruct E as [[E1 E2]|[E1 E2]]; [|lia].
  replace (Z.log2 a - Z.log2 b)%Z with 0%Z in E2 by lia.
  change (2 ^ 0)%Z with 1%Z in E2. lia.
Qed.

Lemma ilog2_le_0 (a b : Z) :
  (0 < a)%Z -> (a <= b)%Z -> (ilog2 a b <= 0)%Z.
Proof.
  intros Ha Hab. unfold ilog2.
  assert (D : (Z.log2 a - Z.log2 b <= 0)%Z).
  { pose proof (Z.log2_le_mono a b). lia. }
  destruct (pow2_le (Z.log2 a - Z.log2 b) a b); lia.
Qed.

Lemma ilog2_whole (z : Z) : (0 < z)%Z -> ilog2 z 1 = Z.log2 z.
Proof.
  intros Hz. unfold ilog2. change (Z.log2 1) with 0%Z. rewrite Z.sub_0_r.
  replace (pow2_le (Z.log2 z) z 1) with true; [reflexivity|].
  symmetry. apply pow2_le_spec. left.
  pose proof (Z.log2_spec z Hz). pose proof (Z.log2_nonneg z). lia.
Qed.

End Rounding.
Section RoundingValues.

Import Spec Counts Tally Binary64.

Lemma pow2_pos (s : Z) : (0 <= s)%Z -> (0 < 2 ^ s)%Z.
Proof. intros. apply Z.pow_pos_nonneg; lia. Qed.

Lemma pow2_split (s t : Z) :
  (0 <= t <= s)%Z -> (2 ^ s = 2 ^ t * 2 ^ (s - t))%Z.
Proof. intros H. rewrite <- Z.pow_add_r by lia. f_equal. lia. Qed.

Lemma scale_neg (m s : Z) :
  (0 < s)%Z -> scale m (- s) = Q2Qc (Qmake m (Z.to_pos (2 ^ s))).
Proof.
  intros Hs. unfold scale.
  replace (0 <=? - s)%Z with false by (symmetry; apply Z.leb_gt; lia).
  now rewrite Z.opp_involutive.
Qed.

Lemma scale_whole (z s : Z) :
  (0 < s)%Z -> scale (z * 2 ^ s) (- s) = qz z.
Proof.
  intros Hs. rewrite scale_neg by exact Hs. unfold qz.
  apply Q2Qc_eq_iff. unfold Qeq, inject_Z. cbn [Qnum Qden].
  rewrite Z2Pos.id by (apply pow2_pos; lia). lia.
Qed.

Lemma huge_large (z : Z) : (z <= 2 ^ 53)%Z -> (huge <=? z)%Z = false.
Proof.
  intros H. apply Z.leb_gt.
  assert (L : (2 ^ 53 < huge)%Z) by (vm_compute; reflexivity).
  lia.
Qed.

Lemma log2_small (z : Z) : (0 < z <= 2 ^ 53)%Z -> (0 <= Z.log2 z <= 53)%Z.
Proof.
  intros H. split; [apply Z.log2_nonneg|].
  change 53%Z with (Z.log2 (2 ^ 53)). apply Z.log2_le_mono. lia.
Qed.

Lemma nearest_even_whole (z : Z) : nearest_even z 1 = z.
Proof.
  rewrite <- (Z.mul_1_r z) at 1. apply nearest_even_exact. lia.
Qed.

(** The whole numbers up to [2 ^ 53] are [float64] numbers. *)
Lemma rnd_whole (z : Z) :
  (0 <= z <= exact_max)%Z -> rnd (qz z) = FFin (qz z).
Proof.
  unfold exact_max. intros Hz. unfold rnd.
  change 0 with (qz 0). rewrite qz_compare.
  destruct (Z.compare_spec z 0) as [E|L|G]; [now subst|lia|].
  rewrite Qnum_qz, Qden_qz.
  destruct (Z.eq_dec z (2 ^ 53)) as [E|NE].
  { subst z. vm_compute. f_equal. }
  unfold round_pos, significand, last_bit. rewrite ilog2_whole by lia.
  pose proof (log2_small z ltac:(lia)) as HL.
  pose proof (Z.log2_spec z ltac:(lia)) as [Lo Up].
  assert (HL' : (Z.log2 z <= 52)%Z).
  { destruct (Z.eq_dec (Z.log2 z) 53) as [E|E]; [|lia].
    rewrite E in Lo. lia. }
  set (L := Z.log2 z) in *. unfold prec, emin.
  replace (Z.max (L - (53 - 1)) (-1074)) with (L - 52)%Z by lia.
  destruct (Z.eq_dec L 52) as [E|E].
  - rewrite E. change (52 - 52)%Z with 0%Z. cbn [Z.leb Z.compare].
    change (2 ^ 0)%Z with 1%Z. change (1 * 1)%Z with 1%Z.
    rewrite nearest_even_whole, Z.mul_1_r, huge_large by lia. cbn [andb].
    unfold scale. cbn [Z.leb Z.compare]. change (2 ^ 0)%Z with 1%Z.
    now rewrite Z.mul_1_r.
  - replace (0 <=? L - 52)%Z with false by (symmetry; apply Z.leb_gt; lia).
    cbn [andb].
    replace (z * 2 ^ (- (L - 52)))%Z with (z * 2 ^ (52 - L) * 1)%Z
      by (rewrite Z.mul_1_r; do 2 f_equal; lia).
    rewrite nearest_even_exact by lia.
    replace (L - 52)%Z with (- (52 - L))%Z by lia.
    now rewrite scale_whole by lia.
Qed.

Lemma round_pos_not_nan (a b : Z) : round_pos a b <> FNaN.
Proof. unfold round_pos. now destruct (_ && _). Qed.

Lemma rnd_not_nan (q : Qc) : rnd q <> FNaN.
Proof.
  unfold rnd. destruct (q ?= 0); [discriminate| |apply round_pos_not_nan].
  pose proof (round_pos_not_nan (- Qnum q) (Zpos (Qden q))) as H.
  destruct (round_pos _ _) as [r| |s|]; cbn [fneg]; try easy.
  now destruct (Qc_eqb r 0).
Qed.

Lemma round_not_nan (x : float) : x <> FNaN -> round x <> FNaN.
Proof. destruct x; cbn [round]; auto using rnd_not_nan. Qed.

Lemma Qc_pos_num (q : Qc) : 0 < q -> (0 < Qnum q)%Z.
Proof.
  unfold Qclt, Qlt. cbn. rewrite Z.mul_1_r. auto.
Qed.

Lemma Qc_le_scale (q : Qc) (m s : Z) :
  (0 < s)%Z ->
  q <= scale m (- s) -> (Qnum q * 2 ^ s <= m * Zpos (Qden q))%Z.
Proof.
  intros Hs. rewrite scale_neg by exact Hs.
  unfold Qcle. cbn [this Q2Qc]. rewrite Qred_correct.
  unfold Qle. cbn [Qnum Qden].
  now rewrite Z2Pos.id by (apply pow2_pos; lia).
Qed.

Lemma scale_le_Qc (q : Qc) (m s : Z) :
  (0 < s)%Z ->
  scale m (- s) <= q -> (m * Zpos (Qden q) <= Qnum q * 2 ^ s)%Z.
Proof.
  intros Hs. rewrite scale_neg by exact Hs.
  unfold Qcle. cbn [this Q2Qc]. rewrite Qred_correct.
  unfold Qle. cbn [Qnum Qden].
  now rewrite Z2Pos.id by (apply pow2_pos; lia).
Qed.

Lemma scale_le (m m' s s' : Z) :
  (0 < s)%Z -> (0 < s')%Z -> (m * 2 ^ s' <= m' * 2 ^ s)%Z ->
  scale m (- s) <= scale m' (- s').
Proof.
  intros Hs Hs' H. rewrite !scale_neg by assumption.
  unfold Qcle. cbn [this Q2Qc]. rewrite !Qred_correct.
  unfold Qle. cbn [Qnum Qden].
  now rewrite !Z2Pos.id by (apply pow2_pos; lia).
Qed.

Lemma scale_nonneg (m s : Z) : (0 < s)%Z -> (0 <= m)%Z -> 0 <= scale m (- s).
Proof.
  intros Hs Hm. rewrite scale_neg by exact Hs.
  unfold Qcle. cbn [this Q2Qc]. rewrite !Qred_correct.
  unfold Qle. cbn [Qnum Qden]. lia.
Qed.

Lemma scale_pos (m s : Z) : (0 < s)%Z -> (0 < m)%Z -> 0 < scale m (- s).
Proof.
  intros Hs Hm. rewrite scale_neg by exact Hs.
  unfold Qclt. cbn [this Q2Qc]. rewrite !Qred_correct.
  unfold Qlt. cbn [Qnum Qden]. lia.
Qed.

(** What lies under the [float64] before 1 stays there. *)
Lemma rnd_below_one (q : Qc) :
  0 < q -> q <= below_one ->
  exists r, rnd q = FFin r /\ 0 <= r /\ r <= below_one.
Proof.
  intros Hq Hle. unfold rnd.
  replace (q ?= 0) with Gt by (symmetry; now apply Qcgt_alt).
  pose proof (Qc_pos_num q Hq) as Ha.
  unfold below_one in Hle.
  pose proof (Qc_le_scale q _ 53 ltac:(lia) Hle) as Hab.
  set (a := Qnum q) in *. set (b := Zpos (Qden q)) in *.
  assert (Hb : (0 < b)%Z) by (unfold b; lia).
  assert (Hlt : (a < b)%Z).
  { assert (0 < 2 ^ 53)%Z by (apply pow2_pos; lia). nia. }
  pose proof (ilog2_neg a b Ha Hlt) as HL.
  unfold round_pos, significand.
  assert (He : (emin <= last_bit a b <= -53)%Z).
  { unfold last_bit, prec, emin. lia. }
  set (e := last_bit a b) in *. unfold emin in He.
  replace (0 <=? e)%Z with false by (symmetry; apply Z.leb_gt; lia).
  cbn [andb]. eexists. split; [reflexivity|].
  replace e with (- (- e))%Z by lia. set (s := (- e)%Z) in *.
  rewrite Z.opp_involutive.
  assert (Hp : (0 < 2 ^ s)%Z) by (apply pow2_pos; lia).
  split.
  - apply scale_nonneg; [lia|].
    apply nearest_even_ge; [exact Hb|nia].
  - unfold below_one. apply (scale_le _ (2 ^ 53 - 1) s 53); [lia|lia|].
    assert (Hk : (nearest_even (a * 2 ^ s) b
                  <= (2 ^ 53 - 1) * 2 ^ (s - 53))%Z).
    { apply nearest_even_le; [exact Hb|].
      rewrite (pow2_split s 53) by lia.
      assert (0 < 2 ^ (s - 53))%Z by (apply pow2_pos; lia). nia. }
    rewrite (pow2_split s 53) at 2 by lia.
    assert (0 < 2 ^ 53)%Z by (apply pow2_pos; lia). nia.
Qed.

(** What lies between half the last bit of 1 and 1 does not round to
    zero. *)
Lemma rnd_positive (q : Qc) :
  half_ulp <= q -> q <= 1 ->
  exists r, rnd q = FFin r /\ 0 < r.
Proof.
  intros Hlo Hhi.
  assert (Hq : 0 < q).
  { apply Qclt_le_trans with half_ulp; [|exact Hlo]. reflexivity. }
  unfold rnd.
  replace (q ?= 0) with Gt by (symmetry; now apply Qcgt_alt).
  pose proof (Qc_pos_num q Hq) as Ha.
  unfold half_ulp in Hlo.
  pose proof (scale_le_Qc q _ 53 ltac:(lia) Hlo) as Hab.
  assert (Hle : (Qnum q <= Zpos (Qden q))%Z).
  { revert Hhi. unfold Qcle, Qle. cbn. lia. }
  set (a := Qnum q) in *. set (b := Zpos (Qden q)) in *.
  assert (Hb : (0 < b)%Z) by (unfold b; lia).
  pose proof (ilog2_le_0 a b Ha Hle) as HL.
  pose proof (ilog2_le a b Ha Hb) as HS.
  unfold round_pos, significand.
  assert (He : (emin <= last_bit a b <= -52)%Z).
  { unfold last_bit, prec, emin. lia. }
  assert (Hm : (b <= a * 2 ^ (- last_bit a b))%Z).
  { unfold last_bit, prec, emin in *.
    destruct (Z.max_spec (ilog2 a b - (53 - 1)) (-1074)) as [[_ E]|[_ E]];
      rewrite E.
    - change (- -1074)%Z with 1074%Z.
      rewrite (pow2_split 1074 53) by lia.
      assert (0 < 2 ^ (1074 - 53))%Z by (apply pow2_pos; lia).
      assert (0 < 2 ^ 53)%Z by (apply pow2_pos; lia). nia.
    - apply pow2_le_spec in HS.
      set (L := ilog2 a b) in *.
      replace (- (L - (53 - 1)))%Z with (52 - L)%Z by lia.
      rewrite (pow2_split (52 - L) (- L)) by lia.
      replace (52 - L - - L)%Z with 52%Z by lia.
      assert (0 < 2 ^ 52)%Z by (apply pow2_pos; lia).
      assert (0 < 2 ^ (- L))%Z by (apply pow2_pos; lia).
      destruct HS as [[HL0 HS]|[HL0 HS]].
      + replace L with 0%Z in * by lia. change (2 ^ 0)%Z with 1%Z in HS.
        change (2 ^ (- 0))%Z with 1%Z. nia.
      + nia. }
  set (e := last_bit a b) in *. unfold emin in He.
  replace (0 <=? e)%Z with false by (symmetry; apply Z.leb_gt; lia).
  cbn [andb]. eexists. split; [reflexivity|].
  replace e with (- (- e))%Z at 2 by lia.
  apply scale_pos; [lia|].
  assert (1 <= nearest_even (a * 2 ^ (- e)) b)%Z; [|lia].
  apply nearest_even_ge; [exact Hb|lia].
Qed.

End RoundingValues.
(** * The engine on matrices of counts

    The sums of whole numbers stay whole: up to [2 ^ 53] nothing is
    rounded, in whatever order the numbers are added. *)

Section CountArithmetic.

Import Spec Counts Tally Binary64.

Lemma of_Z_qz (z : Z) : of_Z z = FFin (qz z).
Proof. reflexivity. Qed.

Lemma qz_nonneg (z : Z) : (0 <= z)%Z -> 0 <= qz z.
Proof. intros H. change 0 with (qz 0). now apply qz_le. Qed.

Lemma qz_le_inv (x y : Z) : qz x <= qz y -> (x <= y)%Z.
Proof.
  intros H. destruct (Z.le_gt_cases x y) as [L|L]; [exact L|].
  apply qz_lt in L. exfalso. exact (Qcle_not_lt _ _ H L).
Qed.

Lemma Qc_eqb_qz (x y : Z) : Qc_eqb (qz x) (qz y) = (x =? y)%Z.
Proof.
  unfold Qc_eqb. rewrite qz_compare.
  destruct (Z.compare_spec x y) as [E|L|L]; symmetry;
    [now apply Z.eqb_eq|apply Z.eqb_neq; lia|apply Z.eqb_neq; lia].
Qed.

Lemma round_count (z : Z) :
  (0 <= z <= exact_max)%Z -> round (of_Z z) = of_Z z.
Proof. intros H. rewrite of_Z_qz. cbn [round]. now apply rnd_whole. Qed.

Lemma add_counts (a b : Z) :
  (0 <= a)%Z -> (0 <= b)%Z -> (a + b <= exact_max)%Z ->
  add (of_Z a) (of_Z b) = of_Z (a + b).
Proof.
  intros Ha Hb H. unfold add. rewrite fadd_of_Z.
  apply round_count. lia.
Qed.

Lemma mul_counts (a b : Z) :
  (0 <= a)%Z -> (0 <= b)%Z -> (a * b <= exact_max)%Z ->
  mul (of_Z a) (of_Z b) = of_Z (a * b).
Proof.
  intros Ha Hb H. unfold mul. rewrite !of_Z_qz.
  rewrite fmul_fin by now apply qz_nonneg.
  rewrite <- qz_mul. apply (round_count (a * b)). nia.
Qed.

Lemma div_counts (a b : Z) :
  (0 <= a)%Z -> (0 < b)%Z ->
  div (of_Z a) (of_Z b) = rnd (qz a / qz b).
Proof.
  intros Ha Hb. unfold div. rewrite !of_Z_qz.
  rewrite fdiv_fin; [reflexivity|now apply qz_pos_neq|].
  intros _. change 0 with (qz 0). now apply qz_lt.
Qed.

Lemma div_by_zero (a : Z) :
  (0 < a)%Z -> div (of_Z a) (of_Z 0) = FInf false.
Proof.
  intros Ha. unfold div, fdiv. rewrite !of_Z_qz.
  cbn [is_zero qval fsign]. change (Q2Qc 0) with (qz 0).
  rewrite !Qc_eqb_qz.
  replace (a =? 0)%Z with false by (symmetry; apply Z.eqb_neq; lia).
  cbn [Z.eqb]. unfold Qc_ltb. rewrite !qz_compare.
  replace (a ?= 0)%Z with Gt by (symmetry; apply Z.compare_gt_iff; lia).
  reflexivity.
Qed.

(** ** Sums of whole numbers *)

Lemma zsum_nonneg (l : list Z) :
  Forall (fun z => 0 <= z)%Z l -> (0 <= zsum l)%Z.
Proof. induction 1; simpl; lia. Qed.

Lemma zsum_app (l l' : list Z) : zsum (l ++ l') = (zsum l + zsum l')%Z.
Proof. induction l; simpl; lia. Qed.

Lemma zsum_In (l : list Z) (z : Z) :
  Forall (fun z => 0 <= z)%Z l -> In z l -> (z <= zsum l)%Z.
Proof.
  induction 1 as [|x l Hx Hl IH]; simpl; [easy|].
  pose proof (zsum_nonneg l Hl). intros [->|H']; [lia|].
  specialize (IH H'). lia.
Qed.

Lemma zsum_squares_le (l : list Z) :
  Forall (fun z => 0 <= z)%Z l ->
  (0 <= zsum (map zsq l) <= zsum l * zsum l)%Z.
Proof.
  induction 1 as [|x l Hx Hl IH]; [cbv; intuition discriminate|].
  pose proof (zsum_nonneg l Hl). cbn [map zsum fold_right] in *.
  fold (zsum l) in *. fold (zsum (map zsq l)) in *.
  assert (E : zsq x = (x * x)%Z) by reflexivity. rewrite E.
  set (t := zsum (map zsq l)) in *. set (u := zsum l) in *. nia.
Qed.

Lemma zsum_permutation (l l' : list Z) :
  Permutation l l' -> zsum l = zsum l'.
Proof. induction 1; simpl; lia. Qed.

Lemma concat_nonneg (zr : list (list Z)) :
  Forall (Forall (fun z => 0 <= z)%Z) zr ->
  Forall (fun z => 0 <= z)%Z (concat zr).
Proof.
  induction 1; simpl; [constructor|]. now apply Forall_app.
Qed.

Lemma fold_add_counts (l : list Z) (z : Z) :
  Forall (fun z => 0 <= z)%Z l -> (0 <= z)%Z ->
  (z + zsum l <= exact_max)%Z ->
  fold_left add (map of_Z l) (of_Z z) = of_Z (z + zsum l).
Proof.
  intros H. revert z. induction H as [|x l Hx Hl IH]; intros z Hz Hb; simpl.
  - now rewrite Z.add_0_r.
  - simpl in Hb. pose proof (zsum_nonneg l Hl).
    rewrite add_counts by lia. rewrite IH by lia. f_equal. lia.
Qed.

Lemma vec_sum_counts (l : list Z) :
  Forall (fun z => 0 <= z)%Z l -> (zsum l <= exact_max)%Z ->
  Binary64.vec_sum (map of_Z l) = of_Z (zsum l).
Proof.
  intros H Hb. unfold Binary64.vec_sum.
  change (FFin 0) with (of_Z 0). now rewrite fold_add_counts by (auto; lia).
Qed.

Lemma vec_pow2_counts (l : list Z) :
  Forall (fun z => 0 <= z /\ z * z <= exact_max)%Z l ->
  Binary64.vec_pow2 (map of_Z l) = map of_Z (map zsq l).
Proof.
  unfold Binary64.vec_pow2, pow2.
  induction 1 as [|x l [Hx Hb] _ IH]; simpl; [reflexivity|].
  rewrite IH. f_equal. now apply mul_counts.
Qed.

(** ** Column sums *)

Lemma zvec_add_Forall (Q : Z -> Prop) (b c : Z) (u v : list Z) :
  (forall x y, (0 <= x /\ x <= b)%Z -> (0 <= y /\ y <= c)%Z -> Q (x + y)%Z) ->
  Forall (fun x => 0 <= x /\ x <= b)%Z u ->
  Forall (fun y => 0 <= y /\ y <= c)%Z v ->
  Forall Q (zvec_add u v).
Proof.
  intros HQ Hu. revert v. induction Hu as [|x u Hx _ IH]; intros v Hv.
  - constructor.
  - destruct Hv as [|y v Hy Hv]; simpl; constructor; auto.
Qed.

Lemma Forall_le_zsum (l : list Z) :
  Forall (fun z => 0 <= z)%Z l ->
  Forall (fun z => 0 <= z /\ z <= zsum l)%Z l.
Proof.
  intros H. apply Forall_forall. intros z Hz. split.
  - now apply (proj1 (Forall_forall _ _) H).
  - now apply zsum_In.
Qed.

Lemma Forall_bound_weaken (b b' : Z) (l : list Z) :
  (b <= b')%Z ->
  Forall (fun z => 0 <= z /\ z <= b)%Z l ->
  Forall (fun z => 0 <= z /\ z <= b')%Z l.
Proof.
  intros Hb. apply Forall_impl. intros z. lia.
Qed.

Lemma vec_add_counts (u v : list Z) (b c : Z) :
  (b + c <= exact_max)%Z ->
  Forall (fun x => 0 <= x /\ x <= b)%Z u ->
  Forall (fun y => 0 <= y /\ y <= c)%Z v ->
  Binary64.vec_add (map of_Z u) (map of_Z v) = map of_Z (zvec_add u v).
Proof.
  intros Hb Hu. revert v. induction Hu as [|x u Hx _ IH]; intros v Hv.
  - reflexivity.
  - destruct Hv as [|y v Hy Hv]; simpl; [reflexivity|].
    rewrite IH by exact Hv. f_equal. apply add_counts; lia.
Qed.

Lemma fold_vec_add_counts (zr : list (list Z)) (acc : list Z) (b : Z) :
  Forall (Forall (fun z => 0 <= z)%Z) zr ->
  Forall (fun x => 0 <= x /\ x <= b)%Z acc ->
  (b + total zr <= exact_max)%Z ->
  fold_left Binary64.vec_add (map (map of_Z) zr) (map of_Z acc)
  = map of_Z (fold_left zvec_add zr acc).
Proof.
  intros H. revert acc b.
  induction H as [|r zr Hr Hzr IH]; intros acc b Hacc Hb; simpl.
  - reflexivity.
  - unfold total in Hb. simpl in Hb. rewrite zsum_app in Hb.
    fold (total zr) in Hb.
    pose proof (zsum_nonneg _ (concat_nonneg zr Hzr)) as Ht.
    fold (total zr) in Ht.
    pose proof (Forall_le_zsum r Hr) as Hr'.
    rewrite (vec_add_counts acc r b (zsum r)) by (auto; lia).
    apply (IH _ (b + zsum r)%Z); [|lia].
    apply (zvec_add_Forall _ b (zsum r)); auto. intros; lia.
Qed.

Lemma zvec_add_nonneg (u v : list Z) :
  Forall (fun z => 0 <= z)%Z u -> Forall (fun z => 0 <= z)%Z v ->
  Forall (fun z => 0 <= z)%Z (zvec_add u v) /\
  (zsum (zvec_add u v) <= zsum u + zsum v)%Z.
Proof.
  intros Hu. revert v. induction Hu as [|x u Hx Hu IH]; intros v Hv.
  - simpl. split; [constructor|]. pose proof (zsum_nonneg v Hv). lia.
  - destruct Hv as [|y v Hy Hv]; simpl.
    + split; [constructor|]. pose proof (zsum_nonneg u Hu). lia.
    + destruct (IH v Hv) as [IH1 IH2]. split; [constructor; [lia|auto]|lia].
Qed.

Lemma fold_zvec_add_nonneg (zr : list (list Z)) (acc : list Z) :
  Forall (Forall (fun z => 0 <= z)%Z) zr ->
  Forall (fun z => 0 <= z)%Z acc ->
  Forall (fun z => 0 <= z)%Z (fold_left zvec_add zr acc) /\
  (zsum (fold_left zvec_add zr acc) <= zsum acc + total zr)%Z.
Proof.
  intros H. revert acc. induction H as [|r zr Hr _ IH]; intros acc Hacc.
  - simpl. split; [exact Hacc|]. unfold total. simpl. lia.
  - simpl. destruct (zvec_add_nonneg acc r Hacc Hr) as [H1 H2].
    destruct (IH _ H1) as [H3 H4]. split; [exact H3|].
    unfold total in *. simpl. rewrite zsum_app. lia.
Qed.

Lemma repeat_zero_bound (k : nat) :
  Forall (fun x => 0 <= x /\ x <= 0)%Z (repeat 0%Z k).
Proof. apply Forall_forall. intros x Hx. apply repeat_spec in Hx. lia. Qed.

Lemma zsum_repeat_zero (k : nat) : zsum (repeat 0%Z k) = 0%Z.
Proof. induction k; simpl; lia. Qed.

Lemma columns_nonneg (k : nat) (zr : list (list Z)) :
  Forall (Forall (fun z => 0 <= z)%Z) zr ->
  Forall (fun z => 0 <= z)%Z (columns k zr) /\
  (zsum (columns k zr) <= total zr)%Z.
Proof.
  intros H. unfold columns.
  destruct (fold_zvec_add_nonneg zr (repeat 0%Z k) H) as [H1 H2].
  - eapply Forall_impl; [|apply repeat_zero_bound]. intros x. cbv beta. lia.
  - rewrite zsum_repeat_zero in H2. auto.
Qed.

End CountArithmetic.
Section CountMatrix.

Import Spec Counts Tally Binary64.

Lemma whole_of_Z (z : Z) : whole (of_Z z) = z.
Proof. unfold whole. rewrite of_Z_qz. cbn [qval]. apply Qnum_qz. Qed.

Lemma count_whole (x : float) :
  count x -> x = of_Z (whole x) /\ (0 <= whole x)%Z.
Proof. intros [z [Hz ->]]. now rewrite whole_of_Z. Qed.

Lemma counts_row (r : list float) :
  Forall count r ->
  r = map of_Z (map whole r) /\ Forall (fun z => 0 <= z)%Z (map whole r).
Proof.
  induction 1 as [|x r Hx _ [IH1 IH2]]; simpl; [auto|].
  destruct (count_whole x Hx) as [E H0]. split.
  - now rewrite <- E, <- IH1.
  - now constructor.
Qed.

Lemma counts_rows (rs : list (list float)) :
  Forall (Forall count) rs ->
  rs = map (map of_Z) (map (map whole) rs) /\
  Forall (Forall (fun z => 0 <= z)%Z) (map (map whole) rs).
Proof.
  induction 1 as [|r rs Hr _ [IH1 IH2]]; simpl; [auto|].
  destruct (counts_row r Hr) as [E H0]. split.
  - now rewrite <- E, <- IH1.
  - now constructor.
Qed.

(** A matrix of whole numbers whose sum [T] has [T * T <= 2 ^ 53]. *)

Variable zr : list (list Z).
Variables n k : nat.
Hypothesis Hnn : Forall (Forall (fun z => 0 <= z)%Z) zr.
Hypothesis Hsmall : (total zr * total zr <= exact_max)%Z.

Let M : ndarray := mk_ndarray n k (map (map of_Z) zr).

Lemma total_nonneg : (0 <= total zr)%Z.
Proof. apply zsum_nonneg, concat_nonneg, Hnn. Qed.

Lemma total_small : (total zr <= exact_max)%Z.
Proof. pose proof total_nonneg. nia. Qed.

Lemma entries_small :
  Forall (Forall (fun z => 0 <= z /\ z * z <= exact_max)%Z) zr.
Proof.
  apply Forall_forall. intros r Hr. apply Forall_forall. intros z Hz.
  assert (Hin : In z (concat zr)).
  { apply in_concat. exists r. auto. }
  pose proof (concat_nonneg zr Hnn) as Hc.
  pose proof (zsum_In _ z Hc Hin) as Hle. fold (total zr) in Hle.
  pose proof (proj1 (Forall_forall _ _) Hc z Hin) as H0.
  cbv beta in H0. split; [exact H0|nia].
Qed.

Lemma squares_small : (0 <= squares zr <= total zr * total zr)%Z.
Proof. apply zsum_squares_le, concat_nonneg, Hnn. Qed.

Lemma nd_sum_counts : Binary64.nd_sum M = of_Z (total zr).
Proof.
  unfold Binary64.nd_sum, M. cbn [rows]. rewrite <- concat_map.
  apply vec_sum_counts; [apply concat_nonneg, Hnn|apply total_small].
Qed.

Lemma nd_pow2_counts :
  Binary64.nd_pow2 M = mk_ndarray n k (map (map of_Z) (map (map zsq) zr)).
Proof.
  unfold Binary64.nd_pow2, M. cbn [rows shape0 shape1]. f_equal.
  rewrite !map_map. apply map_ext_in. intros r Hr.
  apply vec_pow2_counts.
  exact (proj1 (Forall_forall _ _) entries_small r Hr).
Qed.

Lemma nd_sum_pow2_counts :
  Binary64.nd_sum (Binary64.nd_pow2 M) = of_Z (squares zr).
Proof.
  rewrite nd_pow2_counts. unfold Binary64.nd_sum. cbn [rows].
  rewrite <- !concat_map.
  pose proof squares_small as Hs. unfold squares in *.
  apply vec_sum_counts; [|lia].
  apply Forall_map. apply Forall_forall. intros z _. unfold zsq. nia.
Qed.

Lemma nd_sum_axis0_counts :
  Binary64.nd_sum_axis0 M = map of_Z (columns k zr).
Proof.
  unfold Binary64.nd_sum_axis0, M, columns. cbn [rows shape1].
  replace (repeat (FFin 0) k) with (map of_Z (repeat 0%Z k))
    by (now rewrite map_repeat).
  apply (fold_vec_add_counts zr _ 0); [exact Hnn|apply repeat_zero_bound|].
  pose proof total_small. lia.
Qed.

Lemma columns_small :
  Forall (fun z => 0 <= z /\ z * z <= exact_max)%Z (columns k zr).
Proof.
  destruct (columns_nonneg k zr Hnn) as [H0 Hle].
  apply Forall_forall. intros z Hz.
  pose proof (zsum_In _ z H0 Hz).
  pose proof (proj1 (Forall_forall _ _) H0 z Hz) as Hz0. cbv beta in Hz0.
  split; [exact Hz0|nia].
Qed.

Lemma column_squares_small :
  (0 <= zsum (map zsq (columns k zr)) <= total zr * total zr)%Z.
Proof.
  destruct (columns_nonneg k zr Hnn) as [H0 Hle].
  pose proof (zsum_squares_le _ H0). pose proof (zsum_nonneg _ H0). nia.
Qed.

Lemma column_squares_counts :
  Binary64.vec_sum (Binary64.vec_pow2 (Binary64.nd_sum_axis0 M))
  = of_Z (zsum (map zsq (columns k zr))).
Proof.
  rewrite nd_sum_axis0_counts, vec_pow2_counts by apply columns_small.
  pose proof column_squares_small.
  apply vec_sum_counts; [|lia].
  apply Forall_map. apply Forall_forall. intros z _. unfold zsq. nia.
Qed.

(** The engine on [M]: only the divisions and the two differences are
    rounded. *)
Lemma calculate_counts :
  (0 < n)%nat -> (0 < k)%nat ->
  (total zr * (Z.of_nat n - 1) <= exact_max)%Z ->
  Binary64.calculate_fleiss_kappa M
  = kappa_of_sums (Z.of_nat n) (total zr) (squares zr)
      (zsum (map zsq (columns k zr))).
Proof.
  intros Hn Hk Hd. unfold Binary64.calculate_fleiss_kappa.
  unfold Binary64.observed_agreement, Binary64.expected_agreement.
  unfold Binary64.total_ratings, scalar_sum.
  rewrite column_squares_counts, nd_sum_pow2_counts, nd_sum_counts.
  unfold M at 1 2 3. cbn [shape0 shape1].
  replace (n =? 0)%nat with false by (symmetry; apply Nat.eqb_neq; lia).
  replace (k =? 0)%nat with false by (symmetry; apply Nat.eqb_neq; lia).
  cbn [orb]. unfold kappa_of_sums.
  rewrite !of_Z_qz, feqb_fin, Qc_eqb_qz, <- !of_Z_qz.
  destruct (total zr =? 0)%Z; [reflexivity|].
  pose proof total_nonneg.
  unfold pow2. rewrite !mul_counts by lia. reflexivity.
Qed.

End CountMatrix.
(** ** The sums of the engine and those of the specification *)

Section SpecSums.

Import Spec Counts Tally.

Lemma count_nonneg (x : float) : count x -> nonneg x.
Proof.
  intros [z [Hz ->]]. exists (qz z). split; [reflexivity|].
  now apply qz_nonneg.
Qed.

Lemma counts_nonneg (rs : list (list float)) :
  Forall (Forall count) rs -> Forall (Forall nonneg) rs.
Proof.
  apply Forall_impl. intros r. apply Forall_impl. exact count_nonneg.
Qed.

Lemma Qc_sum_qz (l : list Z) : Qc_sum (map qz l) = qz (zsum l).
Proof.
  induction l as [|z l IH]; [reflexivity|].
  cbn [map Qc_sum fold_right zsum]. fold (Qc_sum (map qz l)).
  fold (zsum l). now rewrite IH, qz_add.
Qed.

Lemma sq_qz (z : Z) : sq (qz z) = qz (zsq z).
Proof. unfold sq, zsq. now rewrite qz_mul. Qed.

Lemma entries_counts (n k : nat) (zr : list (list Z)) :
  entries (mk_ndarray n k (map (map of_Z) zr)) = map (map qz) zr.
Proof.
  unfold entries. cbn [rows]. rewrite map_map. apply map_ext.
  intros r. rewrite map_map. now apply map_ext.
Qed.

Lemma N_counts (n k : nat) (zr : list (list Z)) :
  N (mk_ndarray n k (map (map of_Z) zr)) = qz (total zr).
Proof.
  unfold N. rewrite entries_counts. unfold total.
  induction zr as [|r zr IH]; [reflexivity|].
  cbn [map concat Qc_sum fold_right]. fold (Qc_sum (map Qc_sum (map (map qz) zr))).
  now rewrite IH, zsum_app, qz_add, Qc_sum_qz.
Qed.

Lemma sum_squares_counts (n k : nat) (zr : list (list Z)) :
  sum_squares (mk_ndarray n k (map (map of_Z) zr)) = qz (squares zr).
Proof.
  unfold sum_squares. rewrite entries_counts. unfold squares.
  induction zr as [|r zr IH]; [reflexivity|].
  cbn [map concat Qc_sum fold_right].
  fold (Qc_sum (map (fun r => Qc_sum (map sq r)) (map (map qz) zr))).
  rewrite IH, map_app, zsum_app, qz_add. f_equal.
  rewrite map_map. rewrite (map_ext _ (fun z => qz (zsq z))) by apply sq_qz.
  rewrite <- (map_map zsq qz). apply Qc_sum_qz.
Qed.

Lemma exact_vec_add_counts (u v : list Z) :
  vec_add (map of_Z u) (map of_Z v) = map of_Z (zvec_add u v).
Proof.
  revert v. induction u as [|x u IH]; intros [|y v];
    cbn [map vec_add zvec_add]; try reflexivity.
  now rewrite IH, fadd_of_Z.
Qed.

Lemma exact_fold_vec_add_counts (zr : list (list Z)) (acc : list Z) :
  fold_left vec_add (map (map of_Z) zr) (map of_Z acc)
  = map of_Z (fold_left zvec_add zr acc).
Proof.
  revert acc. induction zr as [|r zr IH]; intros acc;
    cbn [map fold_left]; [reflexivity|].
  now rewrite exact_vec_add_counts, IH.
Qed.

Lemma col_sums_counts (n k : nat) (zr : list (list Z)) :
  let M := mk_ndarray n k (map (map of_Z) zr) in
  well_shaped M -> Forall (Forall (fun z => 0 <= z)%Z) zr ->
  col_sums M = map qz (columns k zr).
Proof.
  intros M Hw Hnn.
  assert (Hc : Forall (Forall nonneg) (rows M)).
  { apply counts_nonneg. unfold M. cbn [rows].
    apply Forall_map. eapply Forall_impl; [|exact Hnn].
    intros r Hr. apply Forall_map. eapply Forall_impl; [|exact Hr].
    intros z Hz. now exists z. }
  pose proof (nd_sum_axis0_fin M Hw Hc) as H.
  unfold nd_sum_axis0 in H. unfold M in H at 1 2. cbn [rows shape1] in H.
  replace (repeat (FFin 0) k) with (map of_Z (repeat 0%Z k)) in H
    by (now rewrite map_repeat).
  rewrite exact_fold_vec_add_counts in H. fold (columns k zr) in H.
  apply (f_equal (map qval)) in H. rewrite !map_map in H.
  cbn [qval] in H. rewrite map_id in H. rewrite <- H.
  now apply map_ext.
Qed.

Lemma column_squares_spec (n k : nat) (zr : list (list Z)) :
  let M := mk_ndarray n k (map (map of_Z) zr) in
  well_shaped M -> Forall (Forall (fun z => 0 <= z)%Z) zr ->
  Qc_sum (map sq (col_sums M)) = qz (zsum (map zsq (columns k zr))).
Proof.
  intros M Hw Hnn. unfold M. rewrite col_sums_counts by assumption.
  rewrite map_map. rewrite (map_ext _ (fun z => qz (zsq z))) by apply sq_qz.
  rewrite <- (map_map zsq qz). apply Qc_sum_qz.
Qed.

Lemma zsum_le_squares (l : list Z) :
  Forall (fun z => 0 <= z)%Z l -> (zsum l <= zsum (map zsq l))%Z.
Proof.
  induction 1 as [|x l Hx _ IH]; [cbv; discriminate|].
  cbn [map zsum fold_right]. fold (zsum l). fold (zsum (map zsq l)).
  assert (x <= zsq x)%Z by (unfold zsq; nia). lia.
Qed.

(** The sums of a matrix of counts are whole numbers, and the engine
    computes its kappa from them. *)
Lemma calculate_of_sums (M : ndarray) :
  well_shaped M ->
  Forall (Forall count) (rows M) ->
  (0 < shape0 M)%nat -> (0 < shape1 M)%nat ->
  N M * N M <= qz exact_max ->
  N M * (n M - 1) <= qz exact_max ->
  exists T SS S : Z,
    N M = qz T /\ sum_squares M = qz SS /\
    Qc_sum (map sq (col_sums M)) = qz S /\
    (0 <= T)%Z /\ (T * T <= exact_max)%Z /\
    (T <= SS)%Z /\ (0 <= S <= T * T)%Z /\
    Binary64.calculate_fleiss_kappa M
    = Binary64.kappa_of_sums (Z.of_nat (shape0 M)) T SS S.
Proof.
  intros Hw Hc Hn Hk HNN HNn.
  destruct (counts_rows _ Hc) as [E Hnn].
  destruct M as [n0 k0 rs]. cbn [rows shape0 shape1] in *.
  set (zr := map (map whole) rs) in *. rewrite E in *. clear E.
  rewrite N_counts in HNN, HNn.
  exists (total zr), (squares zr), (zsum (map zsq (columns k0 zr))).
  rewrite N_counts, sum_squares_counts, column_squares_spec by assumption.
  assert (HT : (total zr * total zr <= exact_max)%Z).
  { apply qz_le_inv. now rewrite qz_mul. }
  assert (Hd : (total zr * (Z.of_nat n0 - 1) <= exact_max)%Z).
  { apply qz_le_inv. rewrite qz_mul, qz_pred.
    destruct Hw as [Hlen _]. cbn [rows shape0] in Hlen.
    unfold n in HNn. cbn [rows] in HNn. rewrite Hlen in HNn. exact HNn. }
  repeat split; try reflexivity.
  - now apply total_nonneg.
  - exact HT.
  - apply zsum_le_squares, concat_nonneg, Hnn.
  - apply (column_squares_small zr k0 Hnn).
  - apply (column_squares_small zr k0 Hnn).
  - now apply calculate_counts.
Qed.

End SpecSums.

(** ** The two rounded quotients *)

Section Quotients.

Import Spec Counts Tally Binary64.

Lemma below_one_lt_1 : below_one < 1.
Proof. reflexivity. Qed.

Lemma half_ulp_below_one (r : Qc) :
  r <= below_one -> half_ulp <= 1 - r.
Proof.
  intros H.
  assert (E : half_ulp = 1 - below_one)
    by (apply Qc_is_canon; vm_compute; reflexivity).
  rewrite E. unfold Qcminus. apply Qcplus_le_compat; [apply Qcle_refl|].
  now apply Qcopp_le_compat.
Qed.

Lemma rnd_0 : rnd 0 = FFin 0.
Proof. reflexivity. Qed.

Lemma rnd_1 : rnd 1 = FFin 1.
Proof. apply (rnd_whole 1). unfold exact_max. lia. Qed.

(** A quotient of counts under 1 is rounded under 1. *)
Lemma div_below_one (S D : Z) :
  (0 <= S < D)%Z -> (D <= exact_max)%Z ->
  exists r, div (of_Z S) (of_Z D) = FFin r /\ 0 <= r /\ r <= below_one.
Proof.
  intros HS HD. rewrite div_counts by lia.
  destruct (Z.eq_dec S 0) as [->|NZ].
  - change (qz 0) with 0. rewrite Qcdiv_0_l, rnd_0.
    exists 0. split; [reflexivity|]. split; [apply Qcle_refl|].
    unfold below_one. apply (scale_nonneg _ 53); lia.
  - assert (HD0 : 0 < qz D) by (change 0 with (qz 0); apply qz_lt; lia).
    assert (HS0 : 0 < qz S) by (change 0 with (qz 0); apply qz_lt; lia).
    apply rnd_below_one.
    + unfold Qcdiv. apply Qcmult_pos; [exact HS0|].
      now apply Qcinv_pos.
    + apply (Qcmult_lt_0_le_reg_r _ _ (qz D) HD0).
      replace (qz S / qz D * qz D) with (qz S)
        by (field; apply qz_pos_neq; lia).
      unfold below_one. rewrite (scale_neg _ 53) by lia.
      unfold Qcle, Qcmult, qz. cbn [this Q2Qc]. rewrite !Qred_correct.
      unfold Qle, Qmult, inject_Z. cbn [Qnum Qden].
      unfold exact_max in HD.
      change (Z.pos (Z.to_pos (2 ^ 53) * 1)) with (2 ^ 53)%Z. lia.
Qed.

Lemma div_same (D : Z) : (0 < D)%Z -> div (of_Z D) (of_Z D) = of_Z 1.
Proof.
  intros HD. rewrite div_counts by lia.
  replace (qz D / qz D) with 1 by (field; apply qz_pos_neq; lia).
  apply rnd_1.
Qed.

Lemma below_one_not_1 (r : Qc) :
  r <= below_one -> feqb (FFin r) (of_Z 1) = false.
Proof.
  intros H. rewrite of_Z_qz, feqb_fin. apply Qc_eqb_neq. intros ->.
  exact (Qcle_not_lt _ _ H below_one_lt_1).
Qed.

(** [1 - Pe] is a positive number when [Pe] is under 1. *)
Lemma one_minus_below_one (r : Qc) :
  0 <= r -> r <= below_one ->
  exists d, sub (of_Z 1) (FFin r) = FFin d /\ 0 < d.
Proof.
  intros H0 H. unfold sub. rewrite of_Z_qz, fsub_fin. cbn [round].
  apply rnd_positive.
  - now apply half_ulp_below_one.
  - change (qz 1) with 1. unfold Qcminus.
    replace 1 with (1 + - 0) at 2 by ring.
    apply Qcplus_le_compat; [apply Qcle_refl|]. now apply Qcopp_le_compat.
Qed.

Lemma kappa_of_sums_guard (n T SS S : Z) :
  (0 < T)%Z -> kappa_of_sums n T SS (T * T) = FNaN.
Proof.
  intros HT. unfold kappa_of_sums.
  replace (T =? 0)%Z with false by (symmetry; apply Z.eqb_neq; lia).
  rewrite div_same by nia. now rewrite (proj2 (feqb_of_Z_1 _) eq_refl).
Qed.

Lemma kappa_of_sums_value (n T SS S : Z) :
  (0 < T)%Z -> (T * T <= exact_max)%Z -> (0 <= S < T * T)%Z ->
  kappa_of_sums n T SS S
  = let P := div (of_Z SS) (of_Z (T * (n - 1))) in
    let Pe := rnd (qz S / qz (T * T)) in
    div (sub P Pe) (sub (of_Z 1) Pe).
Proof.
  intros HT Hm HS. unfold kappa_of_sums.
  replace (T =? 0)%Z with false by (symmetry; apply Z.eqb_neq; lia).
  destruct (div_below_one S (T * T) HS Hm) as (r & E & H0 & H1).
  rewrite E, (below_one_not_1 r H1). cbv zeta.
  rewrite <- div_counts by lia. now rewrite E.
Qed.

Lemma fdiv_not_nan (x : float) (d : Qc) :
  x <> FNaN -> 0 < d -> fdiv x (FFin d) <> FNaN.
Proof.
  intros Hx Hd.
  assert (Hz : Qc_eqb d 0 = false).
  { apply Qc_eqb_neq. intros ->. now apply Qclt_not_eq in Hd. }
  destruct x as [q| |s|]; [| | |congruence]; unfold fdiv;
    cbn [is_zero qval]; rewrite ?Hz; try discriminate.
  - destruct (Qc_eqb q 0); [|discriminate]. now destruct (xorb _ _).
  - now destruct (xorb _ _).
Qed.

Lemma fsub_not_nan (x : float) (r : Qc) :
  x <> FNaN -> fsub x (FFin r) <> FNaN.
Proof.
  intros Hx. unfold fsub, fneg.
  destruct x as [q| |s|]; [| | |congruence];
    destruct (Qc_eqb r 0); discriminate.
Qed.

(** With [Pe] under 1 the kappa is a number or an infinity. *)
Lemma kappa_of_sums_not_nan (n T SS S : Z) :
  (0 < T)%Z -> (T * T <= exact_max)%Z -> (0 <= S < T * T)%Z ->
  (0 < SS)%Z -> (1 <= n)%Z ->
  kappa_of_sums n T SS S <> FNaN.
Proof.
  intros HT Hm HS HSS Hn. rewrite kappa_of_sums_value by assumption.
  cbv zeta. rewrite <- div_counts by lia.
  destruct (div_below_one S (T * T) HS Hm) as (r & E & H0 & H1).
  rewrite E.
  destruct (one_minus_below_one r H0 H1) as (d & Ed & Hd). rewrite Ed.
  unfold div at 1. apply round_not_nan, fdiv_not_nan; [|exact Hd].
  unfold sub. apply round_not_nan, fsub_not_nan.
  destruct (Z.eq_dec n 1) as [->|NE].
  - change (1 - 1)%Z with 0%Z. rewrite Z.mul_0_r, div_by_zero by lia.
    discriminate.
  - rewrite div_counts by nia. apply rnd_not_nan.
Qed.

(** With one row the observed agreement is infinite, and so is the
    kappa unless [Pe] is 1. *)
Lemma kappa_of_sums_single (T SS S : Z) :
  (0 < T)%Z -> (T * T <= exact_max)%Z -> (0 <= S < T * T)%Z ->
  (0 < SS)%Z ->
  kappa_of_sums 1 T SS S = FInf false.
Proof.
  intros HT Hm HS HSS. rewrite kappa_of_sums_value by assumption.
  cbv zeta. rewrite <- div_counts by lia.
  destruct (div_below_one S (T * T) HS Hm) as (r & E & H0 & H1).
  rewrite E.
  destruct (one_minus_below_one r H0 H1) as (d & Ed & Hd). rewrite Ed.
  change (1 - 1)%Z with 0%Z. rewrite Z.mul_0_r, div_by_zero by lia.
  assert (Es : sub (FInf false) (FFin r) = FInf false).
  { unfold sub, fsub, fneg. now destruct (Qc_eqb r 0). }
  rewrite Es. unfold div, fdiv. cbn [fsign round].
  replace (Qc_ltb d 0) with false; [reflexivity|].
  symmetry. apply Qc_ltb_ge. now apply Qclt_le_weak.
Qed.

End Quotients.
(** * The engine with rounding *)

Section Binary64Engine.

Import Spec Counts Tally.

Lemma qz_lt_inv (x y : Z) : qz x < qz y -> (x < y)%Z.
Proof.
  intros H. destruct (Z.lt_ge_cases x y) as [L|L]; [exact L|].
  apply qz_le in L. exfalso. exact (Qcle_not_lt _ _ L H).
Qed.

Lemma n_shape0 (M : ndarray) :
  well_shaped M -> n M = qz (Z.of_nat (shape0 M)).
Proof. intros [Hlen _]. unfold n. now rewrite Hlen. Qed.

Lemma Pe_of_sums (M : ndarray) (T S : Z) :
  N M = qz T -> Qc_sum (map sq (col_sums M)) = qz S ->
  Pe M = qz S / qz (T * T).
Proof. intros HN HS. unfold Pe. now rewrite HN, HS, qz_mul. Qed.

Lemma Pe_1_iff (M : ndarray) (T S : Z) :
  (0 < T)%Z ->
  N M = qz T -> Qc_sum (map sq (col_sums M)) = qz S ->
  Pe M = 1 <-> S = (T * T)%Z.
Proof.
  intros HT HN HS. rewrite (Pe_of_sums M T S HN HS).
  assert (HD : qz (T * T) <> 0) by (apply qz_pos_neq; nia).
  split.
  - intros E. apply qz_inj.
    replace (qz S) with (qz S / qz (T * T) * qz (T * T)) by (now field).
    rewrite E. ring.
  - intros ->. now field.
Qed.

(** C1, for matrices of counts.  On a matrix of whole numbers that are
    not negative, with more than one row, at least one column, a
    positive sum of entries [N] with [N * N] and [N * (n - 1)] at most
    [2 ^ 53], and [Pe <> 1], the sums of [calculate_fleiss_kappa] are
    exact and the function returns the [float64] quotient of the
    [float64] differences [P' - Pe'] and [1 - Pe'], where [P'] and
    [Pe'] are the [float64] numbers nearest to [P] and [Pe]: [P] the sum
    of the squared entries over [N * (n - 1)], [Pe] the sum of the
    squared column sums over [N * N]. *)
Theorem calculate_fleiss_kappa_formula_counts (M : ndarray) :
  well_shaped M ->
  Forall (Forall count) (rows M) ->
  (1 < shape0 M)%nat ->
  (0 < shape1 M)%nat ->
  0 < N M ->
  N M * N M <= qz exact_max ->
  N M * (n M - 1) <= qz exact_max ->
  Pe M <> 1 ->
  Binary64.calculate_fleiss_kappa M
  = let P' := Binary64.rnd (P M) in
    let Pe' := Binary64.rnd (Pe M) in
    Binary64.div (Binary64.sub P' Pe') (Binary64.sub (of_Z 1) Pe').
Proof.
  intros Hw Hc Hn Hk HN HNN HNn HPe.
  destruct (calculate_of_sums M Hw Hc ltac:(lia) Hk HNN HNn)
    as (T & SS & S & ET & ESS & ES & HT0 & HTT & HSS & HS & ->).
  assert (HT : (0 < T)%Z).
  { apply qz_lt_inv. now rewrite <- ET. }
  assert (HS' : (0 <= S < T * T)%Z).
  { pose proof (Pe_1_iff M T S HT ET ES) as I.
    destruct (Z.eq_dec S (T * T)) as [E|E]; [|lia].
    now apply I in E. }
  rewrite kappa_of_sums_value by assumption. cbv zeta.
  rewrite div_counts by nia.
  rewrite (Pe_of_sums M T S ET ES). unfold P.
  now rewrite ESS, ET, (n_shape0 M Hw), <- qz_pred, <- qz_mul.
Qed.

(** C1, as the specification states it, fails: the matrix
    [[1, 1e-20], [1, 0]] has entries that are not negative, two rows, two
    columns, a positive sum and [Pe <> 1], and on it the function
    returns not-a-number.  The column sums are 2 and [1e-20]; the sum of
    their squares is rounded to 4, which is [N ** 2]: the computed [Pe]
    is 1 and the guard returns not-a-number. *)
Lemma calculate_fleiss_kappa_formula_rounds_to_guard :
  well_shaped tiny_entry /\
  Forall (Forall nonneg) (rows tiny_entry) /\
  Forall (Forall Binary64.representable) (rows tiny_entry) /\
  (1 < shape0 tiny_entry)%nat /\
  (0 < shape1 tiny_entry)%nat /\
  0 < N tiny_entry /\
  Pe tiny_entry <> 1 /\
  Binary64.expected_agreement tiny_entry = of_Z 1 /\
  Binary64.calculate_fleiss_kappa tiny_entry = FNaN.
Proof.
  split; [split; [reflexivity|repeat constructor]|].
  split.
  { repeat constructor; eexists; (split; [reflexivity|]);
      vm_compute; discriminate. }
  split; [repeat constructor; vm_compute; f_equal; apply Qc_is_canon; reflexivity|].
  split; [simpl; lia|]. split; [simpl; lia|].
  split; [vm_compute; reflexivity|].
  split.
  { intros H. apply (f_equal this) in H. vm_compute in H. discriminate H. }
  split; [vm_compute; f_equal; apply Qc_is_canon; reflexivity|].
  vm_compute. reflexivity.
Qed.

(** ** Reordering the rows *)

Lemma zvec_add_swap (a x y : list Z) :
  zvec_add (zvec_add a x) y = zvec_add (zvec_add a y) x.
Proof.
  revert x y. induction a as [|a0 a IH]; intros [|x0 x] [|y0 y]; simpl;
    try reflexivity.
  rewrite IH. f_equal. lia.
Qed.

Lemma total_permutation (zr zr' : list (list Z)) :
  Permutation zr zr' -> total zr' = total zr.
Proof.
  intros HP. unfold total. symmetry.
  now apply zsum_permutation, concat_permutation.
Qed.

Lemma squares_permutation (zr zr' : list (list Z)) :
  Permutation zr zr' -> squares zr' = squares zr.
Proof.
  intros HP. unfold squares. symmetry.
  now apply zsum_permutation, Permutation_map, concat_permutation.
Qed.

Lemma columns_permutation (k : nat) (zr zr' : list (list Z)) :
  Permutation zr zr' -> columns k zr' = columns k zr.
Proof.
  intros HP. unfold columns. symmetry.
  now apply fold_left_permutation; [apply zvec_add_swap|].
Qed.

(** C7, for matrices of counts.  On a matrix of whole numbers that are
    not negative, whose sum [N] has [N * N <= 2 ^ 53], reordering the
    rows changes neither the sum of the entries, nor the sum of their
    squares, nor the column sums, nor therefore the value of
    [calculate_fleiss_kappa]: no sum is rounded. *)
Theorem calculate_fleiss_kappa_row_permutation_counts
  (M : ndarray) (rows' : list (list float)) :
  Forall (Forall count) (rows M) ->
  N M * N M <= qz exact_max ->
  Permutation (rows M) rows' ->
  let M' := mk_ndarray (shape0 M) (shape1 M) rows' in
  Binary64.total_ratings M' = Binary64.total_ratings M /\
  Binary64.nd_sum (Binary64.nd_pow2 M')
  = Binary64.nd_sum (Binary64.nd_pow2 M) /\
  Binary64.nd_sum_axis0 M' = Binary64.nd_sum_axis0 M /\
  Binary64.calculate_fleiss_kappa M' = Binary64.calculate_fleiss_kappa M.
Proof.
  intros Hc HNN HP M'.
  assert (Hc' : Forall (Forall count) rows').
  { eapply Permutation_Forall; [exact HP|exact Hc]. }
  destruct (counts_rows _ Hc) as [E Hnn].
  destruct (counts_rows _ Hc') as [E' Hnn'].
  destruct M as [n0 k0 rs]. cbn [rows shape0 shape1] in *. subst M'.
  assert (HPz : Permutation (map (map whole) rs) (map (map whole) rows'))
    by now apply Permutation_map.
  set (zr := map (map whole) rs) in *.
  set (zr' := map (map whole) rows') in *.
  rewrite E in HNN. rewrite N_counts in HNN.
  assert (HT : (total zr * total zr <= exact_max)%Z).
  { apply qz_le_inv. now rewrite qz_mul. }
  assert (HT' : (total zr' * total zr' <= exact_max)%Z).
  { now rewrite (total_permutation zr zr' HPz). }
  assert (EN : Binary64.total_ratings (mk_ndarray n0 k0 rows')
               = Binary64.total_ratings (mk_ndarray n0 k0 rs)).
  { unfold Binary64.total_ratings, scalar_sum. rewrite E, E'.
    rewrite !nd_sum_counts by assumption.
    now rewrite (total_permutation zr zr' HPz). }
  assert (ES : Binary64.nd_sum (Binary64.nd_pow2 (mk_ndarray n0 k0 rows'))
               = Binary64.nd_sum (Binary64.nd_pow2 (mk_ndarray n0 k0 rs))).
  { rewrite E, E'. rewrite !nd_sum_pow2_counts by assumption.
    now rewrite (squares_permutation zr zr' HPz). }
  assert (EC : Binary64.nd_sum_axis0 (mk_ndarray n0 k0 rows')
               = Binary64.nd_sum_axis0 (mk_ndarray n0 k0 rs)).
  { rewrite E, E'. rewrite !nd_sum_axis0_counts by assumption.
    now rewrite (columns_permutation k0 zr zr' HPz). }
  repeat split; try assumption.
  unfold Binary64.calculate_fleiss_kappa, Binary64.observed_agreement,
    Binary64.expected_agreement.
  cbn [shape0 shape1]. now rewrite EN, ES, EC.
Qed.

(** C7, as the specification states it, fails: in the matrix
    [[0, 1], [1, 0], [2 ** 53, 0]] of [float64] counts, exchanging the
    last two rows changes the kappa from a number to not-a-number.  With
    the large row last the entries add up to [2 ** 53 + 2]; with the
    large row in the middle the 1 that comes after it is lost, the
    entries add up to [2 ** 53], [Pe] is computed as 1 and the guard
    returns not-a-number. *)
Lemma calculate_fleiss_kappa_row_order_matters :
  Permutation (rows large_count_last) (rows large_count_middle) /\
  Forall (Forall count) (rows large_count_last) /\
  Forall (Forall Binary64.representable) (rows large_count_last) /\
  Binary64.total_ratings large_count_last = of_Z (2 ^ 53 + 2) /\
  Binary64.total_ratings large_count_middle = of_Z (2 ^ 53) /\
  Binary64.calculate_fleiss_kappa large_count_last
  = FFin (Binary64.scale 2251799813685247 52) /\
  Binary64.calculate_fleiss_kappa large_count_middle = FNaN.
Proof.
  split; [simpl; apply perm_skip, perm_swap|].
  split.
  { repeat constructor; eexists; (split; [|reflexivity]); lia. }
  split; [repeat constructor; vm_compute; f_equal; apply Qc_is_canon; reflexivity|].
  split; [vm_compute; f_equal; apply Qc_is_canon; reflexivity|].
  split; [vm_compute; f_equal; apply Qc_is_canon; reflexivity|].
  split; [vm_compute; f_equal; apply Qc_is_canon; reflexivity|].
  vm_compute. reflexivity.
Qed.

End Binary64Engine.
Section Binary64Cases.

Import Spec Counts Tally.

(** X1.  On a matrix of counts with exactly one row, at least one
    column and a positive sum [N] with [N * N <= 2 ^ 53], the function
    returns not-a-number when [Pe = 1] and plus infinity otherwise,
    never a number. *)
Theorem calculate_fleiss_kappa_single_row_counts (M : ndarray) :
  well_shaped M ->
  Forall (Forall count) (rows M) ->
  shape0 M = 1%nat ->
  (0 < shape1 M)%nat ->
  0 < N M ->
  N M * N M <= qz exact_max ->
  Binary64.calculate_fleiss_kappa M
  = if Qc_eqb (Pe M) 1 then FNaN else FInf false.
Proof.
  intros Hw Hc Hn Hk HN HNN.
  assert (HNn : N M * (n M - 1) <= qz exact_max).
  { rewrite (n_shape0 M Hw), Hn. change (qz (Z.of_nat 1) - 1) with 0.
    rewrite Qcmult_0_r. now apply (qz_nonneg exact_max). }
  destruct (calculate_of_sums M Hw Hc ltac:(lia) Hk HNN HNn)
    as (T & SS & S & ET & ESS & ES & HT0 & HTT & HSS & HS & ->).
  assert (HT : (0 < T)%Z).
  { apply qz_lt_inv. now rewrite <- ET. }
  pose proof (Pe_1_iff M T S HT ET ES) as I. rewrite Hn.
  destruct (Qc_eqb (Pe M) 1) eqn:EPe.
  - apply Qc_eqb_eq, I in EPe. subst S.
    now apply kappa_of_sums_guard.
  - apply Qc_eqb_neq in EPe.
    assert (S <> T * T)%Z by (intros E; now apply I in E).
    apply kappa_of_sums_single; lia.
Qed.

(** X2.  On a matrix of counts whose sum [N] has [N * N] and
    [N * (n - 1)] at most [2 ^ 53], the function returns not-a-number
    exactly when the matrix has no row, or no column, or its entries
    sum to 0, or [Pe = 1]. *)
Theorem calculate_fleiss_kappa_nan_iff_counts (M : ndarray) :
  well_shaped M ->
  Forall (Forall count) (rows M) ->
  N M * N M <= qz exact_max ->
  N M * (n M - 1) <= qz exact_max ->
  Binary64.calculate_fleiss_kappa M = FNaN <->
  shape0 M = 0%nat \/ shape1 M = 0%nat \/ N M = 0 \/ Pe M = 1.
Proof.
  intros Hw Hc HNN HNn.
  destruct (Nat.eq_dec (shape0 M) 0) as [E0|E0].
  { split; [auto|]. intros _. unfold Binary64.calculate_fleiss_kappa.
    now rewrite E0. }
  destruct (Nat.eq_dec (shape1 M) 0) as [E1|E1].
  { split; [auto|]. intros _. unfold Binary64.calculate_fleiss_kappa.
    rewrite E1. now rewrite Bool.orb_true_r. }
  destruct (calculate_of_sums M Hw Hc ltac:(lia) ltac:(lia) HNN HNn)
    as (T & SS & S & ET & ESS & ES & HT0 & HTT & HSS & HS & ->).
  destruct (Z.eq_dec T 0) as [->|NT].
  { split; [|reflexivity]. intros _. right. right. left. exact ET. }
  assert (HT : (0 < T)%Z) by lia.
  pose proof (Pe_1_iff M T S HT ET ES) as I.
  destruct (Z.eq_dec S (T * T)) as [->|NS].
  { split; [|intros _; now apply kappa_of_sums_guard].
    intros _. right. right. right. now apply I. }
  split.
  - intros H. exfalso. revert H. apply kappa_of_sums_not_nan; lia.
  - intros [H|[H|[H|H]]]; [lia|lia| |].
    + rewrite ET in H. change 0 with (qz 0) in H. apply qz_inj in H. lia.
    + apply I in H. contradiction.
Qed.

(** ** The analysis of a question *)

Lemma one_hot_count (j : nat) : (j < 3)%nat -> Forall count (one_hot j).
Proof.
  intros Hj.
  assert (H0 : count (FFin 0)) by (exists 0%Z; split; [lia|reflexivity]).
  assert (H1 : count (of_Z 1)) by (exists 1%Z; split; [lia|reflexivity]).
  destruct j as [|[|[|j]]]; [| | |lia]; repeat constructor; assumption.
Qed.

Lemma rating_count (a b c : nat) :
  Forall (Forall count) (rating_rows a b c).
Proof. apply rating_rows_Forall; apply one_hot_count; lia. Qed.

(** The engine on the matrix of a question, and the computation from
    the counts, agree to the last bit. *)
Lemma calculate_rating_binary64 (a b c : nat) :
  let t := (Z.of_nat a + Z.of_nat b + Z.of_nat c)%Z in
  (t * t <= exact_max)%Z ->
  Binary64.calculate_fleiss_kappa
    (mk_ndarray (a + b + c) 3 (rating_rows a b c))
  = Binary64.counts_kappa (Z.of_nat a) (Z.of_nat b) (Z.of_nat c).
Proof.
  intros t Ht. set (M := mk_ndarray (a + b + c) 3 (rating_rows a b c)).
  unfold Binary64.counts_kappa. fold t.
  destruct (Z.eq_dec t 0) as [E|E].
  { unfold Binary64.calculate_fleiss_kappa, Binary64.kappa_of_sums.
    rewrite E. cbn [shape0 M].
    replace (a + b + c)%nat with 0%nat by lia. reflexivity. }
  assert (HN : N M = qz t) by apply rating_N.
  assert (HNN : N M * N M <= qz exact_max).
  { rewrite HN, <- qz_mul. now apply qz_le. }
  assert (HNn : N M * (n M - 1) <= qz exact_max).
  { rewrite HN. unfold M. rewrite rating_n, <- qz_pred, <- qz_mul.
    apply qz_le. fold t. nia. }
  destruct (calculate_of_sums M (rating_well_shaped a b c)
              (rating_count a b c) ltac:(cbn; lia) ltac:(cbn; lia) HNN HNn)
    as (T & SS & S & ET & ESS & ES & HT0 & HTT & HSS & HS & ->).
  rewrite HN in ET. apply qz_inj in ET. subst T.
  unfold M in ESS. rewrite rating_sum_squares in ESS.
  apply qz_inj in ESS. fold t in ESS. subst SS.
  unfold M in ES. rewrite rating_spec_col_sums in ES.
  cbn [map Qc_sum fold_right] in ES.
  rewrite !sq_qz, Qcplus_0_r, <- !qz_add in ES. apply qz_inj in ES.
  unfold zsq in ES. cbn [shape0 M]. f_equal; lia.
Qed.

(** X3.  For a summary that keeps the invariant of the data model and
    whose total [N] has [N * N <= 2 ^ 53], the kappa of the analysis is
    the [float64] computed from the three counts alone, to the last
    bit: the matrix need not be built. *)
Theorem analyze_row_closed_form_binary64 (s : QuestionSummary) :
  summary_ok s ->
  (Total_Responses s * Total_Responses s <= exact_max)%Z ->
  Binary64.analyze_row s =
  Ok (mk_kappa_result (qs_Question s)
        (Binary64.counts_kappa (Category_A s) (Category_B s) (Category_C s))
        (Total_Responses s) (Category_A s) (Category_B s) (Category_C s)
        (interpret_fleiss_kappa
           (Binary64.counts_kappa
              (Category_A s) (Category_B s) (Category_C s)))).
Proof.
  destruct s as [q a b c t]. unfold summary_ok. cbn.
  intros (Ha & Hb & Hc & ->) Ht. unfold Binary64.analyze_row. cbn.
  rewrite build_data_matrix_rows by assumption. cbn [bind].
  replace (Z.to_nat (a + b + c))
    with (Z.to_nat a + Z.to_nat b + Z.to_nat c)%nat by lia.
  rewrite calculate_rating_binary64.
  - now rewrite !Z2Nat.id by assumption.
  - cbv zeta. now rewrite !Z2Nat.id by assumption.
Qed.

Lemma counts_kappa_permutation (a b c a' b' c' : Z) :
  Permutation [a; b; c] [a'; b'; c'] ->
  Binary64.counts_kappa a b c = Binary64.counts_kappa a' b' c'.
Proof.
  intros HP.
  assert (Et : (a + b + c = a' + b' + c')%Z).
  { pose proof (zsum_permutation _ _ HP) as H. cbn in H. lia. }
  assert (Es : (a * a + b * b + c * c = a' * a' + b' * b' + c' * c')%Z).
  { pose proof (zsum_permutation _ _ (Permutation_map zsq HP)) as H.
    cbn in H. unfold zsq in H. lia. }
  unfold Binary64.counts_kappa. now rewrite Et, Es.
Qed.

(** X4.  For summaries that keep the invariant of the data model and
    whose total [N] has [N * N <= 2 ^ 53], the kappa and the label of a
    question do not depend on which category is called A, B or C. *)
Theorem analyze_row_relabel_binary64 (s s' : QuestionSummary) :
  summary_ok s -> summary_ok s' ->
  (Total_Responses s * Total_Responses s <= exact_max)%Z ->
  Permutation [Category_A s; Category_B s; Category_C s]
              [Category_A s'; Category_B s'; Category_C s'] ->
  exists r r',
    Binary64.analyze_row s = Ok r /\ Binary64.analyze_row s' = Ok r' /\
    Fleiss_Kappa r = Fleiss_Kappa r' /\
    Agreement_Level r = Agreement_Level r'.
Proof.
  intros Hs Hs' Ht HP.
  assert (Et : Total_Responses s' = Total_Responses s).
  { destruct Hs as (_ & _ & _ & ->), Hs' as (_ & _ & _ & ->).
    pose proof (zsum_permutation _ _ HP) as H. cbn in H. lia. }
  rewrite (analyze_row_closed_form_binary64 s Hs Ht).
  rewrite (analyze_row_closed_form_binary64 s' Hs') by now rewrite Et.
  do 2 eexists. split; [reflexivity|]. split; [reflexivity|].
  cbn [Fleiss_Kappa Agreement_Level].
  now rewrite (counts_kappa_permutation _ _ _ _ _ _ HP).
Qed.

End Binary64Cases.
(** * The rounding against the machine

    The operations of [Binary64] are those of the processor's binary64
    numbers on the samples, the thresholds of the interpreter are the
    machine's readings of the literals of the script, and the kappa of
    sample inputs is the machine number the script prints. *)

Set Warnings "-inexact-float".

Ltac float_value :=
  vm_compute;
  first [ reflexivity
        | f_equal; apply Qc_is_canon; reflexivity
        | do 3 f_equal; apply Qc_is_canon; reflexivity ].

Section MachineChecks.

Import PrimFloat.

Example binary64_agrees_with_machine :
  forallb (fun x => forallb (Machine.agree x) Machine.samples)
    Machine.samples = true.
Proof. vm_compute. reflexivity. Qed.

Example thresholds_are_float64 :
  Machine.to_exact 0.81 = FFin f64_0_81 /\
  Machine.to_exact 0.61 = FFin f64_0_61 /\
  Machine.to_exact 0.41 = FFin f64_0_41 /\
  Machine.to_exact 0.21 = FFin f64_0_21 /\
  Machine.to_exact 0.01 = FFin f64_0_01 /\
  Machine.to_exact 1e-20 = FFin f64_1e_20.
Proof. repeat split; float_value. Qed.

(** The matrix [[2, 1], [1, 3]]. *)
Example sample_counts_kappa :
  Binary64.calculate_fleiss_kappa sample_counts
  = Machine.to_exact 3.3333333333333335.
Proof. float_value. Qed.

(** Scenario 2 of the specification: an even split of ten responses. *)
Example even_split_kappa :
  Binary64.analyze_row (mk_summary "Q" 5 5 0 10)
  = Ok (mk_kappa_result "Q" (Machine.to_exact (-0.7777777777777778))
          10 5 5 0 "Poor agreement").
Proof. float_value. Qed.

(** Two answers A and three answers C: the kappa is not [-9/16], the
    value of the formula, but the [float64] next to it. *)
Example sample_summary_kappa :
  Binary64.counts_kappa 2 0 3 = Machine.to_exact (-0.5625000000000001) /\
  Binary64.counts_kappa 2 0 3 <> dec (-9) 16.
Proof.
  split.
  - float_value.
  - intros H. apply (f_equal qval) in H. apply (f_equal this) in H.
    vm_compute in H. discriminate H.
Qed.

End MachineChecks.

Set Warnings "inexact-float".

(** * The further theorems at sample inputs *)

Section MoreSamples.

Import Spec Counts.

Lemma sample_summary_ok : summary_ok sample_summary.
Proof. unfold summary_ok. simpl. lia. Defined.

Lemma analyze_row_four_or_more_witness :
  exists r,
    analyze_row sample_summary = Ok r /\
    (unanimous 2 0 3 ->
     Fleiss_Kappa r = FNaN /\ Agreement_Level r = "No data") /\
    (~ unanimous 2 0 3 ->
     exists k, Fleiss_Kappa r = FFin k /\ k <= 0 /\
               Agreement_Level r = "Poor agreement").
Proof.
  apply (analyze_row_four_or_more sample_summary).
  - exact sample_summary_ok.
  - simpl. lia.
Defined.

Lemma analyze_row_label_witness :
  exists r,
    analyze_row sample_summary = Ok r /\
    Agreement_Level r = "Poor agreement".
Proof.
  apply (analyze_row_label sample_summary). exact sample_summary_ok.
Defined.

Lemma analyze_row_raises_witness :
  analyze_row short_summary = Raise IndexError.
Proof.
  apply (analyze_row_raises short_summary); simpl; lia.
Defined.

Lemma sample_table_totals :
  forall r, In r sample_table -> (0 <= Total r < 2 ^ 20)%Z.
Proof.
  intros r H. simpl in H.
  repeat (destruct H as [<-|H]; [simpl; lia|]). destruct H.
Defined.

Lemma pipeline_never_raises_witness :
  exists fleiss_df results,
    prepare_data_for_fleiss_kappa sample_table = Ok fleiss_df /\
    analyze_agreement_by_question fleiss_df = Ok results /\
    map kr_Question results = ["Q2"; "Q1"].
Proof.
  destruct (pipeline_never_raises sample_table sample_table_totals)
    as (fleiss_df & results & H1 & _ & H2 & H3 & _).
  exists fleiss_df, results. auto.
Defined.

Lemma prepare_data_ignores_other_labels_witness :
  prepare_data_for_fleiss_kappa
    ([mk_record "Q1" "A" 4] ++ mk_record "Q1" "D" 9
       :: [mk_record "Q1" "B" 1])
  = prepare_data_for_fleiss_kappa
      ([mk_record "Q1" "A" 4] ++ [mk_record "Q1" "B" 1]).
Proof.
  apply (prepare_data_ignores_other_labels
           [mk_record "Q1" "A" 4] [mk_record "Q1" "B" 1]
           (mk_record "Q1" "D" 9)).
  - reflexivity.
  - simpl. left. reflexivity.
Defined.

Lemma prepare_data_question_without_counts_witness :
  exists fleiss_df,
    prepare_data_for_fleiss_kappa table_with_D = Ok fleiss_df /\
    In (mk_summary "Q1" 0 0 0 0) fleiss_df /\
    analyze_row (mk_summary "Q1" 0 0 0 0)
    = Ok (mk_kappa_result "Q1" FNaN 0 0 0 0 "No data").
Proof.
  apply (prepare_data_question_without_counts table_with_D "Q1").
  - simpl. left. reflexivity.
  - intros r H Hq. simpl in H.
    destruct H as [<-|[<-|[]]]; [reflexivity | discriminate Hq].
Defined.

Lemma prepare_data_row_order_witness :
  exists out out',
    prepare_data_for_fleiss_kappa
      [mk_record "Q1" "A" 4; mk_record "Q1" "B" 1] = Ok out /\
    prepare_data_for_fleiss_kappa
      [mk_record "Q1" "B" 1; mk_record "Q1" "A" 4] = Ok out' /\
    Permutation out out'.
Proof.
  apply (prepare_data_row_order
           [mk_record "Q1" "A" 4; mk_record "Q1" "B" 1]
           [mk_record "Q1" "B" 1; mk_record "Q1" "A" 4]).
  - simpl. repeat constructor; simpl.
    + intros [H|[]]. discriminate H.
    + intros [].
  - apply perm_swap.
Defined.

Lemma interpret_fleiss_kappa_monotone_witness :
  exists i j,
    label_rank (interpret_fleiss_kappa (FFin (hundredths 30))) = Some i /\
    label_rank (interpret_fleiss_kappa (FInf false)) = Some j /\
    (i <= j)%nat.
Proof.
  apply (interpret_fleiss_kappa_monotone (FFin (hundredths 30)) (FInf false)).
  simpl. exact I.
Defined.

Lemma summary_statistics_counts_labels_witness :
  n_poor sample_statistics = count_label "Poor agreement" sample_results.
Proof.
  apply (summary_statistics_counts_labels [sample_summary] sample_results
           sample_statistics).
  - vm_compute. reflexivity.
  - vm_compute. reflexivity.
Defined.

Lemma summary_statistics_partition_witness :
  (n_almost_perfect sample_statistics + n_substantial sample_statistics
   + n_moderate sample_statistics + n_fair sample_statistics
   + n_slight sample_statistics + n_poor sample_statistics
   + len_where is_nan (map Fleiss_Kappa sample_results)
   = total_questions sample_statistics)%nat.
Proof.
  apply (summary_statistics_partition sample_results sample_statistics).
  vm_compute. reflexivity.
Defined.

Lemma main_report_key_error_witness :
  exists results stats,
    main_report sample_table = inr (results, stats) /\
    total_questions stats = 2%nat.
Proof.
  destruct (proj2 (main_report_key_error sample_table sample_table_totals))
    as (results & stats & H1 & H2 & _).
  - discriminate.
  - exists results, stats. split; [exact H1 | exact H2].
Defined.

Lemma summary_statistics_all_unanimous_witness :
  exists results stats,
    analyze_agreement_by_question [unanimous_summary] = Ok results /\
    summary_statistics results = inr stats /\
    average_kappa stats = FNaN.
Proof.
  destruct (summary_statistics_all_unanimous [unanimous_summary])
    as (results & stats & H1 & H2 & H3 & _).
  - discriminate.
  - constructor; [|constructor]. split.
    + unfold summary_ok. simpl. lia.
    + right. right. simpl. split; reflexivity.
  - exists results, stats. auto.
Defined.

Lemma analyze_agreement_by_question_aborts_witness :
  analyze_agreement_by_question ([sample_summary] ++ short_summary :: [])
  = Raise IndexError.
Proof.
  apply (analyze_agreement_by_question_aborts [sample_summary] []
           short_summary IndexError).
  - constructor; [|constructor]. eexists. vm_compute. reflexivity.
  - vm_compute. reflexivity.
Defined.

End MoreSamples.
(** * The theorems on rounding at sample inputs *)

Section RoundingSamples.

Import Spec Counts Tally.

Lemma sample_counts_count : Forall (Forall count) (rows sample_counts).
Proof.
  repeat constructor; eexists; (split; [|reflexivity]); lia.
Defined.

Lemma sample_counts_well_shaped : well_shaped sample_counts.
Proof. split; [reflexivity|repeat constructor]. Defined.

Lemma calculate_fleiss_kappa_formula_counts_witness :
  Binary64.calculate_fleiss_kappa sample_counts
  = Binary64.div
      (Binary64.sub (Binary64.rnd (P sample_counts))
         (Binary64.rnd (Pe sample_counts)))
      (Binary64.sub (of_Z 1) (Binary64.rnd (Pe sample_counts))).
Proof.
  apply (calculate_fleiss_kappa_formula_counts sample_counts).
  - exact sample_counts_well_shaped.
  - exact sample_counts_count.
  - simpl. lia.
  - simpl. lia.
  - vm_compute. reflexivity.
  - vm_compute. discriminate.
  - vm_compute. discriminate.
  - intros H. apply (f_equal this) in H. vm_compute in H. discriminate H.
Defined.

Lemma calculate_fleiss_kappa_row_permutation_counts_witness :
  Binary64.calculate_fleiss_kappa
    (mk_ndarray 2 2 [[of_Z 1; of_Z 3]; [of_Z 2; of_Z 1]])
  = Binary64.calculate_fleiss_kappa sample_counts.
Proof.
  apply (calculate_fleiss_kappa_row_permutation_counts sample_counts
           [[of_Z 1; of_Z 3]; [of_Z 2; of_Z 1]]).
  - exact sample_counts_count.
  - vm_compute. discriminate.
  - simpl. apply perm_swap.
Defined.

Lemma calculate_fleiss_kappa_single_row_counts_witness :
  Binary64.calculate_fleiss_kappa one_row_two_ones = FInf false.
Proof.
  apply (calculate_fleiss_kappa_single_row_counts one_row_two_ones).
  - split; [reflexivity|repeat constructor].
  - repeat constructor; eexists; (split; [|reflexivity]); lia.
  - reflexivity.
  - simpl. lia.
  - vm_compute. reflexivity.
  - vm_compute. discriminate.
Defined.

Lemma calculate_fleiss_kappa_nan_iff_counts_witness :
  Binary64.calculate_fleiss_kappa sample_counts = FNaN <->
  shape0 sample_counts = 0%nat \/ shape1 sample_counts = 0%nat \/
  N sample_counts = 0 \/ Pe sample_counts = 1.
Proof.
  apply (calculate_fleiss_kappa_nan_iff_counts sample_counts).
  - exact sample_counts_well_shaped.
  - exact sample_counts_count.
  - vm_compute. discriminate.
  - vm_compute. discriminate.
Defined.

Lemma analyze_row_closed_form_binary64_witness :
  Binary64.analyze_row sample_summary =
  Ok (mk_kappa_result "Q1" (Binary64.counts_kappa 2 0 3) 5 2 0 3
        (interpret_fleiss_kappa (Binary64.counts_kappa 2 0 3))).
Proof.
  apply (analyze_row_closed_form_binary64 sample_summary).
  - exact sample_summary_ok.
  - vm_compute. discriminate.
Defined.

Lemma analyze_row_relabel_binary64_witness :
  exists r r',
    Binary64.analyze_row sample_summary = Ok r /\
    Binary64.analyze_row (mk_summary "Q1" 3 2 0 5) = Ok r' /\
    Fleiss_Kappa r = Fleiss_Kappa r' /\
    Agreement_Level r = Agreement_Level r'.
Proof.
  apply (analyze_row_relabel_binary64 sample_summary
           (mk_summary "Q1" 3 2 0 5)).
  - exact sample_summary_ok.
  - unfold summary_ok. simpl. lia.
  - vm_compute. discriminate.
  - simpl. apply Permutation_sym.
    apply (Permutation_cons_app [2%Z; 0%Z] []). apply Permutation_refl.
Defined.

End RoundingSamples.
